(** * RAG chatbot backend: chunking, similarity ranking, session memory, prompt

    A shallow embedding of the retrieval and session-state code of the backend
    ([utils/chunking.py], [utils/similarity.py], [routes/chat.py]) together with
    the properties stated about it.

    Conventions.
    - A Python [str] is a [string]; every character stands for the code point
      of the same number (0..255).
    - A Python [int] is a [Z]; a Python [float] is a binary64 [float].
    - A function that can raise returns a sum: [inl] carries the exception. *)

From Stdlib Require Import ZArith List String Ascii Floats Lia Bool Sorted.
From stdpp Require Import gmap strings list.

Set Warnings "-inexact-float".

Local Open Scope string_scope.
Local Open Scope Z_scope.

(* ===================================================================== *)
(** * Part I: the program                                                 *)
(* ===================================================================== *)

(** ** Python string primitives used by the code *)

Module PyStr.

(** [str.isspace] on one character, restricted to code points below 256:
    TAB..CR, FS..US, SPACE, NEL and NBSP. *)
Definition is_space (c : ascii) : bool :=
  let n := N_of_ascii c in
  (((9 <=? n) && (n <=? 13)) || ((28 <=? n) && (n <=? 32))
   || (n =? 133) || (n =? 160))%N.

Fixpoint lstrip (s : string) : string :=
  match s with
  | EmptyString => EmptyString
  | String c s' => if is_space c then lstrip s' else s
  end.

Fixpoint rstrip (s : string) : string :=
  match s with
  | EmptyString => EmptyString
  | String c s' =>
      match rstrip s' with
      | EmptyString => if is_space c then EmptyString else String c EmptyString
      | r => String c r
      end
  end.

(** [s.strip()] *)
Definition strip (s : string) : string := rstrip (lstrip s).

(** [s.split()]: the maximal runs of non-whitespace characters. *)
Fixpoint split (s : string) : list string :=
  match s with
  | EmptyString => []
  | String c s' =>
      if is_space c then split s'
      else match s' with
           | EmptyString => [String c EmptyString]
           | String c' _ =>
               if is_space c' then String c EmptyString :: split s'
               else match split s' with
                    | w :: ws => String c w :: ws
                    | [] => [String c EmptyString]
                    end
           end
  end.

(** [sep.join(ws)] *)
Fixpoint join (sep : string) (ws : list string) : string :=
  match ws with
  | [] => EmptyString
  | [w] => w
  | w :: rest => w +:+ sep +:+ join sep rest
  end.

(** [range(0, stop, step)] for a positive [step]. *)
Definition range (stop step : nat) : list nat :=
  map (fun i => (i * step)%nat) (seq 0 ((stop + step - 1) / step)%nat).

(** [l[-n:]] for a positive [n]: the last [n] elements, all of [l] when it
    is shorter. *)
Definition last_n {A} (n : nat) (l : list A) : list A :=
  skipn (length l - n)%nat l.

(** [name in msg]: the text [msg] contains [name]. *)
Fixpoint mentions (name msg : string) : bool :=
  String.prefix name msg
  || match msg with
     | EmptyString => false
     | String _ msg' => mentions name msg'
     end.

End PyStr.

(** Exceptions the modelled code raises or lets through, by name. *)
Inductive exn : Type :=
  | ValueError (msg : string)
  | TypeError (msg : string)
  | OverflowError (msg : string)
  | OSError (msg : string).

(** ** utils/chunking.py *)

Module Chunking.
Import PyStr.

(** The body of the [for start in range(0, len(words), step)] loop, run over
    the list of start indices. *)
Fixpoint chunk_loop (words : list string) (chunk_size : nat)
         (starts : list nat) : list string :=
  match starts with
  | [] => []
  | start :: rest =>
      let chunk_words := firstn chunk_size (skipn start words) in
      match chunk_words with
      | [] => []
      | _ :: _ =>
          join " " chunk_words ::
            (if (length words <=? start + chunk_size)%nat then []
             else chunk_loop words chunk_size rest)
      end
  end.

(** [text] is a [str] by its type, so the [isinstance] check never raises. *)
Definition chunk_text (text : string) (chunk_size overlap : Z)
  : exn + list string :=
  if chunk_size <=? 0 then
    inl (ValueError "chunk_size must be greater than 0")
  else if overlap <? 0 then
    inl (ValueError "overlap must be greater than or equal to 0")
  else if overlap >=? chunk_size then
    inl (ValueError "overlap must be smaller than chunk_size")
  else
    let words := split text in
    match words with
    | [] => inr []
    | _ :: _ =>
        let step := chunk_size - overlap in
        inr (chunk_loop words (Z.to_nat chunk_size)
               (range (length words) (Z.to_nat step)))
    end.

(** Vocabulary for the chunking properties. *)

(** The [i]-th window of [chunk_size] words, windows starting every [step]
    words: [words[i*step : i*step + chunk_size]]. *)
Definition window (words : list string) (chunk_size step i : nat)
  : list string :=
  firstn chunk_size (skipn (i * step) words).

(** A word: not empty and free of whitespace. *)
Definition is_word (w : string) : Prop :=
  w <> EmptyString /\ forall c, List.In c (list_ascii_of_string w) -> is_space c = false.

End Chunking.

(** ** utils/similarity.py *)

Module Similarity.

(** A Python list found under ["vector"], or passed as the query, by what
    [np.asarray(v, dtype=float)] makes of it.  [Floats v] is a list of
    floats, which becomes the array of its elements.  Any other list holds
    an element that is not a float, so it is not empty: [Converted x rest]
    is one that the conversion accepts (its elements are ints, bools, [None]
    or texts that spell a number), with the array [x :: rest] it gives, of
    the length of the list; [Rejected e] is one on which the conversion
    raises [e] ([ValueError] for a text that spells no number, [TypeError]
    for a dict among the elements, [OverflowError] for an int beyond the
    range of the floats).  A list of lists of one length, which the
    conversion turns into an array of several dimensions, has no value
    here. *)
Inductive pylist : Type :=
  | Floats (v : list float)
  | Converted (x : float) (rest : list float)
  | Rejected (e : exn).

Definition np_asarray (v : pylist) : exn + list float :=
  match v with
  | Floats v => inr v
  | Converted x rest => inr (x :: rest)
  | Rejected e => inl e
  end.

(** [not v] for a list [v] *)
Definition is_empty (v : pylist) : bool :=
  match v with
  | Floats [] => true
  | _ => false
  end.

(** A value found under the key ["vector"] of a stored document. *)
Inductive pyvalue : Type :=
  | NotAList
  | AList (l : pylist).

(** A value found under the key ["content"]: a text, or a value of another
    type ([None], a number, a list, a dict). *)
Inductive pycontent : Type :=
  | Text (s : string)
  | NotText.

(** One element of the loaded vector store: any value that is not a dict,
    or a dict in which ["content"] and ["vector"] may be absent. *)
Record entry : Type := {
  entry_content : option pycontent;
  entry_vector : option pyvalue
}.

Inductive document : Type :=
  | NotADict
  | Dict (d : entry).

Record item : Type := {
  content : pycontent;
  vector : pylist;
  similarity : float
}.

(** What the module takes from numpy and from the interpreter.  Neither is
    code of the repository, and neither fixes its result in full: numpy does
    not say in which order [np.dot] adds the products, and [list.sort] says
    nothing of the order it leaves when a key is NaN.  Both are taken as
    functions of their arguments. *)
Class Runtime : Type := {
  (** [np.dot(a, b)] on two arrays of one length *)
  np_dot : list float -> list float -> float;
  (** [ranked.sort(key=lambda item: item["similarity"], reverse=True)] *)
  list_sort : list item -> list item
}.

(** Vocabulary for the ranking properties: [x] may stand before [y] in a
    descending arrangement; an item's score equals [s]; no score is NaN. *)
Definition sim_ge (x y : item) : Prop :=
  (similarity y <=? similarity x)%float = true.

Definition same_score (s : float) (x : item) : bool :=
  (similarity x =? s)%float.

Definition no_nan (l : list item) : Prop :=
  Forall (fun it => PrimFloat.is_nan (similarity it) = false) l.

(** The clause [except (ValueError, TypeError)]. *)
Definition caught (e : exn) : bool :=
  match e with
  | ValueError _ | TypeError _ => true
  | _ => false
  end.

Section WithRuntime.
Context `{R : Runtime}.

(** What the interpreter promises of [list.sort] with [reverse=True]: the
    result is a rearrangement of the list; when the keys are ordered by [<],
    that is when none is NaN, it is in descending order and items with equal
    keys keep their order. *)
Record sort_contract : Prop := {
  sort_perm : forall l, list_sort l ≡ₚ l;
  sort_sorted : forall l, no_nan l -> StronglySorted sim_ge (list_sort l);
  sort_stable : forall l s,
      no_nan l ->
      List.filter (same_score s) (list_sort l) = List.filter (same_score s) l
}.

(** [np.linalg.norm]: the square root of the array's product with itself. *)
Definition np_norm (a : list float) : float := PrimFloat.sqrt (np_dot a a).

Definition cosine_similarity (vec1 vec2 : pylist) : exn + float :=
  match np_asarray vec1 with
  | inl e => inl e
  | inr a =>
      match np_asarray vec2 with
      | inl e => inl e
      | inr b =>
          if (length a =? 0)%nat || (length b =? 0)%nat then inr 0%float
          else if negb (length a =? length b)%nat then
            inl (ValueError "vec1 and vec2 must have the same dimensions")
          else
            let denominator := (np_norm a * np_norm b)%float in
            if (denominator =? 0)%float then inr 0%float
            else inr (np_dot a b / denominator)%float
      end
  end.

(** One iteration of the loop over [documents]: [inr None] is [continue],
    [inr (Some it)] is [ranked.append(it)], and [inl e] is an exception that
    the [except] clause does not catch, which ends the call. *)
Definition visit (query_vector : pylist) (threshold : float)
           (doc : document) : exn + option item :=
  match doc with
  | NotADict => inr None
  | Dict d =>
      match entry_vector d with
      | Some (AList vector) =>
          if is_empty vector then inr None
          else match cosine_similarity query_vector vector with
               | inl e => if caught e then inr None else inl e
               | inr score =>
                   if (score <? threshold)%float then inr None
                   else inr (Some {| content :=
                                       default (Text "") (entry_content d);
                                     vector := vector;
                                     similarity := score |})
               end
      | _ => inr None
      end
  end.

(** The loop over [documents], with the list [ranked] built so far. *)
Fixpoint scan (query_vector : pylist) (threshold : float)
         (documents : list document) (ranked : list item)
  : exn + list item :=
  match documents with
  | [] => inr ranked
  | doc :: rest =>
      match visit query_vector threshold doc with
      | inl e => inl e
      | inr None => scan query_vector threshold rest ranked
      | inr (Some it) =>
          scan query_vector threshold rest (ranked ++ [it])
      end
  end.

Definition retrieve_top_k (query_vector : pylist) (documents : list document)
           (k : Z) (threshold : float) : exn + list item :=
  if k <=? 0 then inr []
  else
    match documents with
    | [] => inr []
    | _ :: _ =>
        match scan query_vector threshold documents [] with
        | inl e => inl e
        | inr ranked => inr (firstn (Z.to_nat k) (list_sort ranked))
        end
    end.

(** The loop goes on after the entry: it adds an item or passes over it. *)
Definition goes_on (query_vector : pylist) (threshold : float)
           (doc : document) : Prop :=
  exists o, visit query_vector threshold doc = inr o.

(** The item an entry adds to the list, if it adds one. *)
Definition kept (query_vector : pylist) (threshold : float)
           (doc : document) : option item :=
  match visit query_vector threshold doc with
  | inr (Some it) => Some it
  | _ => None
  end.

(** The items of the entries that add one, in the order of the entries. *)
Definition survivors (query_vector : pylist) (threshold : float)
           (documents : list document) : list item :=
  omap (kept query_vector threshold) documents.

(** The entries the loop passes over: not a dict; no ["vector"] key; a
    vector that is not a list; an empty list; a list on which the similarity
    computation raises an exception that the [except] clause catches. *)
Inductive skipped (query_vector : pylist) : document -> Prop :=
  | skipped_not_dict : skipped query_vector NotADict
  | skipped_missing e :
      entry_vector e = None -> skipped query_vector (Dict e)
  | skipped_not_list e :
      entry_vector e = Some NotAList -> skipped query_vector (Dict e)
  | skipped_empty e :
      entry_vector e = Some (AList (Floats [])) ->
      skipped query_vector (Dict e)
  | skipped_raises e v ex :
      entry_vector e = Some (AList v) ->
      cosine_similarity query_vector v = inl ex ->
      caught ex = true ->
      skipped query_vector (Dict e).

End WithRuntime.

(** A dict entry with both keys present, a text as content and a list of
    floats as vector. *)
Definition float_doc (c : string) (v : list float) : document :=
  Dict {| entry_content := Some (Text c);
          entry_vector := Some (AList (Floats v)) |}.

(** *** A runtime to compute with

    The product accumulated from the left, and the stable descending
    arrangement computed by insertion, which compares keys with [<] only. *)
Definition dot_from_left (a b : list float) : float :=
  fold_left (fun acc xy => (acc + fst xy * snd xy)%float) (combine a b) 0%float.

Fixpoint insert_desc (x : item) (l : list item) : list item :=
  match l with
  | [] => [x]
  | y :: l' =>
      if (similarity x <? similarity y)%float then y :: insert_desc x l'
      else x :: l
  end.

Definition sort_desc (l : list item) : list item :=
  fold_right insert_desc [] l.

#[global] Instance reference_runtime : Runtime :=
  {| np_dot := dot_from_left; list_sort := sort_desc |}.

End Similarity.

(** ** routes/chat.py *)

Module Chat.
Import PyStr Similarity.

Definition RETRIEVAL_TOP_K : Z := 3.
Definition SIMILARITY_THRESHOLD : float := 0.7%float.
Definition MAX_SESSION_MESSAGES : Z := 5.
Definition NO_CONTEXT_FALLBACK : string := "I don't know".

(** The newline character as a string. *)
Definition LF : string := String "010"%char EmptyString.

(** *** Session memory

    [session_memory] is a global dict from session ids to list objects; a list
    object holds references to message dicts.  Objects live in a heap and are
    named by locations, so that two names of one list see each other's
    appends and a copy does not. *)

Abbreviation loc := nat (only parsing).

Inductive object : Type :=
  | ListObj (items : list loc)
  | DictObj (d : gmap string string).

Record memory : Type := {
  objects : gmap loc object;
  next_loc : loc;
  session_memory : gmap string loc
}.

Definition empty_memory : memory :=
  {| objects := ∅; next_loc := 0%nat; session_memory := ∅ |}.

(** A new object at a location no object has. *)
Definition alloc (o : object) (s : memory) : loc * memory :=
  (next_loc s,
   {| objects := <[next_loc s := o]> (objects s);
      next_loc := S (next_loc s);
      session_memory := session_memory s |}).

(** In-place update of the object at [l]. *)
Definition store (l : loc) (o : object) (s : memory) : memory :=
  {| objects := <[l := o]> (objects s);
     next_loc := next_loc s;
     session_memory := session_memory s |}.

(** [session_memory[session_id] = l] *)
Definition bind_session (session_id : string) (l : loc) (s : memory) : memory :=
  {| objects := objects s;
     next_loc := next_loc s;
     session_memory := <[session_id := l]> (session_memory s) |}.

Definition list_items (s : memory) (l : loc) : list loc :=
  match objects s !! l with
  | Some (ListObj items) => items
  | _ => []
  end.

Definition dict_at (s : memory) (l : loc) : gmap string string :=
  match objects s !! l with
  | Some (DictObj d) => d
  | _ => ∅
  end.

(** [session_memory.setdefault(session_id, [])] *)
Definition setdefault (session_id : string) (s : memory) : loc * memory :=
  match session_memory s !! session_id with
  | Some l => (l, s)
  | None =>
      let '(l, s1) := alloc (ListObj []) s in
      (l, bind_session session_id l s1)
  end.

Definition add_message (session_id role content : string) (s : memory)
  : memory :=
  if negb (String.eqb role "user" || String.eqb role "assistant") then s
  else
    let cleaned := strip content in
    match cleaned with
    | EmptyString => s
    | String _ _ =>
        let '(messages, s1) := setdefault session_id s in
        let '(m, s2) :=
          alloc (DictObj {[ "role" := role; "content" := cleaned ]}) s1 in
        let items := (list_items s2 messages ++ [m])%list in
        let s3 := store messages (ListObj items) s2 in
        if Z.of_nat (length items) >? MAX_SESSION_MESSAGES then
          let '(kept, s4) :=
            alloc (ListObj (last_n (Z.to_nat MAX_SESSION_MESSAGES) items)) s3 in
          bind_session session_id kept s4
        else s3
    end.

(** [[message.copy() for message in ms]] *)
Fixpoint copy_all (ms : list loc) (s : memory) : list loc * memory :=
  match ms with
  | [] => ([], s)
  | m :: ms' =>
      let '(c, s1) := alloc (DictObj (dict_at s m)) s in
      let '(cs, s2) := copy_all ms' s1 in
      (c :: cs, s2)
  end.

(** Returns the location of the new list. *)
Definition get_recent_messages (session_id : string) (limit : Z) (s : memory)
  : loc * memory :=
  if limit <=? 0 then alloc (ListObj []) s
  else
    let '(messages, s1) := setdefault session_id s in
    let '(copies, s2) :=
      copy_all (last_n (Z.to_nat limit) (list_items s1 messages)) s1 in
    alloc (ListObj copies) s2.

(** The list at [l] as a value: the dicts its items refer to. *)
Definition read (s : memory) (l : loc) : list (gmap string string) :=
  map (dict_at s) (list_items s l).

(** The log of a session as a value; [None] when the id is not a key of
    [session_memory]. *)
Definition log (s : memory) (session_id : string)
  : option (list (gmap string string)) :=
  read s <$> session_memory s !! session_id.

(** *** Prompt *)

(** One iteration of the loop of [_format_history]: [None] is [continue]. *)
Definition format_line (message : gmap string string) : option string :=
  let role := default "user" (message !! "role") in
  let content := strip (default "" (message !! "content")) in
  match content with
  | EmptyString => None
  | String _ _ =>
      let speaker :=
        if String.eqb role "assistant" then "Assistant" else "User" in
      Some (speaker +:+ ": " +:+ content)
  end.

Definition _format_history (history : list (gmap string string)) : string :=
  match history with
  | [] => "No prior history."
  | _ :: _ =>
      match omap format_line history with
      | [] => "No prior history."
      | formatted_lines => join LF formatted_lines
      end
  end.

(** The contents as [join] takes them: it raises [TypeError] at the first
    one that is not a text.  The message of the interpreter also names the
    position and the type of that element; they are left out here. *)
Fixpoint texts (retrieved_chunks : list item) : exn + list string :=
  match retrieved_chunks with
  | [] => inr []
  | chunk :: rest =>
      match content chunk with
      | NotText => inl (TypeError "sequence item: expected str instance")
      | Text s =>
          match texts rest with
          | inl e => inl e
          | inr ts => inr (s :: ts)
          end
      end
  end.

Definition _build_prompt (question : string) (retrieved_chunks : list item)
           (history : list (gmap string string)) : exn + string :=
  match texts retrieved_chunks with
  | inl e => inl e
  | inr contents =>
      let top_chunks := join (LF +:+ LF) contents in
      let formatted_history := _format_history history in
      inr ("You are a helpful AI assistant." +:+ LF +:+ LF
           +:+ "STRICT RULES:" +:+ LF
           +:+ "- Answer ONLY from provided context" +:+ LF
           +:+ "- Chat history is only for continuity" +:+ LF
           +:+ "- If answer not found -> say 'I don't know'" +:+ LF +:+ LF
           +:+ "CONTEXT:" +:+ LF
           +:+ top_chunks +:+ LF +:+ LF
           +:+ "CHAT HISTORY:" +:+ LF
           +:+ formatted_history +:+ LF +:+ LF
           +:+ "USER QUESTION:" +:+ LF
           +:+ question +:+ LF +:+ LF
           +:+ "ANSWER:")
  end.

(** *** The vector store file *)

(** What is at [VECTOR_STORE_PATH]: nothing, a file that cannot be opened
    or read, with the message of the [OSError] that the attempt raises, text
    that [json.load] refuses, a JSON value that is not a list, or a list of
    entries. *)
Inductive store_file : Type :=
  | NoFile
  | Unreadable (msg : string)
  | BadJson
  | NotAListJson
  | Entries (data : list document).

Inductive load_error : Type :=
  | FileNotFoundError
  | OtherOSError (msg : string)
  | JSONDecodeError
  | LoadValueError.

Definition _load_vector_store (file : store_file)
  : load_error + list document :=
  match file with
  | NoFile => inl FileNotFoundError
  | Unreadable msg => inl (OtherOSError msg)
  | BadJson => inl JSONDecodeError
  | NotAListJson => inl LoadValueError
  | Entries data => inr data
  end.

(** *** The handler *)

Record ChatRequest : Type := {
  sessionId : option string;
  message : option string
}.

Record ChatResponse : Type := {
  reply : string;
  retrievedChunks : Z
}.

(** How a request fails: [HTTP status detail] is an [HTTPException] that the
    handler raises, which [http_exception_handler] answers with its status;
    [Uncaught e] is another exception, which no handler of the application
    catches and the server answers with status 500. *)
Inductive failure : Type :=
  | HTTP (status_code : Z) (detail : string)
  | Uncaught (e : exn).

(** The three outcomes of [_call_gemini_llm]. *)
Inductive llm_result : Type :=
  | Generated (text : string)
  | GeminiTimeoutError (detail : string)
  | GeminiAPIError (detail : string).

(** What lies outside the process during one request: the embedding
    provider, the store file and the generator. *)
Record world : Type := {
  get_query_embedding : string -> list float;
  vector_store : store_file;
  _call_gemini_llm : string -> llm_result
}.

(** The outcome of a request: the response or the failure, the memory
    afterwards, and the prompts that were passed to [_call_gemini_llm]. *)
Record outcome : Type := {
  response : failure + ChatResponse;
  memory_after : memory;
  llm_calls : list string
}.

Section WithRuntime.
Context `{R : Runtime}.

Definition chat (w : world) (request : ChatRequest) (s : memory) : outcome :=
  let session_id := strip (default "" (sessionId request)) in
  let message := strip (default "" (message request)) in
  match session_id, message with
  | EmptyString, _ =>
      {| response := inl (HTTP 400 "sessionId is required.");
         memory_after := s; llm_calls := [] |}
  | _, EmptyString =>
      {| response := inl (HTTP 400 "message cannot be empty.");
         memory_after := s; llm_calls := [] |}
  | _, _ =>
      let '(_, s1) := setdefault session_id s in
      let s2 := add_message session_id "user" message s1 in
      let '(history, s3) :=
        get_recent_messages session_id MAX_SESSION_MESSAGES s2 in
      let query_vector := get_query_embedding w message in
      match query_vector with
      | [] =>
          {| response :=
               inl (HTTP 502
                      "Gemini API failure while generating query embedding.");
             memory_after := s3; llm_calls := [] |}
      | _ :: _ =>
          match _load_vector_store (vector_store w) with
          | inl (OtherOSError msg) =>
              {| response := inl (Uncaught (OSError msg));
                 memory_after := s3; llm_calls := [] |}
          | inl _ =>
              {| response :=
                   inl (HTTP 500 "Vector store is unavailable.");
                 memory_after := s3; llm_calls := [] |}
          | inr documents =>
              match retrieve_top_k (Floats query_vector) documents
                      RETRIEVAL_TOP_K SIMILARITY_THRESHOLD with
              | inl e =>
                  {| response := inl (Uncaught e);
                     memory_after := s3; llm_calls := [] |}
              | inr [] =>
                  let s4 :=
                    add_message session_id "assistant" NO_CONTEXT_FALLBACK s3 in
                  {| response :=
                       inr {| reply := NO_CONTEXT_FALLBACK;
                              retrievedChunks := 0 |};
                     memory_after := s4; llm_calls := [] |}
              | inr retrieved =>
                  match _build_prompt message retrieved (read s3 history) with
                  | inl e =>
                      {| response := inl (Uncaught e);
                         memory_after := s3; llm_calls := [] |}
                  | inr prompt =>
                      match _call_gemini_llm w prompt with
                      | GeminiTimeoutError detail =>
                          {| response := inl (HTTP 504 detail);
                             memory_after := s3; llm_calls := [prompt] |}
                      | GeminiAPIError detail =>
                          {| response := inl (HTTP 502 detail);
                             memory_after := s3; llm_calls := [prompt] |}
                      | Generated reply =>
                          let s4 :=
                            add_message session_id "assistant" reply s3 in
                          {| response :=
                               inr {| reply := reply;
                                      retrievedChunks :=
                                        Z.of_nat (length retrieved) |};
                             memory_after := s4; llm_calls := [prompt] |}
                      end
                  end
              end
          end
      end
  end.

End WithRuntime.

(** *** Vocabulary for the session properties *)

(** The dict [{"role": role, "content": content}]. *)
Definition session_message (role content : string) : gmap string string :=
  {[ "role" := role; "content" := content ]}.

Definition valid_role (role : string) : Prop :=
  role = "user" \/ role = "assistant".

(** Heaps the code can build: objects lie below the allocation pointer, lists
    hold references to dicts, every session is bound to a list, and no list
    is bound to two sessions. *)
Record wf (s : memory) : Prop := {
  wf_alloc : forall l o, objects s !! l = Some o -> (l < next_loc s)%nat;
  wf_closed : forall l items d,
      objects s !! l = Some (ListObj items) -> d ∈ items ->
      exists m, objects s !! d = Some (DictObj m);
  wf_session : forall sid l,
      session_memory s !! sid = Some l ->
      exists items, objects s !! l = Some (ListObj items);
  wf_inj : forall sid1 sid2 l,
      session_memory s !! sid1 = Some l ->
      session_memory s !! sid2 = Some l -> sid1 = sid2
}.

(** An allocated object that is not the list of any session. *)
Definition detached (s : memory) (l : loc) : Prop :=
  (l < next_loc s)%nat /\ forall sid, session_memory s !! sid <> Some l.

(** What a call on session [sid] may change from [s] to [s']: it allocates,
    it never changes a dict, it changes no allocated object but the list of
    [sid], it leaves the other sessions bound as they were, and it binds
    [sid] to its old list or to a new one. *)
Definition frame (sid : string) (s s' : memory) : Prop :=
  (next_loc s <= next_loc s')%nat
  /\ (forall d m, objects s !! d = Some (DictObj m) ->
                  objects s' !! d = Some (DictObj m))
  /\ (forall l, (l < next_loc s)%nat -> session_memory s !! sid <> Some l ->
                objects s' !! l = objects s !! l)
  /\ (forall sid', sid' <> sid ->
                   session_memory s' !! sid' = session_memory s !! sid')
  /\ (forall l, session_memory s' !! sid = Some l ->
                session_memory s !! sid = Some l \/ (next_loc s <= l)%nat).

(** The logs respect the cap. *)
Definition capped (s : memory) : Prop :=
  forall sid l, log s sid = Some l ->
                (Z.of_nat (length l) <= MAX_SESSION_MESSAGES).

(** The calls through which the module touches session memory. *)
Inductive call : Type :=
  | Add (session_id role content : string)
  | Recent (session_id : string) (limit : Z)
  | Register (session_id : string).

Definition exec (c : call) (s : memory) : memory :=
  match c with
  | Add session_id role content => add_message session_id role content s
  | Recent session_id limit => snd (get_recent_messages session_id limit s)
  | Register session_id => snd (setdefault session_id s)
  end.

Definition run (cs : list call) (s : memory) : memory :=
  fold_left (fun s c => exec c s) cs s.

(** *** Vocabulary for the prompt properties *)

(** The instruction text that opens every prompt. *)
Definition PREAMBLE : string :=
  "You are a helpful AI assistant." +:+ LF +:+ LF
  +:+ "STRICT RULES:" +:+ LF
  +:+ "- Answer ONLY from provided context" +:+ LF
  +:+ "- Chat history is only for continuity" +:+ LF
  +:+ "- If answer not found -> say 'I don't know'" +:+ LF +:+ LF
  +:+ "CONTEXT:" +:+ LF.

Definition message_role (m : gmap string string) : string :=
  default "user" (m !! "role").

Definition message_content (m : gmap string string) : string :=
  default "" (m !! "content").

(** A message whose content is empty after stripping. *)
Definition is_blank (m : gmap string string) : bool :=
  match strip (message_content m) with
  | EmptyString => true
  | String _ _ => false
  end.

(** The line ["User: <content>"] or ["Assistant: <content>"] of a message. *)
Definition rendered (m : gmap string string) : string :=
  (if String.eqb (message_role m) "assistant" then "Assistant" else "User")
  +:+ ": " +:+ strip (message_content m).

(** *** Vocabulary for the handler properties *)

(** The session id and the question of a request, as the handler takes
    them. *)
Definition session_of (request : ChatRequest) : string :=
  strip (default "" (sessionId request)).

Definition question_of (request : ChatRequest) : string :=
  strip (default "" (message request)).

(** The history the handler reads after it has appended the question to a
    session whose log was [old]. *)
Definition history_with (old : list (gmap string string)) (question : string)
  : list (gmap string string) :=
  last_n (Z.to_nat MAX_SESSION_MESSAGES)
         (old ++ [session_message "user" question]).

(** A message [(role, content)] that [add_message] accepts, and the dict it
    stores for it. *)
Definition accepted (rc : string * string) : Prop :=
  valid_role (fst rc) /\ strip (snd rc) <> EmptyString.

Definition stored (rc : string * string) : gmap string string :=
  session_message (fst rc) (strip (snd rc)).

(** Appending the messages [rcs] to one session, first to last. *)
Definition add_messages (session_id : string) (rcs : list (string * string))
           (s : memory) : memory :=
  fold_left (fun s rc => add_message session_id (fst rc) (snd rc) s) rcs s.

End Chat.

(** ** Concrete inputs used in examples *)

Module Examples.
Import Similarity.

(** Three stored entries whose similarities to [q5] are 0.6, 0.9 and 0.75. *)
Definition q5 : pylist := Floats [1; 0; 0; 0; 0]%float.
Definition docs3 : list document :=
  [ float_doc "a" [3; 4; 0; 0; 0]%float;
    float_doc "b" [9; 3; 3; 1; 0]%float;
    float_doc "c" [3; 2; 1; 1; 1]%float ].




(** An entry whose vector holds an int beyond the range of the floats, on
    which the conversion raises [OverflowError], and an entry whose vector
    is the list of the texts ["1"] and ["0"], which the conversion accepts. *)
Definition overflowing : document :=
  Dict {| entry_content := Some (Text "big");
          entry_vector :=
            Some (AList (Rejected
                           (OverflowError
                              "int too large to convert to float"))) |}.

Definition numeric_texts : document :=
  Dict {| entry_content := Some (Text "texts");
          entry_vector := Some (AList (Converted 1 [0]%float)) |}.

(** An entry whose content is [None]. *)
Definition no_text : document :=
  Dict {| entry_content := Some NotText;
          entry_vector := Some (AList (Floats [1; 0; 0; 0; 0]%float)) |}.

(** A world whose only stored entry is orthogonal to every query embedding,
    and one whose entries are [docs3]; a request; a session at the cap. *)
Definition world_far : Chat.world :=
  {| Chat.get_query_embedding := fun _ => [1; 0; 0; 0; 0]%float;
     Chat.vector_store := Chat.Entries [float_doc "z" [0; 1; 0; 0; 0]%float];
     Chat._call_gemini_llm := fun _ => Chat.Generated "unused" |}.

Definition world_near : Chat.world :=
  {| Chat.get_query_embedding := fun _ => [1; 0; 0; 0; 0]%float;
     Chat.vector_store := Chat.Entries docs3;
     Chat._call_gemini_llm := fun _ => Chat.Generated "an answer" |}.


Definition world_overflow : Chat.world :=
  {| Chat.get_query_embedding := fun _ => [1; 0; 0; 0; 0]%float;
     Chat.vector_store := Chat.Entries (docs3 ++ [overflowing]);
     Chat._call_gemini_llm := fun _ => Chat.Generated "unused" |}.

Definition request_hello : Chat.ChatRequest :=
  {| Chat.sessionId := Some "s1"; Chat.message := Some " hello " |}.

Definition five : list (string * string) :=
  [("user", "1"); ("assistant", "2"); ("user", "3"); ("assistant", "4");
   ("user", "5")].

Definition memory_at_cap : Chat.memory :=
  Chat.add_messages "s1" five Chat.empty_memory.

End Examples.

(** ** More Python string primitives *)

Module PyText.
Import PyStr.

(** [c.lower()] on one character, for code points below 256: the ASCII
    capitals and the Latin-1 capitals (all of 192..222 but the
    multiplication sign 215) move up by 32. *)
Definition lower_char (c : ascii) : ascii :=
  let n := N_of_ascii c in
  if (((65 <=? n) && (n <=? 90))
      || ((192 <=? n) && (n <=? 222) && negb (n =? 215)))%N
  then ascii_of_N (n + 32)
  else c.

(** [s.lower()] *)
Fixpoint lower (s : string) : string :=
  match s with
  | EmptyString => EmptyString
  | String c s' => String (lower_char c) (lower s')
  end.

(** [s.split(sep, 1)[1]] for an [s] that contains the character [sep]: what
    follows its first occurrence. *)
Fixpoint after_first (sep : ascii) (s : string) : string :=
  match s with
  | EmptyString => EmptyString
  | String c s' => if Ascii.eqb c sep then s' else after_first sep s'
  end.

(** [s.split(sep)] for a separator of one character: the pieces between the
    occurrences of [sep], empty pieces included. *)
Fixpoint split_on (sep : ascii) (s : string) : list string :=
  match s with
  | EmptyString => [EmptyString]
  | String c s' =>
      if Ascii.eqb c sep then EmptyString :: split_on sep s'
      else match split_on sep s' with
           | w :: ws => String c w :: ws
           | [] => [String c EmptyString]
           end
  end.

(** Vocabulary: a text that is not empty, does not start with whitespace and
    loses nothing to [rstrip]; a text without the character [sep]. *)
Definition trimmed (s : string) : Prop :=
  (exists c r, s = String c r /\ is_space c = false) /\ rstrip s = s.

Definition free_of (sep : ascii) (s : string) : Prop :=
  forall c, List.In c (list_ascii_of_string s) -> c <> sep.

Definition clean (sep : ascii) (s : string) : Prop :=
  trimmed s /\ free_of sep s.

End PyText.

(** ** routes/chat.py: the generator call *)

Module Llm.
Import PyStr PyText Chat.

Definition _normalize_model_name (model_name : string) : string :=
  let cleaned := strip model_name in
  if String.prefix "models/" cleaned then after_first "/" cleaned
  else cleaned.

(** The response object of the SDK as the code probes it: [text] and the
    [text] of a part are [None] when the attribute is absent or not a [str];
    a candidate is [None] when its [content.parts] is not a list, and
    [candidates] is [None] when it is not a list. *)
Record sdk_response : Type := {
  response_text : option string;
  response_candidates : option (list (option (list (option string))))
}.

(** [piece.strip()] when [piece] is a [str] that is not blank. *)
Definition stripped_text (piece : option string) : option string :=
  match piece with
  | Some t =>
      match strip t with
      | EmptyString => None
      | String c r => Some (String c r)
      end
  | None => None
  end.

(** The [text_segments] the two loops collect. *)
Definition text_segments (candidates : list (option (list (option string))))
  : list string :=
  flat_map (fun candidate =>
              match candidate with
              | Some parts => omap stripped_text parts
              | None => []
              end) candidates.

Definition _extract_reply (response : sdk_response) : string :=
  match stripped_text (response_text response) with
  | Some text => text
  | None =>
      match response_candidates response with
      | None => EmptyString
      | Some candidates => strip (join LF (text_segments candidates))
      end
  end.

(** An exception of [generate_content]: whether it is an [APIError] of the
    SDK, its [status] attribute when that compares equal to an integer, and
    [str(exc)]. *)
Record sdk_error : Type := {
  is_api_error : bool;
  status : option Z;
  error_text : string
}.

Inductive sdk_outcome : Type :=
  | Returned (response : sdk_response)
  | Raised (exc : sdk_error).

(** [_call_gemini_llm]; [client_failure] is the message of the
    [GeminiAPIError] that [_get_genai_client] raises, if it raises, and
    [generate_content] is the SDK call. *)
Definition call_gemini_llm (client_failure : option string)
           (generate_content : string -> sdk_outcome) (prompt : string)
  : llm_result :=
  match client_failure with
  | Some failure => GeminiAPIError failure
  | None =>
      match generate_content prompt with
      | Raised exc =>
          let message := error_text exc in
          if is_api_error exc then
            match status exc with
            | Some 408 | Some 504 =>
                GeminiTimeoutError "Gemini API request timed out."
            | _ => GeminiAPIError ("Gemini API failure: " +:+ message)
            end
          else if mentions "timeout" (lower message)
                  || mentions "deadline" (lower message) then
            GeminiTimeoutError "Gemini API request timed out."
          else GeminiAPIError ("Gemini API failure: " +:+ message)
      | Returned response =>
          match _extract_reply response with
          | EmptyString =>
              GeminiAPIError "Gemini API returned an empty response."
          | String c r => Generated (String c r)
          end
      end
  end.

(** A world whose generator is [_call_gemini_llm] over an SDK. *)
Definition world_with_sdk (get_query_embedding : string -> list float)
           (vector_store : store_file) (client_failure : option string)
           (generate_content : string -> sdk_outcome) : world :=
  {| Chat.get_query_embedding := get_query_embedding;
     Chat.vector_store := vector_store;
     Chat._call_gemini_llm :=
       call_gemini_llm client_failure generate_content |}.

End Llm.

(** ** scripts/ingest.py *)

Module Ingest.
Import PyStr Chunking Similarity.

(** The value under ["content"] of an input document. *)
Inductive content_value : Type :=
  | NotAStr
  | Str (s : string).

(** An input document: not a dict, or a dict whose ["content"] may be
    absent.  Its ["id"] and ["title"] only go to the log. *)
Inductive input_doc : Type :=
  | NotAnObject
  | Object (content : option content_value).

(** The content the loop passes to [chunk_text]; [None] is [continue]. *)
Definition usable_content (doc : input_doc) : option string :=
  match doc with
  | NotAnObject => None
  | Object content =>
      match default (Str EmptyString) content with
      | NotAStr => None
      | Str text =>
          match strip text with
          | EmptyString => None
          | String _ _ => Some text
          end
      end
  end.

(** The loop over the chunks of one document.  [get_embedding] calls a
    remote service: [get_embedding n chunk] is the answer to call number [n]
    of the run, made on [chunk]; one entry is appended per call, so the
    number of the next call is the length of the store. *)
Fixpoint embed_chunks (get_embedding : nat -> string -> list float)
         (chunks : list string) (vector_store : list document)
  : list document :=
  match chunks with
  | [] => vector_store
  | chunk :: rest =>
      let vector := get_embedding (length vector_store) chunk in
      embed_chunks get_embedding rest
        (vector_store ++ [float_doc chunk vector])
  end.

(** The loop over [docs], with the store built so far. *)
Fixpoint build_loop (get_embedding : nat -> string -> list float)
         (chunk_size overlap : Z) (docs : list input_doc)
         (vector_store : list document) : exn + list document :=
  match docs with
  | [] => inr vector_store
  | doc :: rest =>
      match usable_content doc with
      | None => build_loop get_embedding chunk_size overlap rest vector_store
      | Some content =>
          match chunk_text content chunk_size overlap with
          | inl e => inl e
          | inr chunks =>
              build_loop get_embedding chunk_size overlap rest
                (embed_chunks get_embedding chunks vector_store)
          end
      end
  end.

Definition build_vector_store (get_embedding : nat -> string -> list float)
           (docs : list input_doc) (chunk_size overlap : Z)
  : exn + list document :=
  build_loop get_embedding chunk_size overlap docs [].

(** Vocabulary: the chunks of the usable documents, in the order of the
    loop, for parameters that [chunk_text] accepts. *)
Definition all_chunks (docs : list input_doc) (chunk_size overlap : Z)
  : list string :=
  flat_map (fun doc =>
              match usable_content doc with
              | Some content =>
                  match chunk_text content chunk_size overlap with
                  | inr chunks => chunks
                  | inl _ => []
                  end
              | None => []
              end) docs.

(** Vocabulary: the chunks of a usable document. *)
Definition chunk_of (docs : list input_doc) (chunk_size overlap : Z)
           (chunk : string) : Prop :=
  exists doc content chunks,
    doc ∈ docs /\ usable_content doc = Some content
    /\ chunk_text content chunk_size overlap = inr chunks /\ chunk ∈ chunks.

End Ingest.

(** ** utils/config.py *)

Module Config.
Import PyStr PyText.

(** [Settings.cors_origins], from the value of [CORS_ORIGINS] in the
    environment ([None] when it is not set). *)
Definition cors_origins (CORS_ORIGINS : option string) : list string :=
  let origins := default "http://localhost:5173" CORS_ORIGINS in
  map strip
      (List.filter (fun origin => match strip origin with
                                  | EmptyString => false
                                  | String _ _ => true
                                  end)
                   (split_on "," origins)).

End Config.

(** ** main.py *)

Module Main.

(** An element of the location of a validation error. *)
Inductive loc_item : Type :=
  | LocStr (s : string)
  | LocInt (i : Z).

(** A validation error; [None] when it has no ["loc"]. *)
Record validation_error : Type := { loc : option (list loc_item) }.

(** [name in location] *)
Definition names (name : string) (location : list loc_item) : bool :=
  existsb (fun x => match x with
                    | LocStr s => String.eqb s name
                    | LocInt _ => false
                    end) location.

(** The status and the ["error"] text of the response. *)
Fixpoint validation_exception_handler (errors : list validation_error)
  : Z * string :=
  match errors with
  | [] => (422, "Invalid request payload.")
  | error :: rest =>
      let location := default [] (loc error) in
      if names "sessionId" location then (400, "sessionId is required.")
      else if names "message" location then (400, "message is required.")
      else validation_exception_handler rest
  end.

(** Vocabulary: the error names one of the two fields of the request. *)
Definition names_field (error : validation_error) : bool :=
  names "sessionId" (default [] (loc error))
  || names "message" (default [] (loc error)).

End Main.

(** ** More concrete inputs *)

Module SdkExamples.
Import Similarity.

(** A response without a usable [text], whose candidates hold two usable
    parts; a world whose SDK returns it. *)
Definition two_parts : Llm.sdk_response :=
  {| Llm.response_text := Some "  ";
     Llm.response_candidates :=
       Some [Some [Some " first "; None; Some ""]; None;
             Some [Some "second"]] |}.

Definition world_sdk : Chat.world :=
  Llm.world_with_sdk (fun _ => [1; 0; 0; 0; 0]%float)
    (Chat.Entries Examples.docs3) None (fun _ => Llm.Returned two_parts).

(** An SDK that fails with an error that is not an [APIError]. *)
Definition deadline_error : Llm.sdk_error :=
  {| Llm.is_api_error := false; Llm.status := None;
     Llm.error_text := "504 Deadline Exceeded" |}.

End SdkExamples.

Module IngestExamples.

(** Input documents of which only the last two have usable content, and an
    embedding service whose first call fails. *)
Definition docs : list Ingest.input_doc :=
  [ Ingest.NotAnObject; Ingest.Object None;
    Ingest.Object (Some Ingest.NotAStr);
    Ingest.Object (Some (Ingest.Str "  "));
    Ingest.Object (Some (Ingest.Str "x"));
    Ingest.Object (Some (Ingest.Str " y  z ")) ].

Definition get_embedding (n : nat) (chunk : string) : list float :=
  match n with
  | O => []
  | S _ => [1; 0]%float
  end.

End IngestExamples.

(* ===================================================================== *)
(** * Part II: properties                                                 *)
(* ===================================================================== *)

Example chunk_text_example :
  Chunking.chunk_text "a b c d e" 2 1 = inr ["a b"; "b c"; "c d"; "d e"].
Proof. reflexivity. Qed.

Example split_example :
  PyStr.split "  hello   big world " = ["hello"; "big"; "world"].
Proof. reflexivity. Qed.

(** ** Order facts on binary64 floats *)

Section SpecOrder.

Lemma SFcompare_antisym (x y : spec_float) :
  SFcompare y x = option_map CompOpp (SFcompare x y).
Proof.
  destruct x as [[]|[]| |[] m1 e1], y as [[]|[]| |[] m2 e2];
    simpl; try reflexivity;
    rewrite (Z.compare_antisym e1 e2); destruct (e1 ?= e2)%Z;
    simpl; try reflexivity;
    change (Pos.compare_cont Eq m2 m1) with (m2 ?= m1)%positive;
    change (Pos.compare_cont Eq m1 m2) with (m1 ?= m2)%positive;
    rewrite (Pos.compare_antisym m1 m2);
    destruct (m1 ?= m2)%positive; reflexivity.
Qed.

Lemma SFcompare_refl (x : spec_float) :
  x <> S754_nan -> SFcompare x x = Some Eq.
Proof.
  destruct x as [[]|[]| |[] m e]; simpl; try congruence; intros _;
    rewrite Z.compare_refl;
    change (Pos.compare_cont Eq m m) with (m ?= m)%positive;
    rewrite Pos.compare_refl; reflexivity.
Qed.

Lemma SFcompare_None (x y : spec_float) :
  SFcompare x y = None <-> x = S754_nan \/ y = S754_nan.
Proof.
  destruct x as [[]|[]| |[] m1 e1], y as [[]|[]| |[] m2 e2]; simpl;
    split; intros H; try discriminate; auto;
    destruct H as [H|H]; discriminate.
Qed.

Lemma SFleb_trans (x y z : spec_float) :
  SFleb x y = true -> SFleb y z = true -> SFleb x z = true.
Proof.
  unfold SFleb.
  destruct x as [[]|[]| |[] m1 e1], y as [[]|[]| |[] m2 e2],
           z as [[]|[]| |[] m3 e3];
    simpl; try reflexivity; try discriminate;
    change (Pos.compare_cont Eq) with Pos.compare;
    destruct (Z.compare_spec e1 e2), (Z.compare_spec e2 e3),
             (Z.compare_spec e1 e3);
    try reflexivity; try discriminate; try lia; subst;
    destruct (Pos.compare_spec m1 m2), (Pos.compare_spec m2 m3),
             (Pos.compare_spec m1 m3);
    simpl; try reflexivity; try discriminate; try lia.
Qed.

(** Two values equal to a third are not strictly ordered. *)
Lemma SFeqb_SFltb (s x y : spec_float) :
  SFeqb x s = true -> SFeqb y s = true -> SFltb x y = false.
Proof.
  unfold SFeqb, SFltb.
  destruct x as [[]|[]| |[] m1 e1], y as [[]|[]| |[] m2 e2],
           s as [[]|[]| |[] m3 e3];
    simpl; try reflexivity; try discriminate;
    change (Pos.compare_cont Eq) with Pos.compare;
    destruct (Z.compare_spec e1 e3), (Z.compare_spec e2 e3),
             (Z.compare_spec e1 e2);
    try reflexivity; try discriminate; try lia; subst;
    destruct (Pos.compare_spec m1 m3), (Pos.compare_spec m2 m3),
             (Pos.compare_spec m1 m2);
    simpl; try reflexivity; try discriminate; try lia.
Qed.

End SpecOrder.

Section FloatOrder.
Local Open Scope float_scope.

Lemma is_nan_false (x : float) :
  PrimFloat.is_nan x = false <-> Prim2SF x <> S754_nan.
Proof.
  unfold PrimFloat.is_nan. rewrite FloatAxioms.eqb_spec. unfold SFeqb. split.
  - intros H E. rewrite E in H. discriminate.
  - intros H. rewrite SFcompare_refl by assumption. reflexivity.
Qed.

Lemma ltb_true_leb (x y : float) : (x <? y) = true -> (x <=? y) = true.
Proof.
  rewrite FloatAxioms.ltb_spec, FloatAxioms.leb_spec. unfold SFltb, SFleb.
  destruct (SFcompare _ _) as [[]|]; congruence.
Qed.

Lemma ltb_false_leb (x y : float) :
  PrimFloat.is_nan x = false -> PrimFloat.is_nan y = false ->
  (x <? y) = false -> (y <=? x) = true.
Proof.
  rewrite !is_nan_false, FloatAxioms.ltb_spec, FloatAxioms.leb_spec. unfold SFltb, SFleb.
  intros Hx Hy. rewrite (SFcompare_antisym (Prim2SF x) (Prim2SF y)).
  destruct (SFcompare (Prim2SF x) (Prim2SF y)) as [[]|] eqn:E;
    simpl; try congruence.
  apply SFcompare_None in E. tauto.
Qed.

Lemma leb_trans (x y z : float) :
  (x <=? y) = true -> (y <=? z) = true -> (x <=? z) = true.
Proof. rewrite !FloatAxioms.leb_spec. apply SFleb_trans. Qed.

Lemma eqb_ltb_false (s x y : float) :
  (x =? s) = true -> (y =? s) = true -> (x <? y) = false.
Proof. rewrite !FloatAxioms.eqb_spec, FloatAxioms.ltb_spec. apply SFeqb_SFltb. Qed.


End FloatOrder.

(** ** Ranking: the stable descending sort and the retrieval loop *)

Section Ranking.
Import Similarity.
Local Open Scope float_scope.

Lemma insert_desc_perm (x : item) (l : list item) :
  insert_desc x l ≡ₚ x :: l.
Proof.
  induction l as [|y l IH]; simpl; [reflexivity|].
  destruct (similarity x <? similarity y); [|reflexivity].
  rewrite IH. apply Permutation_swap.
Qed.

Lemma sort_desc_perm (l : list item) : sort_desc l ≡ₚ l.
Proof.
  induction l as [|x l IH]; simpl; [reflexivity|].
  rewrite insert_desc_perm, IH. reflexivity.
Qed.

Lemma sort_desc_length (l : list item) : length (sort_desc l) = length l.
Proof. apply Permutation_length, sort_desc_perm. Qed.

Lemma insert_desc_sorted (x : item) (l : list item) :
  PrimFloat.is_nan (similarity x) = false ->
  Forall (fun y => PrimFloat.is_nan (similarity y) = false) l ->
  StronglySorted sim_ge l -> StronglySorted sim_ge (insert_desc x l).
Proof.
  intros Hx Hl Hs. induction Hs as [|y l Hs IH Hy]; simpl.
  - repeat constructor.
  - inversion Hl as [|? ? Hny Hnl]; subst.
    destruct (similarity x <? similarity y) eqn:E.
    + constructor; [auto|].
      rewrite insert_desc_perm. constructor; [|assumption].
      unfold sim_ge. now apply ltb_true_leb.
    + constructor; [constructor; assumption|].
      assert (Hyx : sim_ge x y) by (unfold sim_ge; now apply ltb_false_leb).
      constructor; [assumption|].
      eapply Forall_impl; [exact Hy|].
      intros z Hz. unfold sim_ge in *. eapply leb_trans; eassumption.
Qed.

Lemma sort_desc_sorted (l : list item) :
  Forall (fun y => PrimFloat.is_nan (similarity y) = false) l ->
  StronglySorted sim_ge (sort_desc l).
Proof.
  induction 1 as [|x l Hx Hl IH]; simpl; [constructor|].
  apply insert_desc_sorted; auto.
  rewrite sort_desc_perm. assumption.
Qed.

Lemma insert_desc_stable (s : float) (x : item) (l : list item) :
  List.filter (same_score s) (insert_desc x l)
  = List.filter (same_score s) (x :: l).
Proof.
  induction l as [|y l IH]; [reflexivity|].
  cbn [insert_desc]. destruct (similarity x <? similarity y) eqn:E;
    [|reflexivity].
  cbn [List.filter] in *. rewrite IH.
  destruct (same_score s x) eqn:Ex, (same_score s y) eqn:Ey; try reflexivity.
  unfold same_score in *.
  rewrite (eqb_ltb_false s _ _ Ex Ey) in E. discriminate.
Qed.

Lemma sort_desc_stable (s : float) (l : list item) :
  List.filter (same_score s) (sort_desc l) = List.filter (same_score s) l.
Proof.
  induction l as [|x l IH]; [reflexivity|].
  cbn [sort_desc fold_right]. fold (sort_desc l).
  rewrite insert_desc_stable. cbn [List.filter]. now rewrite IH.
Qed.



(** The arrangement by insertion meets the contract of [list.sort]. *)
Lemma reference_sort_contract : sort_contract (R := reference_runtime).
Proof.
  split.
  - exact sort_desc_perm.
  - exact sort_desc_sorted.
  - intros l s _. apply sort_desc_stable.
Qed.

End Ranking.

Section Retrieval.
Import Similarity.
Local Open Scope float_scope.

Lemma kept_Some `{R : Runtime} (q : pylist) (t : float) (d : document)
      (it : item) :
  kept q t d = Some it <-> visit q t d = inr (Some it).
Proof.
  unfold kept. destruct (visit q t d) as [e|[it'|]]; split; congruence.
Qed.

Lemma visit_Some `{R : Runtime} (q : pylist) (t : float) (d : document)
      (it : item) :
  visit q t d = inr (Some it) ->
  (similarity it <? t) = false /\
  exists e, d = Dict e /\ entry_vector e = Some (AList (vector it)) /\
            is_empty (vector it) = false /\
            cosine_similarity q (vector it) = inr (similarity it) /\
            content it = default (Text "") (entry_content e).
Proof.
  destruct d as [|e]; simpl; [discriminate|].
  destruct (entry_vector e) as [[|v]|] eqn:Ev; try discriminate.
  destruct (is_empty v) eqn:Hv; [discriminate|].
  destruct (cosine_similarity q v) as [x|score] eqn:Hc.
  { destruct (caught x); discriminate. }
  destruct (score <? t) eqn:Hlt; [discriminate|].
  intros [= <-]. simpl. split; [assumption|].
  exists e. repeat split; assumption.
Qed.


(** The entries that end the call. *)
Lemma visit_inl `{R : Runtime} (q : pylist) (t : float) (d : document)
      (ex : exn) :
  visit q t d = inl ex <->
  exists e v, d = Dict e /\ entry_vector e = Some (AList v)
              /\ is_empty v = false
              /\ cosine_similarity q v = inl ex /\ caught ex = false.
Proof.
  split.
  - destruct d as [|e]; simpl; [discriminate|].
    destruct (entry_vector e) as [[|v]|] eqn:Ev; try discriminate.
    destruct (is_empty v) eqn:Hv; [discriminate|].
    destruct (cosine_similarity q v) as [x|score] eqn:Hc.
    + destruct (caught x) eqn:Hx; [discriminate|]. intros [= <-].
      exists e, v. auto.
    + destruct (score <? t); discriminate.
  - intros (e & v & -> & Ev & Hv & Hc & Hx). simpl.
    rewrite Ev, Hv, Hc, Hx. reflexivity.
Qed.


Lemma survivors_cons `{R : Runtime} (q : pylist) (t : float) (d : document)
      (docs : list document) :
  survivors q t (d :: docs)
  = match kept q t d with
    | Some it => it :: survivors q t docs
    | None => survivors q t docs
    end.
Proof. reflexivity. Qed.

(** The loop: what it returns, and when it returns. *)
Lemma scan_returns `{R : Runtime} (q : pylist) (t : float)
      (docs : list document) (ranked r : list item) :
  scan q t docs ranked = inr r ->
  r = (ranked ++ survivors q t docs)%list /\ Forall (goes_on q t) docs.
Proof.
  revert ranked. induction docs as [|d docs IH]; intros ranked; cbn [scan].
  - intros [= <-]. rewrite app_nil_r. split; [reflexivity | constructor].
  - rewrite survivors_cons. unfold kept.
    destruct (visit q t d) as [e|[it|]] eqn:Hv; [discriminate| |];
      intros Hs; apply IH in Hs as [-> Hall].
    + rewrite <- app_assoc. split; [reflexivity|].
      constructor; [eexists; exact Hv | exact Hall].
    + split; [reflexivity|].
      constructor; [eexists; exact Hv | exact Hall].
Qed.

Lemma scan_total `{R : Runtime} (q : pylist) (t : float)
      (docs : list document) (ranked : list item) :
  Forall (goes_on q t) docs ->
  scan q t docs ranked = inr (ranked ++ survivors q t docs)%list.
Proof.
  intros Hall. revert ranked.
  induction Hall as [|d docs [o Ho] _ IH]; intros ranked.
  - cbn. now rewrite app_nil_r.
  - cbn [scan]. rewrite survivors_cons. unfold kept. rewrite Ho.
    destruct o as [it|]; rewrite IH;
      [now rewrite <- app_assoc | reflexivity].
Qed.




Lemma retrieve_top_k_unfold `{R : Runtime} (q : pylist) (docs : list document)
      (k : Z) (t : float) :
  retrieve_top_k q docs k t
  = if (k <=? 0)%Z then inr []
    else match docs with
         | [] => inr []
         | _ :: _ =>
             match scan q t docs [] with
             | inl e => inl e
             | inr ranked => inr (take (Z.to_nat k) (list_sort ranked))
             end
         end.
Proof. reflexivity. Qed.

Lemma list_sort_nil `{R : Runtime} (Hsort : sort_contract) : list_sort [] = [].
Proof. apply Permutation_nil. symmetry. apply (sort_perm Hsort). Qed.

(** With the contract of the sort, the guard on the empty list is the loop
    on no entry. *)
Lemma retrieve_top_k_scan `{R : Runtime} (Hsort : sort_contract) (q : pylist)
      (docs : list document) (k : Z) (t : float) :
  retrieve_top_k q docs k t
  = if (k <=? 0)%Z then inr []
    else match scan q t docs [] with
         | inl e => inl e
         | inr ranked => inr (take (Z.to_nat k) (list_sort ranked))
         end.
Proof.
  rewrite retrieve_top_k_unfold. destruct (k <=? 0)%Z; [reflexivity|].
  destruct docs as [|d docs]; [|reflexivity].
  cbn [scan]. now rewrite (list_sort_nil Hsort), take_nil.
Qed.

Lemma retrieve_top_k_inr `{R : Runtime} (Hsort : sort_contract) (q : pylist)
      (docs : list document) (k : Z) (t : float) (r : list item) :
  retrieve_top_k q docs k t = inr r ->
  r = (if (k <=? 0)%Z then []
       else take (Z.to_nat k) (list_sort (survivors q t docs)))
  /\ ((0 < k)%Z -> Forall (goes_on q t) docs).
Proof.
  rewrite (retrieve_top_k_scan Hsort). destruct (Z.leb_spec k 0) as [Hk|Hk].
  - intros [= <-]. split; [reflexivity | lia].
  - destruct (scan q t docs []) as [e|ranked] eqn:Hs; [discriminate|].
    intros [= <-]. apply scan_returns in Hs as [-> Hall].
    split; [reflexivity | auto].
Qed.

Lemma retrieve_top_k_total `{R : Runtime} (Hsort : sort_contract) (q : pylist)
      (docs : list document) (k : Z) (t : float) :
  Forall (goes_on q t) docs ->
  retrieve_top_k q docs k t
  = inr (if (k <=? 0)%Z then []
         else take (Z.to_nat k) (list_sort (survivors q t docs))).
Proof.
  intros Hall. rewrite (retrieve_top_k_scan Hsort).
  destruct (k <=? 0)%Z; [reflexivity|].
  now rewrite (scan_total q t docs [] Hall).
Qed.



Lemma retrieve_top_k_subseteq `{R : Runtime} (Hsort : sort_contract)
      (q : pylist) (docs : list document) (k : Z) (t : float)
      (r : list item) :
  retrieve_top_k q docs k t = inr r -> r ⊆ survivors q t docs.
Proof.
  intros Hr. apply (retrieve_top_k_inr Hsort) in Hr as [-> _].
  destruct (k <=? 0)%Z; [apply list_subseteq_nil|].
  etransitivity; [apply subseteq_take|].
  intros x. now rewrite (sort_perm Hsort).
Qed.



End Retrieval.

Section RetrievalClaims.
Import Similarity Examples.

Example docs3_scores :
  map (cosine_similarity q5)
      [Floats [3; 4; 0; 0; 0]; Floats [9; 3; 3; 1; 0]; Floats [3; 2; 1; 1; 1]]%float
  = [inr 0.6; inr 0.9; inr 0.75]%float.
Proof. vm_compute. reflexivity. Qed.




End RetrievalClaims.



(** ** Cosine similarity *)

Section Cosine.
Import Similarity.

Lemma Prim2SF_zero_eqb (x : float) :
  (x =? 0)%float = true <-> exists s, Prim2SF x = S754_zero s.
Proof.
  rewrite FloatAxioms.eqb_spec.
  change (Prim2SF 0%float) with (S754_zero false). unfold SFeqb.
  destruct (Prim2SF x) as [s|s| |s m e]; simpl; split;
    try discriminate; try (intros [? ?]; discriminate); eauto;
    destruct s; discriminate.
Qed.

Lemma is_finite_cases (y : float) :
  PrimFloat.is_finite y = true ->
  (exists s, Prim2SF y = S754_zero s)
  \/ (exists s m e, Prim2SF y = S754_finite s m e).
Proof.
  unfold PrimFloat.is_finite, PrimFloat.is_infinity.
  rewrite negb_true_iff, orb_false_iff, is_nan_false.
  rewrite FloatAxioms.eqb_spec, abs_spec.
  change (Prim2SF infinity) with (S754_infinity false).
  destruct (Prim2SF y) as [s|s| |s m e]; simpl; intros [Hn Hi];
    try discriminate; try congruence; eauto.
Qed.

(** A zero times a finite value is a zero. *)
Lemma mul_zero_finite (x y : float) :
  (x =? 0)%float = true -> PrimFloat.is_finite y = true ->
  (x * y =? 0)%float = true /\ (y * x =? 0)%float = true.
Proof.
  intros Hx Hy. apply Prim2SF_zero_eqb in Hx as [sx Hx].
  rewrite !Prim2SF_zero_eqb, !mul_spec, Hx. unfold SF64mul.
  destruct (is_finite_cases y Hy) as [[s ->]|(s & m & e & ->)]; simpl; eauto.
Qed.

Lemma cosine_similarity_floats `{R : Runtime} (a b : list float) :
  cosine_similarity (Floats a) (Floats b)
  = if (length a =? 0)%nat || (length b =? 0)%nat then inr 0%float
    else if negb (length a =? length b)%nat then
      inl (ValueError "vec1 and vec2 must have the same dimensions")
    else if (np_norm a * np_norm b =? 0)%float then inr 0%float
    else inr (np_dot a b / (np_norm a * np_norm b))%float.
Proof. reflexivity. Qed.

(** The call raises exactly when the lengths differ and neither vector is
    empty. *)
Lemma cosine_similarity_raises_iff `{R : Runtime} (a b : list float) :
  (exists e, cosine_similarity (Floats a) (Floats b) = inl e)
  <-> length a <> length b /\ a <> [] /\ b <> [].
Proof.
  rewrite cosine_similarity_floats.
  destruct a as [|x a'], b as [|y b']; simpl length;
    try (simpl; split; [intros [e [=]] | intros (_ & ? & ?); congruence]).
  cbn [Nat.eqb orb].
  destruct (Nat.eqb_spec (length a') (length b')) as [E|E]; cbn [negb].
  - split; [|intros (? & _); lia].
    destruct (_ =? _)%float; intros [e [=]].
  - split; [intros _; repeat split; try discriminate; lia | eauto].
Qed.

(** Lists that the conversion accepts are scored as the arrays it gives; a
    list that it refuses raises what the conversion raised. *)
Lemma cosine_similarity_arrays `{R : Runtime} (q v : pylist)
      (a b : list float) :
  np_asarray q = inr a -> np_asarray v = inr b ->
  cosine_similarity q v = cosine_similarity (Floats a) (Floats b).
Proof.
  intros Hq Hv. unfold cosine_similarity. simpl np_asarray.
  now rewrite Hq, Hv.
Qed.


(** What the call raises: what the conversion of the first list raised, or
    of the second, or the dimension error. *)
Lemma cosine_similarity_inl `{R : Runtime} (q v : pylist) (ex : exn) :
  cosine_similarity q v = inl ex ->
  np_asarray q = inl ex
  \/ (exists a, np_asarray q = inr a /\ np_asarray v = inl ex)
  \/ (exists a b, np_asarray q = inr a /\ np_asarray v = inr b
                  /\ length a <> length b /\ a <> [] /\ b <> []
                  /\ ex = ValueError
                            "vec1 and vec2 must have the same dimensions").
Proof.
  unfold cosine_similarity.
  destruct (np_asarray q) as [e|a] eqn:Hq; [intros [= <-]; now left|].
  destruct (np_asarray v) as [e|b] eqn:Hv;
    [intros [= <-]; right; left; eauto|].
  intros Hc. right. right. exists a, b.
  assert (Hex : exists e, cosine_similarity (Floats a) (Floats b) = inl e)
    by (exists ex; exact Hc).
  apply cosine_similarity_raises_iff in Hex as (Hl & Ha & Hb).
  repeat (split; [assumption || reflexivity|]).
  revert Hc. destruct (_ || _); [discriminate|].
  destruct (negb _); [now intros [= <-]|].
  cbv zeta. destruct (_ =? _)%float; discriminate.
Qed.

(** C4, counterexample.  A zero vector of length two against a vector of
    length three: the first norm is zero, yet the call raises instead of
    returning 0.0. *)
Lemma cosine_similarity_zero_norm_raises :
  (np_norm [0; 0] =? 0)%float = true
  /\ cosine_similarity (Floats [0; 0]%float) (Floats [1; 2; 3]%float)
     = inl (ValueError "vec1 and vec2 must have the same dimensions").
Proof. split; reflexivity. Qed.

(** A second way not to return 0.0 on a zero norm: the other norm
    overflows, the product of the norms is NaN and so is the result. *)
Example cosine_similarity_zero_times_infinite :
  (np_norm [0] =? 0)%float = true
  /\ exists s, cosine_similarity (Floats [0]%float) (Floats [1e200]%float) = inr s
               /\ PrimFloat.is_nan s = true.
Proof. split; [reflexivity|]. eexists. split; reflexivity. Qed.

(** C4 (amended).  [cosine_similarity] returns 0.0 when either vector is
    empty; it raises, with the dimension message, exactly when the lengths
    differ and neither vector is empty; for two non-empty vectors of one
    length it returns 0.0 when the product of the norms compares equal to
    zero, which is the case when one norm is zero and the other is finite.
    [cosine_similarity [1,2] [1,2,3]] raises and
    [cosine_similarity [] [1,2]] is 0.0. *)
Theorem cosine_similarity_cases `{R : Runtime} (a b : list float) :
  (a = [] \/ b = [] ->
     cosine_similarity (Floats a) (Floats b) = inr 0%float)
  /\ ((exists e, cosine_similarity (Floats a) (Floats b) = inl e)
      <-> length a <> length b /\ a <> [] /\ b <> [])
  /\ (forall e, cosine_similarity (Floats a) (Floats b) = inl e ->
        e = ValueError "vec1 and vec2 must have the same dimensions")
  /\ (length a = length b ->
      (np_norm a * np_norm b =? 0)%float = true ->
      cosine_similarity (Floats a) (Floats b) = inr 0%float)
  /\ (length a = length b ->
      ((np_norm a =? 0)%float = true /\ PrimFloat.is_finite (np_norm b) = true)
      \/ ((np_norm b =? 0)%float = true /\ PrimFloat.is_finite (np_norm a) = true) ->
      cosine_similarity (Floats a) (Floats b) = inr 0%float)
  /\ cosine_similarity (Floats [1; 2]%float) (Floats [1; 2; 3]%float)
     = inl (ValueError "vec1 and vec2 must have the same dimensions")
  /\ cosine_similarity (Floats []) (Floats [1; 2]%float) = inr 0%float.
Proof.
  assert (Hprod : length a = length b ->
                  (np_norm a * np_norm b =? 0)%float = true ->
                  cosine_similarity (Floats a) (Floats b) = inr 0%float).
  { intros Hl Hz. rewrite cosine_similarity_floats, Hl, Nat.eqb_refl, Hz.
    simpl. now destruct (_ || _). }
  assert (Hraise := cosine_similarity_raises_iff a b).
  split; [|split; [exact Hraise|]]; [|repeat apply conj].
  - intros [-> | ->]; rewrite cosine_similarity_floats; simpl;
      [reflexivity | now rewrite orb_true_r].
  - intros e. rewrite cosine_similarity_floats.
    destruct (_ || _); [discriminate|].
    destruct (negb _); [now intros [= <-]|].
    destruct (_ =? _)%float; discriminate.
  - exact Hprod.
  - intros Hl [[Hz Hf] | [Hz Hf]]; apply Hprod; auto;
      apply (mul_zero_finite _ _ Hz Hf).
  - reflexivity.
  - reflexivity.
Qed.

Lemma cosine_similarity_cases_witness :
  length [0; 0]%float = length [3; 4]%float
  /\ (np_norm [0; 0]%float =? 0)%float = true
  /\ PrimFloat.is_finite (np_norm [3; 4]%float) = true
  /\ cosine_similarity (Floats [0; 0]%float) (Floats [3; 4]%float)
     = inr 0%float.
Proof.
  assert (H1 : length [0; 0]%float = length [3; 4]%float) by reflexivity.
  assert (H2 : (np_norm [0; 0]%float =? 0)%float = true) by reflexivity.
  assert (H3 : PrimFloat.is_finite (np_norm [3; 4]%float) = true) by reflexivity.
  split; [exact H1|]. split; [exact H2|]. split; [exact H3|].
  destruct (cosine_similarity_cases [0; 0]%float [3; 4]%float)
    as (_ & _ & _ & _ & Hzero & _).
  apply Hzero; [exact H1 | left; split; assumption].
Defined.

End Cosine.

(** ** Entries that are passed over *)

Section Skipping.
Import Similarity.

Lemma visit_skipped `{R : Runtime} (q : pylist) (t : float) (d : document) :
  skipped q d -> visit q t d = inr None.
Proof.
  intros [|e He|e He|e He|e v ex He Hc Hx]; simpl; try rewrite He;
    try reflexivity.
  destruct (is_empty v); [reflexivity|]. now rewrite Hc, Hx.
Qed.


Lemma survivors_skipped `{R : Runtime} (q : pylist) (t : float)
      (pre post : list document) (bad : document) :
  skipped q bad ->
  survivors q t (pre ++ bad :: post) = survivors q t (pre ++ post).
Proof.
  intros Hbad. unfold survivors. rewrite !omap_app. f_equal.
  simpl. unfold kept. now rewrite (visit_skipped q t bad Hbad).
Qed.



(** Every entry is passed over, adds an item or ends the call; it ends the
    call exactly when the similarity computation raises an exception that
    the [except] clause does not catch. *)
Lemma visit_cases `{R : Runtime} (q : pylist) (t : float) (d : document) :
  skipped q d
  \/ (exists it, visit q t d = inr (Some it))
  \/ (exists s, visit q t d = inr None
                /\ exists e v, d = Dict e /\ entry_vector e = Some (AList v)
                               /\ cosine_similarity q v = inr s
                               /\ (s <? t)%float = true)
  \/ (exists ex, visit q t d = inl ex).
Proof.
  destruct d as [|e]; [left; constructor|].
  destruct (entry_vector e) as [[|v]|] eqn:Ev;
    [left; now apply skipped_not_list | | left; now apply skipped_missing].
  destruct (is_empty v) eqn:Hv.
  { left. destruct v as [[|x v]|x rest|ex]; try discriminate.
    now apply skipped_empty. }
  destruct (cosine_similarity q v) as [ex|s] eqn:Hc.
  - destruct (caught ex) eqn:Hx.
    + left. eapply skipped_raises; eassumption.
    + right. right. right. exists ex. apply visit_inl. exists e, v. auto.
  - destruct (s <? t)%float eqn:Hlt.
    + right. right. left. exists s. split; [|exists e, v; auto].
      simpl. now rewrite Ev, Hv, Hc, Hlt.
    + right. left. eexists. simpl. now rewrite Ev, Hv, Hc, Hlt.
Qed.




End Skipping.


(** ** Chunking: parameter validation *)

Section ChunkValidation.
Import PyStr Chunking.

Lemma chunk_text_bad_size (text : string) (chunk_size overlap : Z) :
  chunk_size <= 0 ->
  chunk_text text chunk_size overlap
  = inl (ValueError "chunk_size must be greater than 0").
Proof.
  intros H. unfold chunk_text. now rewrite (proj2 (Z.leb_le _ _) H).
Qed.

Lemma chunk_text_negative_overlap (text : string) (chunk_size overlap : Z) :
  0 < chunk_size -> overlap < 0 ->
  chunk_text text chunk_size overlap
  = inl (ValueError "overlap must be greater than or equal to 0").
Proof.
  intros Hc Ho. unfold chunk_text.
  rewrite (proj2 (Z.leb_gt _ _) Hc). now rewrite (proj2 (Z.ltb_lt _ _) Ho).
Qed.

Lemma chunk_text_large_overlap (text : string) (chunk_size overlap : Z) :
  0 < chunk_size -> 0 <= overlap -> overlap >= chunk_size ->
  chunk_text text chunk_size overlap
  = inl (ValueError "overlap must be smaller than chunk_size").
Proof.
  intros Hc Ho Hg. unfold chunk_text.
  rewrite (proj2 (Z.leb_gt _ _) Hc), (proj2 (Z.ltb_ge _ _) Ho).
  rewrite Z.geb_leb. rewrite (proj2 (Z.leb_le _ _)) by lia. reflexivity.
Qed.

Lemma chunk_text_valid (text : string) (chunk_size overlap : Z) :
  0 < chunk_size -> 0 <= overlap < chunk_size ->
  chunk_text text chunk_size overlap
  = inr (match split text with
         | [] => []
         | _ :: _ =>
             chunk_loop (split text) (Z.to_nat chunk_size)
               (range (length (split text)) (Z.to_nat (chunk_size - overlap)))
         end).
Proof.
  intros Hc Ho. unfold chunk_text.
  rewrite (proj2 (Z.leb_gt _ _) Hc), (proj2 (Z.ltb_ge _ _)) by lia.
  rewrite Z.geb_leb. rewrite (proj2 (Z.leb_gt _ _)) by lia.
  now destruct (split text).
Qed.

(** C7.  [chunk_text] raises a [ValueError] whose message names the offending
    parameter when [chunk_size <= 0], when [overlap < 0] and when
    [overlap >= chunk_size] (so for [chunk_size = 5], [overlap = 5]); it
    raises in no other case; with valid parameters a text without words gives
    the empty list, so [chunk_text "" 10 2 = []]. *)
Theorem chunk_text_validation (text : string) (chunk_size overlap : Z) :
  (chunk_size <= 0 ->
     exists msg, chunk_text text chunk_size overlap = inl (ValueError msg)
                 /\ mentions "chunk_size" msg = true)
  /\ (0 < chunk_size -> overlap < 0 \/ overlap >= chunk_size ->
     exists msg, chunk_text text chunk_size overlap = inl (ValueError msg)
                 /\ mentions "overlap" msg = true)
  /\ (chunk_size <= 0 \/ overlap < 0 \/ overlap >= chunk_size ->
      exists msg, chunk_text text chunk_size overlap = inl (ValueError msg))
  /\ ((exists e, chunk_text text chunk_size overlap = inl e) ->
      chunk_size <= 0 \/ overlap < 0 \/ overlap >= chunk_size)
  /\ chunk_text text 5 5
     = inl (ValueError "overlap must be smaller than chunk_size")
  /\ (0 < chunk_size -> 0 <= overlap < chunk_size -> split text = [] ->
      chunk_text text chunk_size overlap = inr [])
  /\ chunk_text "" 10 2 = inr [].
Proof.
  repeat apply conj.
  - intros H. rewrite chunk_text_bad_size by assumption.
    eexists. split; reflexivity.
  - intros Hc Ho. destruct (Z.lt_ge_cases overlap 0) as [Hn|Hn].
    + rewrite chunk_text_negative_overlap by assumption.
      eexists. split; reflexivity.
    + rewrite chunk_text_large_overlap by lia.
      eexists. split; reflexivity.
  - intros Hbad. destruct (Z.le_gt_cases chunk_size 0) as [Hc|Hc].
    + rewrite chunk_text_bad_size by assumption. eauto.
    + destruct (Z.lt_ge_cases overlap 0) as [Hn|Hn].
      * rewrite chunk_text_negative_overlap by assumption. eauto.
      * rewrite chunk_text_large_overlap by lia. eauto.
  - intros [e He].
    destruct (Z.le_gt_cases chunk_size 0) as [Hc|Hc]; [auto|].
    destruct (Z.lt_ge_cases overlap 0) as [Hn|Hn]; [auto|].
    destruct (Z.lt_ge_cases overlap chunk_size) as [Hg|Hg]; [|lia].
    rewrite chunk_text_valid in He by lia. discriminate.
  - reflexivity.
  - intros Hc Ho Hs. rewrite chunk_text_valid by assumption. now rewrite Hs.
  - reflexivity.
Qed.

Lemma chunk_text_validation_witness :
  0 < 5 /\ 5 >= 5
  /\ exists msg, chunk_text "a b c" 5 5 = inl (ValueError msg)
                 /\ mentions "overlap" msg = true.
Proof.
  assert (H1 : 0 < 5) by lia. assert (H2 : 5 >= 5) by lia.
  split; [exact H1|]. split; [exact H2|].
  destruct (chunk_text_validation "a b c" 5 5) as (_ & Hov & _).
  apply Hov; [exact H1 | right; exact H2].
Defined.

End ChunkValidation.

(** ** Chunking: words and windows *)

Section Words.
Import PyStr Chunking.

Lemma is_word_cons (c : ascii) (w : string) :
  is_space c = false ->
  (w = EmptyString \/ is_word w) -> is_word (String c w).
Proof.
  intros Hc Hw. split; [discriminate|].
  intros c' [<-|Hin]; [assumption|].
  destruct Hw as [->|[_ Hw]]; [destruct Hin | now apply Hw].
Qed.

Lemma split_cons (c : ascii) (s : string) :
  split (String c s)
  = if is_space c then split s
    else match s with
         | EmptyString => [String c EmptyString]
         | String c' _ =>
             if is_space c' then String c EmptyString :: split s
             else match split s with
                  | w :: ws => String c w :: ws
                  | [] => [String c EmptyString]
                  end
         end.
Proof. reflexivity. Qed.

Lemma split_words (s : string) : Forall is_word (split s).
Proof.
  induction s as [|c s IH]; [constructor|].
  rewrite split_cons. destruct (is_space c) eqn:Hc; [assumption|].
  destruct s as [|c' s']; [repeat constructor; now apply is_word_cons; auto|].
  destruct (is_space c') eqn:Hc'.
  - constructor; [apply is_word_cons; auto | assumption].
  - destruct (split (String c' s')) as [|w ws]; inversion IH; subst;
      constructor; try (apply is_word_cons; auto); assumption.
Qed.

Lemma split_word_sep (w s : string) :
  is_word w -> split (w +:+ " " +:+ s) = w :: split s.
Proof.
  intros [Hne Hw]. induction w as [|c w IH]; [congruence|].
  assert (Hc : is_space c = false) by (apply Hw; now left).
  change (String c w +:+ " " +:+ s) with (String c (w +:+ " " +:+ s)).
  rewrite split_cons, Hc.
  destruct w as [|c2 w2].
  - reflexivity.
  - assert (Hc2 : is_space c2 = false) by (apply Hw; right; now left).
    change (String c2 w2 +:+ " " +:+ s)
      with (String c2 (w2 +:+ " " +:+ s)) in *.
    cbv iota. rewrite Hc2.
    rewrite IH; [reflexivity | discriminate |].
    intros c' Hin. apply Hw. now right.
Qed.

Lemma split_word (w : string) : is_word w -> split w = [w].
Proof.
  intros [Hne Hw]. induction w as [|c w IH]; [congruence|].
  assert (Hc : is_space c = false) by (apply Hw; now left).
  rewrite split_cons, Hc.
  destruct w as [|c2 w2]; [reflexivity|].
  assert (Hc2 : is_space c2 = false) by (apply Hw; right; now left).
  cbv iota. rewrite Hc2, IH; [reflexivity | discriminate |].
  intros c' Hin. apply Hw. now right.
Qed.

(** Splitting a space-joined list of words gives the words back. *)
Lemma split_join (ws : list string) :
  Forall is_word ws -> split (join " " ws) = ws.
Proof.
  induction 1 as [|w ws Hw Hws IH]; [reflexivity|].
  destruct ws as [|w' ws']; [now apply split_word|].
  change (join " " (w :: w' :: ws')) with (w +:+ " " +:+ join " " (w' :: ws')).
  rewrite split_word_sep by assumption. now rewrite IH.
Qed.

Lemma join_nonempty (sep w : string) (ws : list string) :
  w <> EmptyString -> join sep (w :: ws) <> EmptyString.
Proof.
  intros Hw. destruct ws; cbn [join]; [assumption|].
  destruct w; [congruence | discriminate].
Qed.

Lemma window_words (words : list string) (cs step i : nat) :
  Forall is_word words -> Forall is_word (window words cs step i).
Proof.
  intros H. unfold window. now apply Forall_take, Forall_drop.
Qed.

End Words.

(** ** Chunking: the loop *)

Section ChunkLoop.
Import PyStr Chunking.

Lemma range_last (n step : nat) :
  (0 < step)%nat -> (0 < n)%nat ->
  let cnt := ((n + step - 1) / step)%nat in
  (0 < cnt /\ (cnt - 1) * step < n /\ n <= cnt * step)%nat.
Proof.
  intros Hs Hn cnt.
  pose proof (Nat.div_mod_eq (n + step - 1) step) as Hd.
  pose proof (Nat.mod_upper_bound (n + step - 1) step) as Hm.
  fold cnt in Hd. nia.
Qed.

Lemma window_nonempty (words : list string) (cs step i : nat) :
  (0 < cs)%nat -> (i * step < length words)%nat ->
  window words cs step i <> [].
Proof.
  intros Hcs Hi Hw. apply (f_equal length) in Hw.
  unfold window in Hw. rewrite length_take, length_drop in Hw.
  simpl in Hw. lia.
Qed.

(** The loop run over the starts [a*step, (a+1)*step, ...]: it emits the
    windows from [a] up to the first one that reaches the end of [words]. *)
Lemma chunk_loop_from (words : list string) (cs step len a : nat) :
  (0 < cs)%nat ->
  (forall i, a <= i < a + len -> i * step < length words)%nat ->
  (exists j, a <= j < a + len /\ length words <= j * step + cs)%nat ->
  exists m, (0 < m <= len)%nat
    /\ chunk_loop words cs (map (fun i => (i * step)%nat) (seq a len))
       = map (fun i => join " " (window words cs step i)) (seq a m)
    /\ (length words <= (a + m - 1) * step + cs)%nat
    /\ (forall i, a <= i < a + m - 1 -> i * step + cs < length words)%nat.
Proof.
  intros Hcs. revert a. induction len as [|len IH]; intros a Hin Hex.
  - destruct Hex as (j & Hj & _). lia.
  - cbn [seq map chunk_loop].
    pose proof (window_nonempty words cs step a Hcs (Hin a ltac:(lia))) as Hne.
    fold (window words cs step a).
    destruct (window words cs step a) as [|w ws] eqn:Hw; [congruence|].
    destruct (Nat.leb_spec (length words) (a * step + cs)) as [Hstop|Hgo].
    + exists 1%nat. cbn [seq map]. rewrite Hw.
      repeat split; lia.
    + destruct (IH (S a)) as (m & Hm & Heq & Hlast & Hbefore).
      * intros i Hi. apply Hin. lia.
      * destruct Hex as (j & Hj & Hjs). exists j. split; [|assumption].
        assert (j <> a) by (intros ->; lia). lia.
      * exists (S m). cbn [seq map]. rewrite Hw, Heq.
        repeat split; try lia;
          try (replace (a + S m - 1)%nat with (S a + m - 1)%nat by lia; lia).
        intros i Hi. destruct (Nat.eq_dec i a) as [->|Hia]; [lia|].
        apply Hbefore. lia.
Qed.

(** Over [range(0, len(words), step)] the loop emits the joined windows
    [0 .. m-1], where window [m-1] is the first to reach the last word. *)
Lemma chunk_loop_range (words : list string) (cs step : nat) :
  (0 < step <= cs)%nat -> words <> [] ->
  exists m,
    chunk_loop words cs (range (length words) step)
    = map (fun i => join " " (window words cs step i)) (seq 0 m)
    /\ (0 < m)%nat
    /\ (length words <= (m - 1) * step + cs)%nat
    /\ (forall i, i + 1 < m -> i * step + cs < length words)%nat.
Proof.
  intros Hstep Hne.
  assert (Hn : (0 < length words)%nat)
    by (destruct words; simpl; [congruence|lia]).
  destruct (range_last (length words) step) as (Hcnt & Hlt & Hge); try lia.
  destruct (chunk_loop_from words cs step
              ((length words + step - 1) / step) 0)
    as (m & Hm & Heq & Hlast & Hbefore); try lia.
  - intros i Hi. nia.
  - exists ((length words + step - 1) / step - 1)%nat. nia.
  - exists m. unfold range. rewrite Heq.
    repeat split; try lia; try exact Hlast.
    intros i Hi. apply Hbefore. lia.
Qed.

End ChunkLoop.

(** ** Chunking: what the windows cover *)

Section Windows.
Import PyStr Chunking.

Variables (words : list string) (cs step m : nat).
Hypothesis Hstep : (0 < step <= cs)%nat.
Hypothesis Hm : (0 < m)%nat.
Hypothesis Hn : (0 < length words)%nat.
Hypothesis Hlast : (length words <= (m - 1) * step + cs)%nat.
Hypothesis Hbefore : forall i, (i + 1 < m -> i * step + cs < length words)%nat.

Lemma window_lookup (i p : nat) :
  (p < cs)%nat -> window words cs step i !! p = words !! (i * step + p)%nat.
Proof.
  intros Hp. unfold window. now rewrite lookup_take_lt, lookup_drop.
Qed.

Lemma window_start_in_range (i : nat) :
  (i < m)%nat -> (i * step < length words)%nat.
Proof.
  intros Hi. destruct (Nat.eq_dec i 0%nat) as [->|Hi0]; [lia|].
  specialize (Hbefore (i - 1)%nat ltac:(lia)).
  replace (i * step)%nat with ((i - 1) * step + step)%nat by nia. lia.
Qed.

Lemma window_covers (j : nat) :
  (j < length words)%nat ->
  exists i p, (i < m)%nat /\ (p < cs)%nat /\ (i * step + p)%nat = j.
Proof.
  intros Hj. pose proof (Nat.div_mod_eq j step) as Hd.
  pose proof (Nat.mod_upper_bound j step ltac:(lia)) as Hr.
  destruct (Nat.lt_ge_cases (j / step) m) as [Hq|Hq].
  - exists (j / step)%nat, (j mod step)%nat. repeat split; lia.
  - exists (m - 1)%nat, (j - (m - 1) * step)%nat.
    assert ((m - 1) * step <= j)%nat by nia. repeat split; lia.
Qed.

Lemma window_full (i : nat) :
  (i + 1 < m)%nat -> length (window words cs step i) = cs.
Proof.
  intros Hi. specialize (Hbefore i Hi). unfold window.
  rewrite length_take, length_drop. lia.
Qed.

Lemma last_window_suffix :
  window words cs step (m - 1) = drop ((m - 1) * step) words.
Proof. unfold window. apply take_ge. rewrite length_drop. lia. Qed.

Lemma last_window_last :
  last (window words cs step (m - 1)) = last words.
Proof.
  pose proof (window_start_in_range (m - 1) ltac:(lia)) as Hs.
  rewrite last_window_suffix, !last_lookup, lookup_drop, length_drop.
  f_equal. lia.
Qed.

Lemma window_overlap (i : nat) :
  (i + 1 < m)%nat ->
  drop step (window words cs step i)
  = take (cs - step) (window words cs step (i + 1))
  /\ length (take (cs - step) (window words cs step (i + 1))) = (cs - step)%nat.
Proof.
  intros Hi. specialize (Hbefore i Hi). unfold window.
  rewrite skipn_firstn_comm, drop_drop, take_take.
  replace ((i + 1) * step)%nat with (i * step + step)%nat by lia.
  replace ((cs - step) `min` cs)%nat with (cs - step)%nat by lia.
  split; [reflexivity|]. rewrite length_take, length_drop. lia.
Qed.

End Windows.

Section ChunkClaims.
Import PyStr Chunking.

(** C2.  For [chunk_size > 0] and [0 <= overlap < chunk_size], with
    [step = chunk_size - overlap], [chunk_text] returns the space-joined
    windows of up to [chunk_size] words that start at the word indices
    [0, step, 2*step, ...], and stops with the first window whose end reaches
    or passes the number of words.  Splitting a chunk gives its window back;
    every word of the text lies in some chunk; the final chunk is a suffix of
    the words and ends with the last word; no window and no chunk is empty;
    and the words a chunk has after its first [step] words are the first
    [overlap] words of the next chunk, exactly [overlap] of them, for every
    pair of consecutive chunks.  [chunk_text "a b c d e" 2 1] is
    ["a b"; "b c"; "c d"; "d e"]. *)
Theorem chunk_text_windows (text : string) (chunk_size overlap : Z) :
  0 < chunk_size -> 0 <= overlap < chunk_size ->
  let words := split text in
  let cs := Z.to_nat chunk_size in
  let ov := Z.to_nat overlap in
  let step := (cs - ov)%nat in
  exists chunks : list string,
    chunk_text text chunk_size overlap = inr chunks
    /\ chunks = map (fun i => join " " (window words cs step i))
                    (seq 0 (length chunks))
    /\ map split chunks = map (window words cs step) (seq 0 (length chunks))
    /\ (words = [] -> chunks = [])
    /\ (words <> [] ->
        chunks <> []
        /\ (length words <= (length chunks - 1) * step + cs)%nat
        /\ window words cs step (length chunks - 1)
           = drop ((length chunks - 1) * step) words
        /\ last (window words cs step (length chunks - 1)) = last words)
    /\ (forall i, (i + 1 < length chunks)%nat ->
          (i * step + cs < length words)%nat
          /\ length (window words cs step i) = cs)
    /\ (forall j w, words !! j = Some w ->
          exists i p, (i < length chunks)%nat /\ (i * step + p)%nat = j
                      /\ window words cs step i !! p = Some w)
    /\ (forall i, (i < length chunks)%nat -> window words cs step i <> [])
    /\ Forall (fun c => c <> EmptyString) chunks
    /\ (forall i, (i + 1 < length chunks)%nat ->
          drop step (window words cs step i)
          = take ov (window words cs step (i + 1))
          /\ length (take ov (window words cs step (i + 1))) = ov)
    /\ chunk_text "a b c d e" 2 1 = inr ["a b"; "b c"; "c d"; "d e"].
Proof.
  intros Hc Ho words cs ov step.
  assert (Hstep : (0 < step <= cs)%nat) by (subst step cs ov; lia).
  assert (Hov : ov = (cs - step)%nat) by (subst step cs ov; lia).
  assert (Hwords : Forall is_word words) by apply split_words.
  rewrite chunk_text_valid by assumption.
  replace (Z.to_nat (chunk_size - overlap)) with step by (subst step cs ov; lia).
  fold words cs.
  destruct (list_eq_dec words []) as [Hnil|Hne].
  { rewrite Hnil. exists []. repeat apply conj; try reflexivity;
      try congruence; try (simpl; intros; lia); try constructor.
    intros j w Hj. rewrite lookup_nil in Hj. discriminate. }
  destruct (chunk_loop_range words cs step Hstep Hne)
    as (m & Heq & Hm & Hlast & Hbefore).
  assert (Hn : (0 < length words)%nat)
    by (destruct words; simpl; [congruence|lia]).
  assert (Hmatch : match words with
                   | [] => []
                   | _ :: _ => chunk_loop words cs (range (length words) step)
                   end
                   = map (fun i => join " " (window words cs step i)) (seq 0 m)).
  { destruct words; [congruence | exact Heq]. }
  rewrite Hmatch. eexists. split; [reflexivity|].
  rewrite length_map, length_seq.
  assert (Hstart := window_start_in_range words cs step m Hstep Hm Hn Hlast Hbefore).
  repeat apply conj.
  - reflexivity.
  - rewrite map_map. apply map_ext. intros i.
    apply split_join, window_words, Hwords.
  - congruence.
  - intros _. repeat apply conj.
    + destruct m; [lia | discriminate].
    + exact Hlast.
    + now apply last_window_suffix.
    + now apply last_window_last.
  - intros i Hi. split; [now apply Hbefore | now apply (window_full words cs step m)].
  - intros j w Hj.
    destruct (window_covers words cs step m Hstep Hm Hn Hlast j)
      as (i & p & Hi & Hp & Hij).
    { eapply lookup_lt_Some; eassumption. }
    exists i, p. repeat split; try assumption.
    rewrite window_lookup by assumption. now rewrite Hij.
  - intros i Hi. apply window_nonempty; [lia | now apply Hstart].
  - apply Forall_forall. intros c Hin.
    apply list_elem_of_fmap in Hin as (i & -> & Hi).
    apply elem_of_seq in Hi.
    pose proof (window_nonempty words cs step i ltac:(lia)
                  (Hstart i ltac:(lia))) as Hw.
    pose proof (window_words words cs step i Hwords) as Hww.
    destruct (window words cs step i) as [|w ws]; [congruence|].
    apply join_nonempty. inversion Hww as [|? ? [Hw0 _] _]; assumption.
  - intros i Hi. rewrite Hov.
    now apply (window_overlap words cs step m).
  - reflexivity.
Qed.

Lemma chunk_text_windows_witness :
  0 < 2 /\ 0 <= 1 < 2
  /\ exists chunks, chunk_text "a b c d e" 2 1 = inr chunks
                    /\ Forall (fun c => c <> EmptyString) chunks.
Proof.
  assert (H1 : 0 < 2) by lia. assert (H2 : 0 <= 1 < 2) by lia.
  split; [exact H1|]. split; [exact H2|].
  destruct (chunk_text_windows "a b c d e" 2 1 H1 H2)
    as (chunks & Heq & _ & _ & _ & _ & _ & _ & _ & Hne & _).
  exists chunks. split; assumption.
Defined.

End ChunkClaims.


(** ** Session memory: the heap primitives *)

Section Heap.
Import PyStr Chat.

Lemma wf_empty : wf empty_memory.
Proof.
  split; simpl; intros *; rewrite ?lookup_empty; discriminate.
Qed.

Lemma next_loc_free (s : memory) : wf s -> objects s !! next_loc s = None.
Proof.
  intros Hwf. destruct (objects s !! next_loc s) eqn:E; [|reflexivity].
  apply (wf_alloc s Hwf) in E. lia.
Qed.

Lemma alloc_lookup_old (o : object) (s : memory) (l : loc) (x : object) :
  wf s -> objects s !! l = Some x -> objects (snd (alloc o s)) !! l = Some x.
Proof.
  intros Hwf Hl. simpl. rewrite lookup_insert_ne; [assumption|].
  intros <-. rewrite (next_loc_free s Hwf) in Hl. discriminate.
Qed.

Lemma wf_after_alloc (o : object) (s : memory) :
  wf s ->
  (forall items d, o = ListObj items -> d ∈ items ->
                   exists m, objects s !! d = Some (DictObj m)) ->
  wf (snd (alloc o s)).
Proof.
  intros Hwf Ho. split; simpl.
  - intros l x. rewrite lookup_insert. case_decide; [lia|].
    intros H'. apply (wf_alloc s Hwf) in H'. lia.
  - intros l items d. rewrite lookup_insert. case_decide as Hl.
    + intros [= ->] Hd. destruct (Ho items d eq_refl Hd) as [m Hm].
      exists m. now apply (alloc_lookup_old _ s).
    + intros Hli Hd. destruct (wf_closed s Hwf l items d Hli Hd) as [m Hm].
      exists m. now apply (alloc_lookup_old _ s).
  - intros sid l Hs. destruct (wf_session s Hwf sid l Hs) as [items Hi].
    exists items. now apply (alloc_lookup_old _ s).
  - apply (wf_inj s Hwf).
Qed.

Lemma wf_after_bind (sid : string) (l : loc) (items : list loc) (s : memory) :
  wf s -> objects s !! l = Some (ListObj items) ->
  (forall sid', session_memory s !! sid' <> Some l) ->
  wf (bind_session sid l s).
Proof.
  intros Hwf Hl Hfree. split; simpl.
  - apply (wf_alloc s Hwf).
  - apply (wf_closed s Hwf).
  - intros sid' l'. rewrite lookup_insert. case_decide.
    + intros [= <-]. eauto.
    + apply (wf_session s Hwf).
  - intros sid1 sid2 l'. rewrite !lookup_insert.
    repeat case_decide; subst; intros H1 H2; try congruence.
    apply (wf_inj s Hwf sid1 sid2 l' H1 H2).
Qed.

Lemma wf_after_store (l : loc) (old items : list loc) (s : memory) :
  wf s -> objects s !! l = Some (ListObj old) ->
  (forall d, d ∈ items -> exists m, objects s !! d = Some (DictObj m)) ->
  wf (store l (ListObj items) s).
Proof.
  intros Hwf Hl Hitems.
  assert (Hkeep : forall d m, objects s !! d = Some (DictObj m) ->
                              <[l := ListObj items]> (objects s) !! d
                              = Some (DictObj m)).
  { intros d m Hd. rewrite lookup_insert_ne; [assumption|]. congruence. }
  split; simpl.
  - intros l' x. rewrite lookup_insert. case_decide; subst.
    + intros _. now apply (wf_alloc s Hwf) in Hl.
    + apply (wf_alloc s Hwf).
  - intros l' items' d. rewrite lookup_insert. case_decide; subst.
    + intros [= <-] Hd. destruct (Hitems d Hd) as [m Hm]. eauto.
    + intros Hl' Hd. destruct (wf_closed s Hwf l' items' d Hl' Hd) as [m Hm].
      eauto.
  - intros sid l' Hs. rewrite lookup_insert. case_decide; [eauto|].
    apply (wf_session s Hwf sid l' Hs).
  - apply (wf_inj s Hwf).
Qed.

(** Reading a list gives the same value in a heap that has the same list
    object and the same dicts. *)
Lemma read_frame (s s' : memory) (l : loc) :
  wf s -> objects s' !! l = objects s !! l ->
  (forall d m, objects s !! d = Some (DictObj m) ->
               objects s' !! d = Some (DictObj m)) ->
  read s' l = read s l.
Proof.
  intros Hwf Hl Hd. unfold read, list_items. rewrite Hl.
  destruct (objects s !! l) as [[items|]|] eqn:E; try reflexivity.
  apply map_ext_in. intros d Hin. apply list_elem_of_In in Hin.
  destruct (wf_closed s Hwf l items d E Hin) as [m Hm].
  unfold dict_at. now rewrite (Hd d m Hm), Hm.
Qed.

End Heap.


(** ** Session memory: what a call leaves alone *)

Section Frame.
Import PyStr Chat.

Lemma frame_refl (sid : string) (s : memory) : frame sid s s.
Proof. unfold frame. repeat split; auto. Qed.

Lemma frame_trans (sid : string) (s1 s2 s3 : memory) :
  frame sid s1 s2 -> frame sid s2 s3 -> frame sid s1 s3.
Proof.
  intros (Hn1 & Hd1 & Ho1 & Hb1 & Hs1) (Hn2 & Hd2 & Ho2 & Hb2 & Hs2).
  repeat split.
  - lia.
  - auto.
  - intros l Hl Hns. rewrite Ho2, Ho1; auto; [lia|].
    intros Hs. destruct (Hs1 l Hs); [contradiction | lia].
  - intros sid' Hne. now rewrite Hb2, Hb1.
  - intros l Hl. destruct (Hs2 l Hl) as [Hold|Hnew]; [|right; lia].
    destruct (Hs1 l Hold); [now left | now right].
Qed.

Lemma frame_alloc (sid : string) (o : object) (s : memory) :
  wf s -> frame sid s (snd (alloc o s)).
Proof.
  intros Hwf. repeat split; simpl; auto.
  - intros d m. now apply (alloc_lookup_old o s).
  - intros l Hl _. rewrite lookup_insert_ne; [reflexivity | lia].
Qed.

Lemma frame_store (sid : string) (l : loc) (items : list loc) (s : memory) :
  wf s -> session_memory s !! sid = Some l ->
  frame sid s (store l (ListObj items) s).
Proof.
  intros Hwf Hs. destruct (wf_session s Hwf sid l Hs) as [old Hold].
  repeat split; simpl; auto.
  - intros d m Hd. rewrite lookup_insert_ne; [assumption | congruence].
  - intros l' _ Hl'. rewrite lookup_insert_ne; [reflexivity | congruence].
Qed.

Lemma frame_alloc_bind (sid : string) (o : object) (s : memory) :
  wf s -> frame sid s (bind_session sid (next_loc s) (snd (alloc o s))).
Proof.
  intros Hwf. repeat split; simpl; auto.
  - intros d m. now apply (alloc_lookup_old o s).
  - intros l Hl _. rewrite lookup_insert_ne; [reflexivity | lia].
  - intros sid' Hne. now rewrite lookup_insert_ne.
  - intros l. rewrite lookup_insert_eq. intros [= <-]. right. lia.
Qed.

(** Sessions other than [sid] keep their logs. *)
Lemma frame_log_other (sid sid' : string) (s s' : memory) :
  wf s -> frame sid s s' -> sid' <> sid -> log s' sid' = log s sid'.
Proof.
  intros Hwf (_ & Hd & Ho & Hb & _) Hne. unfold log. rewrite Hb by assumption.
  destruct (session_memory s !! sid') as [l|] eqn:E; [|reflexivity].
  simpl. f_equal. apply read_frame; [assumption | | assumption].
  destruct (wf_session s Hwf sid' l E) as [items Hi].
  apply Ho; [now apply (wf_alloc s Hwf) in Hi|].
  intros E'. apply Hne. apply (wf_inj s Hwf sid' sid l E E').
Qed.

(** Detached objects stay detached and keep their value. *)
Lemma frame_detached (sid : string) (s s' : memory) (l : loc) :
  wf s -> frame sid s s' -> detached s l ->
  detached s' l /\ objects s' !! l = objects s !! l /\ read s' l = read s l.
Proof.
  intros Hwf (Hn & Hd & Ho & Hb & Hs) [Hl Hfree].
  assert (Hobj : objects s' !! l = objects s !! l) by (apply Ho; auto).
  repeat split.
  - lia.
  - intros sid' E. destruct (decide (sid' = sid)) as [->|Hne].
    + destruct (Hs l E) as [Hold|Hnew]; [now apply Hfree in Hold | lia].
    + rewrite Hb in E by assumption. now apply Hfree in E.
  - assumption.
  - now apply read_frame.
Qed.

End Frame.

(** ** Session memory: the effect of each call *)

Section Calls.
Import PyStr Chat.

Lemma last_n_map {A B} (f : A -> B) (n : nat) (l : list A) :
  last_n n (map f l) = map f (last_n n l).
Proof. unfold last_n. now rewrite length_map, skipn_map. Qed.

Lemma last_n_short {A} (n : nat) (l : list A) :
  (length l <= n)%nat -> last_n n l = l.
Proof.
  intros H. unfold last_n. replace (length l - n)%nat with 0%nat by lia.
  reflexivity.
Qed.

Lemma last_n_length {A} (n : nat) (l : list A) :
  length (last_n n l) = Nat.min n (length l).
Proof. unfold last_n. rewrite length_drop. lia. Qed.

Lemma last_n_subseteq {A} (n : nat) (l : list A) : last_n n l ⊆ l.
Proof. unfold last_n. apply subseteq_drop. Qed.

Lemma session_bound_allocated (s : memory) (sid : string) (l : loc) :
  wf s -> session_memory s !! sid = Some l -> (l < next_loc s)%nat.
Proof.
  intros Hwf Hs. destruct (wf_session s Hwf sid l Hs) as [items Hi].
  now apply (wf_alloc s Hwf) in Hi.
Qed.

Lemma setdefault_effect (sid : string) (s : memory) :
  wf s ->
  let l := fst (setdefault sid s) in
  let s' := snd (setdefault sid s) in
  wf s' /\ frame sid s s'
  /\ session_memory s' !! sid = Some l
  /\ read s' l = default [] (log s sid)
  /\ (is_Some (session_memory s !! sid) -> s' = s).
Proof.
  intros Hwf. unfold setdefault, log.
  destruct (session_memory s !! sid) as [l0|] eqn:E; simpl.
  - split; [|split; [|split; [|split]]]; auto using frame_refl.
  - assert (Hwf1 : wf (snd (alloc (ListObj []) s))).
    { apply wf_after_alloc; [assumption|].
      intros items d [= <-] Hd. inversion Hd. }
    split; [|split; [|split; [|split]]].
    + apply (wf_after_bind sid _ []); [exact Hwf1 | |].
      * simpl. rewrite lookup_insert_eq. reflexivity.
      * simpl. intros sid' Hs'.
        apply (session_bound_allocated s sid' _ Hwf) in Hs'. lia.
    + now apply frame_alloc_bind.
    + simpl. rewrite lookup_insert_eq. reflexivity.
    + unfold read, list_items. simpl. rewrite lookup_insert_eq. reflexivity.
    + intros [x Hx]. discriminate.
Qed.

Lemma map_dict_at_preserved (s s' : memory) (ds : list loc) :
  (forall d, d ∈ ds -> exists m, objects s !! d = Some (DictObj m)) ->
  (forall d m, objects s !! d = Some (DictObj m) ->
               objects s' !! d = Some (DictObj m)) ->
  map (dict_at s') ds = map (dict_at s) ds.
Proof.
  intros Hds Hkeep. apply map_ext_in. intros d Hin.
  apply list_elem_of_In in Hin. destruct (Hds d Hin) as [m Hm].
  unfold dict_at. now rewrite (Hkeep d m Hm), Hm.
Qed.

Lemma valid_role_check (role : string) :
  valid_role role <->
  negb (String.eqb role "user" || String.eqb role "assistant") = false.
Proof.
  unfold valid_role. rewrite negb_false_iff, orb_true_iff.
  now rewrite !String.eqb_eq.
Qed.

Lemma add_message_noop (sid role content : string) (s : memory) :
  ~ valid_role role \/ strip content = EmptyString ->
  add_message sid role content s = s.
Proof.
  intros [H|H]; unfold add_message.
  - rewrite valid_role_check in H.
    destruct (negb _); [reflexivity | congruence].
  - rewrite H. now destruct (negb _).
Qed.

(** Appending the dict [m] to the list of session [sid]. *)
Lemma append_effect (sid : string) (l : loc) (msg : gmap string string)
      (s1 : memory) :
  wf s1 -> session_memory s1 !! sid = Some l ->
  let m := next_loc s1 in
  let s2 := snd (alloc (DictObj msg) s1) in
  let items := (list_items s2 l ++ [m])%list in
  let s3 := store l (ListObj items) s2 in
  wf s3 /\ frame sid s1 s3
  /\ session_memory s3 !! sid = Some l
  /\ objects s3 !! l = Some (ListObj items)
  /\ length items = S (length (read s1 l))
  /\ read s3 l = (read s1 l ++ [msg])%list.
Proof.
  intros Hwf1 Hb1 m s2 items s3.
  destruct (wf_session s1 Hwf1 sid l Hb1) as [old Hold].
  assert (Hl : (l < m)%nat) by (apply (wf_alloc s1 Hwf1) in Hold; exact Hold).
  assert (Hwf2 : wf s2) by (apply wf_after_alloc; [assumption | discriminate]).
  assert (Hold2 : objects s2 !! l = Some (ListObj old))
    by now apply (alloc_lookup_old _ s1).
  assert (Hm2 : objects s2 !! m = Some (DictObj msg))
    by (subst s2 m; simpl; rewrite lookup_insert_eq; reflexivity).
  assert (Hitems : items = (old ++ [m])%list)
    by (subst items; unfold list_items; now rewrite Hold2).
  assert (Hdicts2 : forall d, d ∈ items ->
                              exists x, objects s2 !! d = Some (DictObj x)).
  { intros d. rewrite Hitems, elem_of_app, list_elem_of_singleton.
    intros [Hd| ->]; [|eauto].
    apply (wf_closed s2 Hwf2 l old d Hold2 Hd). }
  assert (Hb2 : session_memory s2 !! sid = Some l) by exact Hb1.
  assert (Hl3 : objects s3 !! l = Some (ListObj items))
    by (subst s3; simpl; rewrite lookup_insert_eq; reflexivity).
  assert (Hframe : frame sid s1 s3).
  { eapply frame_trans; [apply (frame_alloc sid (DictObj msg) s1 Hwf1)|].
    now apply frame_store. }
  split; [|split; [|split; [|split; [|split]]]].
  - now apply (wf_after_store l old).
  - exact Hframe.
  - exact Hb1.
  - exact Hl3.
  - unfold read, list_items. rewrite Hold, Hitems, length_map, length_app.
    simpl. lia.
  - unfold read at 1. unfold list_items. rewrite Hl3, Hitems, map_app.
    f_equal.
    + unfold read, list_items. rewrite Hold.
      apply map_dict_at_preserved; [|apply Hframe].
      intros d Hd. apply (wf_closed s1 Hwf1 l old d Hold Hd).
    + simpl. unfold dict_at. subst s3. cbn [store objects].
      rewrite lookup_insert_ne by lia. rewrite Hm2. reflexivity.
Qed.

(** Rebinding session [sid] to a new list of the last [n] items. *)
Lemma truncate_effect (sid : string) (l : loc) (items : list loc) (n : nat)
      (s3 : memory) :
  wf s3 -> session_memory s3 !! sid = Some l ->
  objects s3 !! l = Some (ListObj items) ->
  let s5 := bind_session sid (next_loc s3)
              (snd (alloc (ListObj (last_n n items)) s3)) in
  wf s5 /\ frame sid s3 s5 /\ log s5 sid = Some (last_n n (read s3 l)).
Proof.
  intros Hwf3 Hb3 Hl3 s5.
  assert (Hsub : forall d, d ∈ last_n n items ->
                           exists x, objects s3 !! d = Some (DictObj x)).
  { intros d Hd. apply (wf_closed s3 Hwf3 l items d Hl3).
    eapply last_n_subseteq; eassumption. }
  assert (Hwf4 : wf (snd (alloc (ListObj (last_n n items)) s3))).
  { apply wf_after_alloc; [assumption|]. intros ? d [= <-]. apply Hsub. }
  split; [|split].
  - apply (wf_after_bind sid _ (last_n n items)); [exact Hwf4 | |].
    + simpl. rewrite lookup_insert_eq. reflexivity.
    + simpl. intros sid' Hs'.
      apply (session_bound_allocated s3 sid' _ Hwf3) in Hs'. lia.
  - now apply frame_alloc_bind.
  - unfold log. subst s5. simpl. rewrite lookup_insert_eq. simpl. f_equal.
    unfold read at 1. unfold list_items. simpl. rewrite lookup_insert_eq.
    unfold read, list_items. rewrite Hl3, <- last_n_map.
    f_equal. apply (map_dict_at_preserved s3).
    + intros d Hd. apply (wf_closed s3 Hwf3 l items d Hl3 Hd).
    + intros d x Hd. simpl. now apply (alloc_lookup_old _ s3).
Qed.

Lemma add_message_effect (sid role content : string) (s : memory) :
  wf s -> valid_role role -> strip content <> EmptyString ->
  let s' := add_message sid role content s in
  wf s' /\ frame sid s s'
  /\ log s' sid
     = Some (last_n (Z.to_nat MAX_SESSION_MESSAGES)
               (default [] (log s sid)
                ++ [session_message role (strip content)])).
Proof.
  intros Hwf Hrole Hne. unfold add_message.
  rewrite (proj1 (valid_role_check role) Hrole).
  destruct (strip content) as [|a cleaned] eqn:Hclean; [congruence|].
  destruct (setdefault_effect sid s Hwf) as (Hwf1 & Hf1 & Hb1 & Hr1 & _).
  destruct (setdefault sid s) as [l s1]. cbn [fst snd] in *.
  destruct (append_effect sid l
              (session_message role (String a cleaned)) s1 Hwf1 Hb1)
    as (Hwf3 & Hf3 & Hb3 & Hl3 & Hlen & Hr3).
  unfold session_message in *. cbn [alloc snd] in *.
  set (s3 := store l _ _) in *.
  set (items := (list_items _ l ++ [next_loc s1])%list) in *.
  rewrite Hr1 in Hr3, Hlen.
  destruct (Z.of_nat (length items) >? MAX_SESSION_MESSAGES) eqn:Hcap.
  - destruct (truncate_effect sid l items
                (Z.to_nat MAX_SESSION_MESSAGES) s3 Hwf3 Hb3 Hl3)
      as (Hwf5 & Hf5 & Hlog5).
    cbn [alloc snd] in *. split; [exact Hwf5|]. split.
    + eapply frame_trans; [exact Hf1|]. eapply frame_trans; eassumption.
    + now rewrite Hlog5, Hr3.
  - split; [exact Hwf3|]. split.
    + eapply frame_trans; eassumption.
    + unfold log. rewrite Hb3. simpl. rewrite Hr3. f_equal.
      symmetry. apply last_n_short.
      rewrite length_app. simpl. unfold MAX_SESSION_MESSAGES in *. lia.
Qed.

(** Copying dicts: the copies are new objects with the same contents. *)
Lemma copy_all_effect (ms : list loc) (s : memory) :
  wf s ->
  (forall d, d ∈ ms -> exists m, objects s !! d = Some (DictObj m)) ->
  let copies := fst (copy_all ms s) in
  let s' := snd (copy_all ms s) in
  wf s' /\ (forall sid, frame sid s s')
  /\ (forall l o, objects s !! l = Some o -> objects s' !! l = Some o)
  /\ session_memory s' = session_memory s
  /\ map (dict_at s') copies = map (dict_at s) ms
  /\ (forall c, c ∈ copies ->
        (next_loc s <= c)%nat
        /\ exists m, objects s' !! c = Some (DictObj m)).
Proof.
  revert s. induction ms as [|d ms IH]; intros s Hwf Hms; simpl.
  - split; [assumption|]. split; [intros; apply frame_refl|].
    split; [auto|].
    split; [reflexivity|]. split; [reflexivity|]. intros c Hc. inversion Hc.
  - set (s1 := {| objects := _; next_loc := S (next_loc s);
                  session_memory := session_memory s |}).
    assert (Es1 : s1 = snd (alloc (DictObj (dict_at s d)) s)) by reflexivity.
    assert (Hwf1 : wf s1)
      by (rewrite Es1; apply wf_after_alloc; [assumption | discriminate]).
    assert (Hf1 : forall sid, frame sid s s1)
      by (intros sid; rewrite Es1; now apply frame_alloc).
    assert (Hkeep : forall x m, objects s !! x = Some (DictObj m) ->
                                objects s1 !! x = Some (DictObj m))
      by (intros x m; apply (Hf1 EmptyString)).
    destruct (IH s1 Hwf1) as (Hwf' & Hf' & Hobj & Hsm & Hmap & Hfresh).
    { intros x Hx. destruct (Hms x) as [m Hm]; [now right|]. eauto. }
    destruct (copy_all ms s1) as [cs s2]. cbn [fst snd] in *.
    split; [assumption|]. split; [|split; [|split; [|split]]].
    + intros sid. eapply frame_trans; [apply Hf1 | apply Hf'].
    + intros l o Hl. apply Hobj. rewrite Es1.
      now apply (alloc_lookup_old _ s).
    + rewrite Hsm. reflexivity.
    + cbn [map]. f_equal.
      * unfold dict_at at 1.
        assert (Hc : objects s1 !! next_loc s
                     = Some (DictObj (dict_at s d)))
          by (subst s1; simpl; rewrite lookup_insert_eq; reflexivity).
        destruct (Hf' EmptyString) as (_ & Hk & _).
        now rewrite (Hk _ _ Hc).
      * rewrite Hmap. apply map_dict_at_preserved; [|exact Hkeep].
        intros x Hx. apply Hms. now right.
    + intros c Hc. apply elem_of_cons in Hc as [->|Hc].
      * split; [lia|]. exists (dict_at s d).
        destruct (Hf' EmptyString) as (_ & Hk & _). apply Hk.
        subst s1. simpl. rewrite lookup_insert_eq. reflexivity.
      * destruct (Hfresh c Hc) as [Hge Hx]. split; [simpl in Hge; lia|].
        exact Hx.
Qed.

Lemma get_recent_messages_effect (sid : string) (limit : Z) (s : memory) :
  wf s ->
  let r := fst (get_recent_messages sid limit s) in
  let s' := snd (get_recent_messages sid limit s) in
  wf s' /\ frame sid s s'
  /\ read s' r
     = (if limit <=? 0 then []
        else last_n (Z.to_nat limit) (default [] (log s sid)))
  /\ detached s' r
  /\ (next_loc s <= r)%nat
  /\ (forall c, c ∈ list_items s' r -> (next_loc s <= c)%nat)
  /\ (limit <= 0 -> session_memory s' = session_memory s)
  /\ (0 < limit -> log s' sid = Some (default [] (log s sid))).
Proof.
  intros Hwf. unfold get_recent_messages.
  destruct (Z.leb_spec limit 0) as [Hle|Hgt].
  - cbn [alloc fst snd].
    set (s' := {| objects := _; next_loc := S (next_loc s);
                  session_memory := session_memory s |}).
    assert (Es' : s' = snd (alloc (ListObj []) s)) by reflexivity.
    assert (Hr : objects s' !! next_loc s = Some (ListObj []))
      by (subst s'; simpl; rewrite lookup_insert_eq; reflexivity).
    split; [|split; [|split; [|split; [|split; [|split; [|split]]]]]].
    + rewrite Es'. apply wf_after_alloc; [assumption|].
      intros items d [= <-] Hd. inversion Hd.
    + rewrite Es'. now apply frame_alloc.
    + unfold read, list_items. now rewrite Hr.
    + split; [simpl; lia|]. simpl. intros sid' Hs'.
      apply (session_bound_allocated s sid' _ Hwf) in Hs'. lia.
    + lia.
    + unfold list_items. rewrite Hr. intros c Hc. inversion Hc.
    + reflexivity.
    + lia.
  - destruct (setdefault_effect sid s Hwf) as (Hwf1 & Hf1 & Hb1 & Hr1 & _).
    destruct (setdefault sid s) as [l s1]. cbn [fst snd] in *.
    destruct (wf_session s1 Hwf1 sid l Hb1) as [items Hl1].
    assert (Hitems : list_items s1 l = items)
      by (unfold list_items; now rewrite Hl1).
    rewrite Hitems.
    set (slice := last_n (Z.to_nat limit) items).
    assert (Hslice : forall d, d ∈ slice ->
                               exists m, objects s1 !! d = Some (DictObj m)).
    { intros d Hd. apply (wf_closed s1 Hwf1 l items d Hl1).
      eapply last_n_subseteq; exact Hd. }
    destruct (copy_all_effect slice s1 Hwf1 Hslice)
      as (Hwf2 & Hf2 & Hobj2 & Hsm2 & Hmap2 & Hfresh2).
    destruct (copy_all slice s1) as [copies s2]. cbn [fst snd] in *.
    cbn [alloc fst snd].
    set (s3 := {| objects := _; next_loc := S (next_loc s2);
                  session_memory := session_memory s2 |}).
    assert (Es3 : s3 = snd (alloc (ListObj copies) s2)) by reflexivity.
    assert (Hr3 : objects s3 !! next_loc s2 = Some (ListObj copies))
      by (subst s3; simpl; rewrite lookup_insert_eq; reflexivity).
    assert (Hn1 : (next_loc s <= next_loc s1)%nat) by apply Hf1.
    assert (Hn2 : (next_loc s1 <= next_loc s2)%nat) by apply (Hf2 sid).
    assert (Hcopies : forall c, c ∈ copies ->
                                exists m, objects s2 !! c = Some (DictObj m))
      by (intros c Hc; apply (Hfresh2 c Hc)).
    assert (Hwf3 : wf s3).
    { rewrite Es3. apply wf_after_alloc; [assumption|].
      intros ? d [= <-]. apply Hcopies. }
    assert (Hkeep3 : forall x o, objects s2 !! x = Some o ->
                                 objects s3 !! x = Some o)
      by (intros x o; rewrite Es3; now apply alloc_lookup_old).
    assert (Hread1 : read s1 l = map (dict_at s1) items)
      by (unfold read; now rewrite Hitems).
    split; [|split; [|split; [|split; [|split; [|split; [|split]]]]]].
    + exact Hwf3.
    + eapply frame_trans; [exact Hf1|].
      eapply frame_trans; [apply Hf2|].
      rewrite Es3. now apply frame_alloc.
    + unfold read at 1. unfold list_items. rewrite Hr3.
      rewrite (map_dict_at_preserved s2 s3 copies Hcopies)
        by (intros d m; apply Hkeep3).
      rewrite Hmap2. subst slice. rewrite <- last_n_map, <- Hread1, Hr1.
      reflexivity.
    + split; [simpl; lia|]. simpl. rewrite Hsm2. intros sid' Hs'.
      apply (session_bound_allocated s1 sid' _ Hwf1) in Hs'. lia.
    + lia.
    + unfold list_items. rewrite Hr3. intros c Hc.
      destruct (Hfresh2 c Hc) as [Hge _]. lia.
    + lia.
    + intros _. unfold log at 1. simpl. rewrite Hsm2, Hb1. simpl. f_equal.
      rewrite <- Hr1. apply read_frame; [assumption | |].
      * rewrite Hl1. apply Hkeep3, Hobj2, Hl1.
      * intros d m Hd. apply Hkeep3, Hobj2, Hd.
Qed.

End Calls.


(** ** Session memory: append *)

Section Append.
Import PyStr Chat.

Lemma valid_role_dec (role : string) : valid_role role \/ ~ valid_role role.
Proof.
  rewrite valid_role_check. destruct (negb _); [right | left]; congruence.
Qed.

Lemma add_message_cases (sid role content : string) (s : memory) :
  (valid_role role /\ strip content <> EmptyString)
  \/ ((~ valid_role role \/ strip content = EmptyString)
      /\ add_message sid role content s = s).
Proof.
  destruct (valid_role_dec role) as [Hr|Hr];
    [destruct (string_dec (strip content) EmptyString) as [Hc|Hc]|].
  - right. split; [now right | apply add_message_noop; now right].
  - left. now split.
  - right. split; [now left | apply add_message_noop; now left].
Qed.

Lemma add_message_wf_frame (sid role content : string) (s : memory) :
  wf s ->
  wf (add_message sid role content s)
  /\ frame sid s (add_message sid role content s).
Proof.
  intros Hwf.
  destruct (add_message_cases sid role content s) as [[Hr Hc]|[_ ->]].
  - destruct (add_message_effect sid role content s Hwf Hr Hc) as (? & ? & _).
    now split.
  - split; [assumption | apply frame_refl].
Qed.

Lemma last_n_app_tail {A} (n : nat) (l tl : list A) :
  last_n n (last_n n l ++ tl) = last_n n (l ++ tl).
Proof.
  unfold last_n. rewrite !length_app, length_drop.
  rewrite <- (drop_app_le l tl (length l - n)) by lia.
  rewrite drop_drop. f_equal. lia.
Qed.

Lemma add_messages_effect (sid : string) (rcs : list (string * string))
      (s : memory) :
  wf s -> Forall accepted rcs ->
  wf (add_messages sid rcs s)
  /\ log (add_messages sid rcs s) sid
     = match rcs with
       | [] => log s sid
       | _ :: _ =>
           Some (last_n (Z.to_nat MAX_SESSION_MESSAGES)
                   (default [] (log s sid) ++ map stored rcs))
       end.
Proof.
  intros Hwf Hacc. revert s Hwf.
  induction Hacc as [|[role content] rcs [Hr Hc] Hacc IH]; intros s Hwf.
  - now split.
  - cbn [fst snd] in Hr, Hc.
    destruct (add_message_effect sid role content s Hwf Hr Hc)
      as (Hwf' & _ & Hlog').
    destruct (IH _ Hwf') as [Hwf'' Hlog''].
    change (add_messages sid ((role, content) :: rcs) s)
      with (add_messages sid rcs (add_message sid role content s)).
    split; [exact Hwf''|]. rewrite Hlog''.
    destruct rcs as [|rc rcs']; [exact Hlog'|].
    rewrite Hlog'. cbn [from_option id]. rewrite last_n_app_tail, <- app_assoc.
    reflexivity.
Qed.

(** C3.  [add_message] leaves the memory as it is when the role is neither
    ["user"] nor ["assistant"] or when the content is empty after stripping.
    Otherwise the log of the session becomes its old log followed by the dict
    of the role and the stripped content, cut to its last five messages; the
    logs of the other sessions stay as they are.  So a log that an append
    changed has at most five messages, the cap on all logs is kept by every
    append, and six accepted messages appended to a session without messages
    leave the last five of them, in their order. *)
Theorem add_message_bounded (sid role content : string) (s : memory) :
  wf s ->
  let s' := add_message sid role content s in
  (~ valid_role role \/ strip content = EmptyString -> s' = s)
  /\ (valid_role role -> strip content <> EmptyString ->
      log s' sid
      = Some (last_n 5 (default [] (log s sid)
                        ++ [session_message role (strip content)])))
  /\ (forall sid', sid' <> sid -> log s' sid' = log s sid')
  /\ (forall l, valid_role role -> strip content <> EmptyString ->
                log s' sid = Some l -> (length l <= 5)%nat)
  /\ (capped s -> capped s')
  /\ wf s'
  /\ (forall rcs, length rcs = 6%nat -> Forall accepted rcs ->
                  default [] (log s sid) = [] ->
                  log (add_messages sid rcs s) sid
                  = Some (map stored (drop 1 rcs))).
Proof.
  intros Hwf s'.
  destruct (add_message_wf_frame sid role content s Hwf) as [Hwf' Hframe].
  assert (Hother : forall sid', sid' <> sid -> log s' sid' = log s sid')
    by (intros sid' Hne; now apply (frame_log_other sid)).
  assert (Hlen : forall l, valid_role role -> strip content <> EmptyString ->
                           log s' sid = Some l -> (length l <= 5)%nat).
  { intros l Hr Hc Hl.
    destruct (add_message_effect sid role content s Hwf Hr Hc)
      as (_ & _ & Hlog).
    fold s' in Hlog. rewrite Hlog in Hl. injection Hl as <-.
    rewrite last_n_length. unfold MAX_SESSION_MESSAGES. lia. }
  split; [|split; [|split; [|split; [|split; [|split]]]]].
  - apply add_message_noop.
  - intros Hr Hc. now apply add_message_effect.
  - exact Hother.
  - exact Hlen.
  - intros Hcap sid' l Hl. destruct (decide (sid' = sid)) as [->|Hne].
    + destruct (add_message_cases sid role content s) as [[Hr Hc]|[_ Hsame]].
      * specialize (Hlen l Hr Hc Hl). unfold MAX_SESSION_MESSAGES. lia.
      * apply (Hcap sid l). subst s'. now rewrite Hsame in Hl.
    + apply (Hcap sid' l). now rewrite <- Hother.
  - exact Hwf'.
  - intros rcs Hsix Hacc Hfresh.
    destruct (add_messages_effect sid rcs s Hwf Hacc) as [_ Hlog].
    rewrite Hlog, Hfresh. destruct rcs as [|rc rcs']; [discriminate|].
    f_equal. unfold last_n. cbn [app]. rewrite length_map, Hsix.
    now rewrite skipn_map.
Qed.

Lemma add_message_bounded_witness :
  wf empty_memory
  /\ (map (fun d => d !! "content")
        <$> log (add_messages "s1"
                   [("user", "1"); ("assistant", " 2"); ("user", "3 ");
                    ("assistant", "4"); ("user", "5"); ("assistant", "6")]
                   empty_memory) "s1")
     = Some [Some "2"; Some "3"; Some "4"; Some "5"; Some "6"].
Proof.
  split; [exact wf_empty|].
  destruct (add_message_bounded "s1" "user" "x" empty_memory wf_empty)
    as (_ & _ & _ & _ & _ & _ & Hsix).
  rewrite Hsix.
  - vm_compute. reflexivity.
  - reflexivity.
  - repeat (constructor;
            [split; [unfold valid_role; simpl; auto
                    | vm_compute; discriminate] |]).
    constructor.
  - reflexivity.
Defined.

End Append.

(** ** Session memory: reading *)

Section Recent.
Import PyStr Chat.

Lemma exec_effect (c : call) (s : memory) :
  wf s -> wf (exec c s) /\ exists sid, frame sid s (exec c s).
Proof.
  intros Hwf. destruct c as [sid role content|sid limit|sid]; simpl.
  - destruct (add_message_wf_frame sid role content s Hwf). eauto.
  - destruct (get_recent_messages_effect sid limit s Hwf) as (? & ? & _).
    eauto.
  - destruct (setdefault_effect sid s Hwf) as (? & ? & _). eauto.
Qed.

(** No sequence of calls changes what a detached list reads as. *)
Lemma run_detached (cs : list call) (s : memory) (l : loc) :
  wf s -> detached s l ->
  wf (run cs s) /\ detached (run cs s) l /\ read (run cs s) l = read s l.
Proof.
  revert s. induction cs as [|c cs IH]; intros s Hwf Hdet; [now simpl|].
  destruct (exec_effect c s Hwf) as (Hwf' & sid & Hframe).
  destruct (frame_detached sid s (exec c s) l Hwf Hframe Hdet)
    as (Hdet' & _ & Hread').
  destruct (IH (exec c s) Hwf' Hdet') as (Hwf'' & Hdet'' & Hread'').
  change (run (c :: cs) s) with (run cs (exec c s)).
  split; [exact Hwf''|]. split; [exact Hdet''|].
  now rewrite Hread'', Hread'.
Qed.

(** C6, counterexample.  With [limit = 0] the call returns before it looks
    the session up: the unknown id gets no log. *)
Lemma get_recent_messages_zero_no_log :
  let s' := snd (get_recent_messages "u" 0 empty_memory) in
  log s' "u" = None /\ session_memory s' = ∅.
Proof. split; reflexivity. Qed.

(** C6 (amended).  [get_recent_messages] returns a new list that reads as the
    last [limit] messages of the session, in their order, or as the empty
    list when [limit <= 0] or when the session has no log; neither the list
    nor its items are objects of the memory before the call, and no later
    call changes what the list reads as.  With [limit <= 0] no session is
    looked up and every log, present or absent, stays as it is; with
    [limit > 0] a session id without a log gets an empty one, and nothing
    else changes in any log. *)
Theorem get_recent_messages_copy (sid : string) (limit : Z) (s : memory) :
  wf s ->
  let r := fst (get_recent_messages sid limit s) in
  let s' := snd (get_recent_messages sid limit s) in
  read s' r
  = (if limit <=? 0 then []
     else last_n (Z.to_nat limit) (default [] (log s sid)))
  /\ (limit <= 0 \/ log s sid = None -> read s' r = [])
  /\ (objects s !! r = None
      /\ forall c, c ∈ list_items s' r -> objects s !! c = None)
  /\ (forall cs, read (run cs s') r = read s' r)
  /\ (limit <= 0 ->
      session_memory s' = session_memory s
      /\ forall sid', log s' sid' = log s sid')
  /\ (0 < limit ->
      log s' sid = Some (default [] (log s sid))
      /\ forall sid', sid' <> sid -> log s' sid' = log s sid')
  /\ wf s'.
Proof.
  intros Hwf r s'.
  destruct (get_recent_messages_effect sid limit s Hwf)
    as (Hwf' & Hframe & Hread & Hdet & Hfresh & Hitems & Hle & Hgt).
  fold r s' in Hwf', Hframe, Hread, Hdet, Hfresh, Hitems, Hle, Hgt.
  assert (Hnone : forall l, (next_loc s <= l)%nat -> objects s !! l = None).
  { intros l Hl. destruct (objects s !! l) eqn:E; [|reflexivity].
    apply (wf_alloc s Hwf) in E. lia. }
  assert (Hother : forall sid', sid' <> sid -> log s' sid' = log s sid')
    by (intros sid' Hne; now apply (frame_log_other sid)).
  split; [|split; [|split; [|split; [|split; [|split]]]]].
  - exact Hread.
  - intros [Hl|Hl]; rewrite Hread.
    + now rewrite (proj2 (Z.leb_le _ _) Hl).
    + rewrite Hl. destruct (limit <=? 0); [reflexivity|].
      apply last_n_short. simpl. lia.
  - split; [now apply Hnone|]. intros c Hc. apply Hnone. now apply Hitems.
  - intros cs. now apply run_detached.
  - intros Hl. split; [now apply Hle|]. intros sid'.
    destruct (decide (sid' = sid)) as [->|Hne]; [|now apply Hother].
    unfold log. rewrite (Hle Hl).
    destruct (session_memory s !! sid) as [l|] eqn:E; [|reflexivity].
    simpl. f_equal. apply read_frame; [assumption| |apply Hframe].
    unfold s', get_recent_messages. rewrite (proj2 (Z.leb_le _ _) Hl).
    simpl. apply lookup_insert_ne.
    apply (session_bound_allocated s sid l Hwf) in E. lia.
  - intros Hl. split; [now apply Hgt | exact Hother].
  - exact Hwf'.
Qed.

Lemma get_recent_messages_copy_witness :
  wf empty_memory
  /\ let r := fst (get_recent_messages "u" 5 empty_memory) in
     let s' := snd (get_recent_messages "u" 5 empty_memory) in
     read (run [Add "u" "user" "hi"; Add "u" "assistant" "ho"] s') r = []
     /\ log s' "u" = Some [].
Proof.
  split; [exact wf_empty|]. intros r s'.
  destruct (get_recent_messages_copy "u" 5 empty_memory wf_empty)
    as (Hread & _ & _ & Hrun & _ & Hreg & _).
  fold r s' in Hread, Hrun, Hreg. split.
  - rewrite Hrun, Hread. reflexivity.
  - apply Hreg. reflexivity.
Defined.

End Recent.


(** ** Stripping *)

Section Strip.
Import PyStr.

Lemma rstrip_cons (c : ascii) (s : string) :
  rstrip (String c s)
  = match rstrip s with
    | EmptyString => if is_space c then EmptyString else String c EmptyString
    | r => String c r
    end.
Proof. reflexivity. Qed.

Lemma rstrip_idempotent (s : string) : rstrip (rstrip s) = rstrip s.
Proof.
  induction s as [|c s IH]; [reflexivity|].
  rewrite rstrip_cons. destruct (rstrip s) as [|c' r] eqn:E.
  - destruct (is_space c) eqn:Hc; [reflexivity|].
    rewrite rstrip_cons. cbn [rstrip]. now rewrite Hc.
  - rewrite rstrip_cons, IH. reflexivity.
Qed.

(** [rstrip] keeps a first character that is not whitespace. *)
Lemma rstrip_head (c : ascii) (s : string) :
  is_space c = false -> exists r, rstrip (String c s) = String c r.
Proof.
  intros Hc. rewrite rstrip_cons. destruct (rstrip s); [rewrite Hc|]; eauto.
Qed.

Lemma lstrip_head (s : string) :
  lstrip s = EmptyString
  \/ exists c r, lstrip s = String c r /\ is_space c = false.
Proof.
  induction s as [|c s IH]; [now left|].
  cbn [lstrip]. destruct (is_space c) eqn:Hc; [exact IH|].
  right. eauto.
Qed.

Lemma strip_idempotent (s : string) : strip (strip s) = strip s.
Proof.
  unfold strip. destruct (lstrip_head s) as [->|(c & r & -> & Hc)];
    [reflexivity|].
  destruct (rstrip_head c r Hc) as [r' Hr]. rewrite Hr.
  cbn [lstrip]. rewrite Hc, <- Hr. apply rstrip_idempotent.
Qed.

End Strip.

(** ** The prompt *)

Section Prompt.
Import PyStr Similarity Chat.

Lemma format_line_rendered (m : gmap string string) :
  format_line m = if is_blank m then None else Some (rendered m).
Proof.
  unfold format_line, is_blank, rendered, message_content, message_role.
  now destruct (strip (default "" (m !! "content"))).
Qed.

Lemma omap_format_line (history : list (gmap string string)) :
  omap format_line history
  = map rendered (List.filter (fun m => negb (is_blank m)) history).
Proof.
  induction history as [|m history IH]; [reflexivity|].
  cbn [omap list_omap List.filter]. rewrite format_line_rendered.
  fold (omap format_line history). rewrite IH.
  now destruct (is_blank m).
Qed.

Lemma format_history_lines (history : list (gmap string string)) :
  _format_history history
  = match List.filter (fun m => negb (is_blank m)) history with
    | [] => "No prior history."
    | kept => join LF (map rendered kept)
    end.
Proof.
  unfold _format_history. destruct history as [|m history]; [reflexivity|].
  rewrite omap_format_line.
  now destruct (List.filter _ (m :: history)).
Qed.

Lemma rendered_session_message (role content : string) :
  strip content = content ->
  rendered (session_message role content)
  = (if String.eqb role "assistant" then "Assistant" else "User")
    +:+ ": " +:+ content.
Proof.
  intros Hc. unfold rendered, message_role, message_content, session_message.
  assert (Hr : ({[ "role" := role; "content" := content ]}
                  : gmap string string) !! "role" = Some role)
    by (rewrite lookup_insert_eq; reflexivity).
  assert (Hk : ({[ "role" := role; "content" := content ]}
                  : gmap string string) !! "content" = Some content).
  { rewrite lookup_insert_ne by discriminate.
    rewrite lookup_singleton_eq. reflexivity. }
  rewrite Hr, Hk. cbn [from_option id]. now rewrite Hc.
Qed.

(** The contents that [join] takes. *)
Lemma texts_Text (retrieved_chunks : list item) (contents : list string) :
  texts retrieved_chunks = inr contents
  <-> map content retrieved_chunks = map Text contents.
Proof.
  revert contents.
  induction retrieved_chunks as [|chunk rest IH]; intros contents;
    cbn [texts map].
  - split; [intros [= <-]; reflexivity|].
    destruct contents; [reflexivity | discriminate].
  - destruct (content chunk) as [s|] eqn:Hc.
    + destruct (texts rest) as [e|ts] eqn:Ht.
      * split; [discriminate|]. destruct contents as [|c contents];
          [discriminate|]. cbn [map]. intros [= _ Hrest].
        apply IH in Hrest. discriminate.
      * split.
        -- intros [= <-]. cbn [map]. f_equal. now apply IH.
        -- destruct contents as [|c contents]; [discriminate|].
           cbn [map]. intros [= -> Hrest]. apply IH in Hrest.
           now injection Hrest as ->.
    + split; [discriminate|]. destruct contents; discriminate.
Qed.

Lemma texts_NotText (retrieved_chunks : list item) :
  NotText ∈ map content retrieved_chunks
  <-> exists msg, texts retrieved_chunks = inl (TypeError msg).
Proof.
  induction retrieved_chunks as [|chunk rest IH]; cbn [texts map].
  - split; [intros Hin; inversion Hin | intros [msg [=]]].
  - rewrite elem_of_cons. destruct (content chunk) as [s|] eqn:Hc.
    + destruct (texts rest) as [e|ts] eqn:Ht.
      * split; [intros [[=]|Hin]; apply IH, Hin|].
        intros Hex. right. apply IH, Hex.
      * split; [intros [[=]|Hin]; apply IH in Hin as [msg [=]]|].
        intros [msg [=]].
    + split; [eauto | now left].
Qed.

(** The text of the prompt. *)
Lemma build_prompt_text (question : string) (retrieved_chunks : list item)
      (history : list (gmap string string)) (contents : list string) :
  map content retrieved_chunks = map Text contents ->
  _build_prompt question retrieved_chunks history
  = inr (PREAMBLE
         +:+ join (LF +:+ LF) contents
         +:+ LF +:+ LF +:+ "CHAT HISTORY:" +:+ LF
         +:+ _format_history history
         +:+ LF +:+ LF +:+ "USER QUESTION:" +:+ LF
         +:+ question
         +:+ LF +:+ LF +:+ "ANSWER:").
Proof.
  intros Hc. apply texts_Text in Hc. unfold _build_prompt.
  rewrite Hc. reflexivity.
Qed.

(** C8.  When the contents of the retrieved items are texts, the prompt is
    the fixed preamble, which tells to answer only from the provided context
    and to say the fallback text otherwise, followed by the contents of the
    retrieved items in their order with a blank line between them, the
    formatted history, and the question as it is; when some content is not a
    text, [_build_prompt] raises [TypeError] and builds no prompt.  The
    formatted history is ["No prior history."] for an empty history;
    otherwise it has one line per message that is not blank after stripping,
    ["Assistant: <content>"] for the role ["assistant"] and
    ["User: <content>"] for any other role. *)
Theorem build_prompt_shape (question : string) (retrieved_chunks : list item)
        (history : list (gmap string string)) :
  (forall contents,
      map content retrieved_chunks = map Text contents ->
      _build_prompt question retrieved_chunks history
      = inr (PREAMBLE
             +:+ join (LF +:+ LF) contents
             +:+ LF +:+ LF +:+ "CHAT HISTORY:" +:+ LF
             +:+ _format_history history
             +:+ LF +:+ LF +:+ "USER QUESTION:" +:+ LF
             +:+ question
             +:+ LF +:+ LF +:+ "ANSWER:"))
  /\ (NotText ∈ map content retrieved_chunks
      <-> exists msg,
          _build_prompt question retrieved_chunks history
          = inl (TypeError msg))
  /\ ((forall e, _build_prompt question retrieved_chunks history <> inl e)
      <-> exists contents, map content retrieved_chunks = map Text contents)
  /\ mentions "Answer ONLY from provided context" PREAMBLE = true
  /\ mentions NO_CONTEXT_FALLBACK PREAMBLE = true
  /\ _format_history [] = "No prior history."
  /\ _format_history history
     = match List.filter (fun m => negb (is_blank m)) history with
       | [] => "No prior history."
       | kept => join LF (map rendered kept)
       end
  /\ (forall content, strip content = content ->
        rendered (session_message "user" content) = "User: " +:+ content
        /\ rendered (session_message "assistant" content)
           = "Assistant: " +:+ content)
  /\ (forall m, rendered m = "Assistant: " +:+ strip (message_content m)
                \/ rendered m = "User: " +:+ strip (message_content m)).
Proof.
  split; [|split; [|split]].
  - apply build_prompt_text.
  - rewrite texts_NotText. unfold _build_prompt.
    destruct (texts retrieved_chunks) as [e|contents]; split;
      intros [msg Hm]; try discriminate;
      exists msg; injection Hm as ->; reflexivity.
  - unfold _build_prompt.
    destruct (texts retrieved_chunks) as [e|contents] eqn:Ht.
    + split; [intros Hno; now destruct (Hno e)|].
      intros [contents Hc]. apply texts_Text in Hc. congruence.
    + split; [|discriminate]. intros _. exists contents.
      now apply texts_Text.
  - split; [reflexivity|]. split; [reflexivity|].
    split; [reflexivity|]. split; [apply format_history_lines|]. split.
    + intros content Hc. split; now rewrite rendered_session_message.
    + intros m. unfold rendered.
      destruct (String.eqb (message_role m) "assistant"); [left | right];
        reflexivity.
Qed.

Lemma build_prompt_shape_witness :
  strip "hello" = "hello"
  /\ rendered (session_message "user" "hello") = "User: hello"
  /\ rendered (session_message "assistant" "hello") = "Assistant: hello".
Proof.
  assert (H : strip "hello" = "hello") by reflexivity.
  split; [exact H|].
  destruct (build_prompt_shape "q" [] [])
    as (_ & _ & _ & _ & _ & _ & _ & Hr & _).
  exact (Hr "hello" H).
Defined.

Example build_prompt_example :
  _build_prompt "why?"
    [ {| content := Text "first"; vector := Floats []; similarity := 0.9 |};
      {| content := Text "second"; vector := Floats []; similarity := 0.8 |} ]
    [ session_message "user" "hello"; session_message "assistant" "  ";
      session_message "assistant" "hi"; session_message "user" "why?" ]
  = inr (PREAMBLE
         +:+ "first" +:+ LF +:+ LF +:+ "second" +:+ LF +:+ LF
         +:+ "CHAT HISTORY:" +:+ LF
         +:+ "User: hello" +:+ LF +:+ "Assistant: hi" +:+ LF +:+ "User: why?"
         +:+ LF +:+ LF
         +:+ "USER QUESTION:" +:+ LF +:+ "why?" +:+ LF +:+ LF +:+ "ANSWER:").
Proof. vm_compute. reflexivity. Qed.

End Prompt.


(** ** The chat handler *)

Section Handler.
Import PyStr Similarity Chat.

Lemma last_n_snoc {A} (n : nat) (l : list A) (x : A) :
  (0 < n)%nat -> last_n n (l ++ [x]) = (last_n (n - 1) l ++ [x])%list.
Proof.
  intros Hn. unfold last_n. rewrite length_app. simpl.
  replace (length l + 1 - n)%nat with (length l - (n - 1))%nat by lia.
  apply drop_app_le. lia.
Qed.

Lemma last_n_idempotent {A} (n : nat) (l : list A) :
  last_n n (last_n n l) = last_n n l.
Proof. apply last_n_short. rewrite last_n_length. lia. Qed.

(** What the handler has in memory, and reads as history, once it has
    registered the session and appended the question. *)
Lemma chat_prelude (sid question : string) (s : memory) :
  wf s -> question <> EmptyString -> strip question = question ->
  let s2 := add_message sid "user" question (snd (setdefault sid s)) in
  let history := fst (get_recent_messages sid MAX_SESSION_MESSAGES s2) in
  let s3 := snd (get_recent_messages sid MAX_SESSION_MESSAGES s2) in
  wf s3
  /\ read s3 history = history_with (default [] (log s sid)) question
  /\ log s3 sid = Some (history_with (default [] (log s sid)) question).
Proof.
  intros Hwf Hq Hstrip s2 history s3.
  destruct (setdefault_effect sid s Hwf) as (Hwf1 & _ & Hb1 & Hr1 & _).
  assert (Hlog1 : log (snd (setdefault sid s)) sid
                  = Some (default [] (log s sid)))
    by (unfold log at 1; rewrite Hb1; simpl; now rewrite Hr1).
  destruct (add_message_effect sid "user" question _ Hwf1) as (Hwf2 & _ & Hlog2);
    [now left | now rewrite Hstrip |].
  fold s2 in Hwf2, Hlog2. rewrite Hlog1, Hstrip in Hlog2. cbn [from_option id] in Hlog2.
  destruct (get_recent_messages_effect sid MAX_SESSION_MESSAGES s2 Hwf2)
    as (Hwf3 & _ & Hread & _ & _ & _ & _ & Hlog3).
  fold history s3 in Hwf3, Hread, Hlog3.
  rewrite Hlog2 in Hread, Hlog3. cbn [from_option id] in Hread, Hlog3.
  split; [exact Hwf3|]. unfold history_with. split.
  - rewrite Hread. change (MAX_SESSION_MESSAGES <=? 0) with false.
    apply last_n_idempotent.
  - apply Hlog3. reflexivity.
Qed.

(** The handler after validation, with the intermediate memories named. *)
Lemma chat_valid `{R : Runtime} (w : world) (request : ChatRequest)
      (s : memory) :
  session_of request <> EmptyString -> question_of request <> EmptyString ->
  let sid := session_of request in
  let question := question_of request in
  let s2 := add_message sid "user" question (snd (setdefault sid s)) in
  let history := fst (get_recent_messages sid MAX_SESSION_MESSAGES s2) in
  let s3 := snd (get_recent_messages sid MAX_SESSION_MESSAGES s2) in
  chat w request s
  = match get_query_embedding w question with
    | [] =>
        {| response :=
             inl (HTTP 502
                    "Gemini API failure while generating query embedding.");
           memory_after := s3; llm_calls := [] |}
    | _ :: _ =>
        match _load_vector_store (vector_store w) with
        | inl (OtherOSError msg) =>
            {| response := inl (Uncaught (OSError msg));
               memory_after := s3; llm_calls := [] |}
        | inl _ =>
            {| response := inl (HTTP 500 "Vector store is unavailable.");
               memory_after := s3; llm_calls := [] |}
        | inr documents =>
            match retrieve_top_k (Floats (get_query_embedding w question))
                    documents RETRIEVAL_TOP_K SIMILARITY_THRESHOLD with
            | inl e =>
                {| response := inl (Uncaught e);
                   memory_after := s3; llm_calls := [] |}
            | inr [] =>
                {| response :=
                     inr {| reply := NO_CONTEXT_FALLBACK;
                            retrievedChunks := 0 |};
                   memory_after :=
                     add_message sid "assistant" NO_CONTEXT_FALLBACK s3;
                   llm_calls := [] |}
            | inr retrieved =>
                match _build_prompt question retrieved (read s3 history) with
                | inl e =>
                    {| response := inl (Uncaught e);
                       memory_after := s3; llm_calls := [] |}
                | inr prompt =>
                    match _call_gemini_llm w prompt with
                    | GeminiTimeoutError detail =>
                        {| response := inl (HTTP 504 detail);
                           memory_after := s3; llm_calls := [prompt] |}
                    | GeminiAPIError detail =>
                        {| response := inl (HTTP 502 detail);
                           memory_after := s3; llm_calls := [prompt] |}
                    | Generated reply =>
                        {| response :=
                             inr {| reply := reply;
                                    retrievedChunks :=
                                      Z.of_nat (length retrieved) |};
                           memory_after :=
                             add_message sid "assistant" reply s3;
                           llm_calls := [prompt] |}
                    end
                end
            end
        end
    end.
Proof.
  intros Hs Hq. cbv zeta. unfold chat.
  fold (session_of request) (question_of request).
  destruct (session_of request) as [|a sid']; [congruence|].
  destruct (question_of request) as [|b question']; [congruence|].
  destruct (setdefault (String a sid') s) as [l0 s1]. cbn [snd].
  destruct (get_recent_messages _ _ _) as [h s3]. cbn [fst snd].
  destruct (get_query_embedding w (String b question')); reflexivity.
Qed.

Lemma chat_invalid `{R : Runtime} (w : world) (request : ChatRequest)
      (s : memory) :
  session_of request = EmptyString \/ question_of request = EmptyString ->
  llm_calls (chat w request s) = []
  /\ memory_after (chat w request s) = s
  /\ exists detail, response (chat w request s) = inl (HTTP 400 detail).
Proof.
  unfold chat. fold (session_of request) (question_of request).
  intros [Hb|Hb]; rewrite Hb.
  - repeat split; eauto.
  - destruct (session_of request); repeat split; eauto.
Qed.


(** C9.  When the request is valid, the query embedding is not empty, the
    store loads and [retrieve_top_k] returns the empty list, the handler
    answers with the fallback reply and a retrieved count of zero, and makes
    no call to the generator. *)
Theorem chat_no_context `{R : Runtime} (w : world) (request : ChatRequest)
        (s : memory) (documents : list document) :
  session_of request <> EmptyString ->
  question_of request <> EmptyString ->
  get_query_embedding w (question_of request) <> [] ->
  vector_store w = Entries documents ->
  retrieve_top_k (Floats (get_query_embedding w (question_of request)))
    documents RETRIEVAL_TOP_K SIMILARITY_THRESHOLD = inr [] ->
  response (chat w request s)
  = inr {| reply := NO_CONTEXT_FALLBACK; retrievedChunks := 0 |}
  /\ llm_calls (chat w request s) = [].
Proof.
  intros Hs Hq Hqv Hstore Hret.
  rewrite (chat_valid w request s Hs Hq). cbv zeta.
  destruct (get_query_embedding w (question_of request)) as [|x qv];
    [congruence|].
  rewrite Hstore. cbn [_load_vector_store]. rewrite Hret. now split.
Qed.

Lemma chat_no_context_witness :
  session_of Examples.request_hello = "s1"
  /\ question_of Examples.request_hello = "hello"
  /\ retrieve_top_k (Floats [1; 0; 0; 0; 0]%float)
       [float_doc "z" [0; 1; 0; 0; 0]%float]
       RETRIEVAL_TOP_K SIMILARITY_THRESHOLD = inr []
  /\ response (chat Examples.world_far Examples.request_hello empty_memory)
     = inr {| reply := NO_CONTEXT_FALLBACK; retrievedChunks := 0 |}
  /\ llm_calls (chat Examples.world_far Examples.request_hello empty_memory)
     = [].
Proof.
  split; [vm_compute; reflexivity|]. split; [vm_compute; reflexivity|].
  split; [vm_compute; reflexivity|].
  apply (chat_no_context Examples.world_far Examples.request_hello
           empty_memory [float_doc "z" [0; 1; 0; 0; 0]%float]).
  - vm_compute. discriminate.
  - vm_compute. discriminate.
  - vm_compute. discriminate.
  - reflexivity.
  - vm_compute. reflexivity.
Defined.

Lemma question_of_stripped (request : ChatRequest) :
  strip (question_of request) = question_of request.
Proof. apply strip_idempotent. Qed.


(** The history read after the append ends with the question. *)
Lemma history_with_shape (old : list (gmap string string)) (question : string) :
  history_with old question
  = (last_n 4 old ++ [session_message "user" question])%list
  /\ last (history_with old question) = Some (session_message "user" question)
  /\ ((length old < 5)%nat ->
      history_with old question
      = (old ++ [session_message "user" question])%list)
  /\ (length old = 5%nat ->
      history_with old question
      = (drop 1 old ++ [session_message "user" question])%list).
Proof.
  assert (H : history_with old question
              = (last_n 4 old ++ [session_message "user" question])%list).
  { unfold history_with. rewrite last_n_snoc
      by (unfold MAX_SESSION_MESSAGES; lia). reflexivity. }
  split; [exact H|]. split; [rewrite H; apply last_snoc|]. split.
  - intros Hl. rewrite H, last_n_short by lia. reflexivity.
  - intros Hl. rewrite H. unfold last_n. now rewrite Hl.
Qed.


Lemma five_accepted : Forall accepted Examples.five.
Proof.
  repeat (constructor;
          [split; [unfold valid_role; simpl; auto
                  | vm_compute; discriminate] |]).
  constructor.
Qed.


End Handler.


(* ===================================================================== *)
(** * Part III: further properties of the code                            *)
(* ===================================================================== *)

(** ** The chat handler and session memory *)

Section HandlerMemory.
Import PyStr Similarity Chat.

Lemma history_with_length (old : list (gmap string string)) (question : string) :
  (length (history_with old question) <= 5)%nat.
Proof.
  unfold history_with. rewrite last_n_length.
  unfold MAX_SESSION_MESSAGES. lia.
Qed.

(** A call that frames session [sid] and leaves it a short log keeps the
    cap. *)
Lemma capped_frame (sid : string) (s s' : memory) :
  wf s -> frame sid s s' -> capped s ->
  (forall l, log s' sid = Some l ->
             Z.of_nat (length l) <= MAX_SESSION_MESSAGES) ->
  capped s'.
Proof.
  intros Hwf Hframe Hcap Hsid sid' l Hl.
  destruct (decide (sid' = sid)) as [->|Hne]; [now apply Hsid|].
  apply (Hcap sid' l). now rewrite <- (frame_log_other sid sid' s s').
Qed.

Lemma add_message_capped (sid role content : string) (s : memory) :
  wf s -> capped s -> capped (add_message sid role content s).
Proof.
  intros Hwf Hcap.
  destruct (add_message_cases sid role content s) as [[Hr Hc]|[_ Hsame]];
    [|now rewrite Hsame].
  destruct (add_message_effect sid role content s Hwf Hr Hc)
    as (_ & Hframe & Hlog).
  apply (capped_frame sid s); try assumption.
  intros l Hl. rewrite Hlog in Hl. injection Hl as <-.
  rewrite last_n_length. unfold MAX_SESSION_MESSAGES. lia.
Qed.

(** The memory once the handler has registered the session, appended the
    question and read the history. *)
Lemma chat_prelude_frame (sid question : string) (s : memory) :
  wf s -> question <> EmptyString -> strip question = question ->
  let s2 := add_message sid "user" question (snd (setdefault sid s)) in
  let s3 := snd (get_recent_messages sid MAX_SESSION_MESSAGES s2) in
  wf s3 /\ frame sid s s3
  /\ log s3 sid = Some (history_with (default [] (log s sid)) question)
  /\ (capped s -> capped s3).
Proof.
  intros Hwf Hq Hstrip s2 s3.
  destruct (chat_prelude sid question s Hwf Hq Hstrip) as (Hwf3 & _ & Hlog3).
  fold s2 s3 in Hwf3, Hlog3.
  destruct (setdefault_effect sid s Hwf) as (Hwf1 & Hf1 & _).
  destruct (add_message_wf_frame sid "user" question _ Hwf1) as [Hwf2 Hf2].
  fold s2 in Hwf2, Hf2.
  destruct (get_recent_messages_effect sid MAX_SESSION_MESSAGES s2 Hwf2)
    as (_ & Hf3 & _).
  fold s3 in Hf3.
  assert (Hframe : frame sid s s3).
  { eapply frame_trans; [exact Hf1|]. eapply frame_trans; eassumption. }
  split; [exact Hwf3|]. split; [exact Hframe|]. split; [exact Hlog3|].
  intros Hcap. apply (capped_frame sid s); try assumption.
  intros l Hl. rewrite Hlog3 in Hl. injection Hl as <-.
  pose proof (history_with_length (default [] (log s sid)) question).
  unfold MAX_SESSION_MESSAGES. lia.
Qed.

(** After validation the handler leaves the memory it had after reading the
    history, or that memory with one assistant message appended. *)
Lemma chat_memory_after `{R : Runtime} (w : world) (request : ChatRequest)
      (s : memory) :
  session_of request <> EmptyString -> question_of request <> EmptyString ->
  let sid := session_of request in
  let s2 := add_message sid "user" (question_of request)
              (snd (setdefault sid s)) in
  let s3 := snd (get_recent_messages sid MAX_SESSION_MESSAGES s2) in
  (memory_after (chat w request s) = s3
   /\ exists e, response (chat w request s) = inl e)
  \/ (exists text, memory_after (chat w request s)
                   = add_message sid "assistant" text s3
                   /\ exists r, response (chat w request s) = inr r).
Proof.
  intros Hs Hq. cbv zeta. rewrite (chat_valid w request s Hs Hq). cbv zeta.
  destruct (get_query_embedding w (question_of request)); [left; eauto|].
  destruct (_load_vector_store (vector_store w)) as [[]|documents];
    [left; eauto ..|].
  destruct (retrieve_top_k _ documents _ _) as [e|[|it its]];
    [left; eauto | right; eauto |].
  destruct (_build_prompt _ (it :: its) _) as [e|p]; [left; eauto|].
  destruct (_call_gemini_llm w p); [right | left | left]; eauto.
Qed.

(** The memory the handler leaves. *)
Lemma chat_memory_effect `{R : Runtime} (w : world) (request : ChatRequest)
      (s : memory) :
  wf s ->
  wf (memory_after (chat w request s))
  /\ (capped s -> capped (memory_after (chat w request s)))
  /\ (forall sid', sid' <> session_of request ->
                   log (memory_after (chat w request s)) sid' = log s sid').
Proof.
  intros Hwf.
  destruct (string_dec (session_of request) EmptyString) as [Hs|Hs].
  { destruct (chat_invalid w request s (or_introl Hs)) as (_ & -> & _).
    auto. }
  destruct (string_dec (question_of request) EmptyString) as [Hq|Hq].
  { destruct (chat_invalid w request s (or_intror Hq)) as (_ & -> & _).
    auto. }
  destruct (chat_prelude_frame (session_of request) (question_of request) s
              Hwf Hq (question_of_stripped request))
    as (Hwf3 & Hf3 & _ & Hcap3).
  destruct (chat_memory_after w request s Hs Hq)
    as [[-> _]|(text & -> & _)].
  - split; [exact Hwf3|]. split; [exact Hcap3|].
    intros sid' Hne. now apply (frame_log_other (session_of request)).
  - destruct (add_message_wf_frame (session_of request) "assistant" text _
                Hwf3) as [Hwf4 Hf4].
    split; [exact Hwf4|]. split.
    + intros Hcap. apply add_message_capped; auto.
    + intros sid' Hne. apply (frame_log_other (session_of request));
        [assumption | | assumption].
      eapply frame_trans; eassumption.
Qed.

(** X4.  Whatever the request and the outcome, the handler leaves the heap
    well formed, keeps the cap of five messages on every log, and changes
    the log of no session but the one the request names. *)
Theorem chat_keeps_sessions_apart `{R : Runtime} (w : world)
        (request : ChatRequest) (s : memory) :
  wf s ->
  wf (memory_after (chat w request s))
  /\ (capped s -> capped (memory_after (chat w request s)))
  /\ (forall sid', sid' <> session_of request ->
                   log (memory_after (chat w request s)) sid' = log s sid').
Proof. apply chat_memory_effect. Qed.

Lemma chat_keeps_sessions_apart_witness :
  wf Examples.memory_at_cap
  /\ log (memory_after (chat Examples.world_near Examples.request_hello
                          Examples.memory_at_cap)) "other"
     = None.
Proof.
  assert (Hwf : wf Examples.memory_at_cap)
    by apply (add_messages_effect "s1" Examples.five empty_memory wf_empty
                five_accepted).
  split; [exact Hwf|].
  destruct (chat_keeps_sessions_apart Examples.world_near
              Examples.request_hello Examples.memory_at_cap Hwf)
    as (_ & _ & Hother).
  rewrite Hother; [reflexivity | vm_compute; discriminate].
Defined.

End HandlerMemory.

Section HandlerOutcomes.
Import PyStr Similarity Chat.

(** The log of the session after a second append. *)
Lemma log_after_reply (sid question text : string) (s s3 : memory)
      (old : list (gmap string string)) :
  wf s3 -> log s3 sid = Some (history_with old question) ->
  strip text <> EmptyString ->
  log (add_message sid "assistant" text s3) sid
  = Some (last_n 5 (old ++ [session_message "user" question;
                            session_message "assistant" (strip text)])).
Proof.
  intros Hwf3 Hlog3 Htext.
  destruct (add_message_effect sid "assistant" text s3 Hwf3)
    as (_ & _ & Hlog); [now right | assumption |].
  rewrite Hlog, Hlog3. cbn [from_option id]. unfold history_with.
  change (Z.to_nat MAX_SESSION_MESSAGES) with 5%nat.
  rewrite last_n_app_tail, <- app_assoc. reflexivity.
Qed.

(** X1.  The handler answers 400 exactly when the session id or the message
    is missing or blank after stripping; the session id is checked first.
    Such a request leaves the memory as it was and calls no generator. *)
Theorem chat_rejects_blank `{R : Runtime} (w : world) (request : ChatRequest)
        (s : memory) :
  ((exists detail, response (chat w request s) = inl (HTTP 400 detail))
   <-> session_of request = EmptyString
       \/ question_of request = EmptyString)
  /\ (session_of request = EmptyString ->
      response (chat w request s) = inl (HTTP 400 "sessionId is required.")
      /\ memory_after (chat w request s) = s
      /\ llm_calls (chat w request s) = [])
  /\ (session_of request <> EmptyString ->
      question_of request = EmptyString ->
      response (chat w request s)
      = inl (HTTP 400 "message cannot be empty.")
      /\ memory_after (chat w request s) = s
      /\ llm_calls (chat w request s) = []).
Proof.
  split; [split|split].
  - intros [detail Hd].
    destruct (string_dec (session_of request) EmptyString) as [Hs|Hs];
      [now left|].
    destruct (string_dec (question_of request) EmptyString) as [Hq|Hq];
      [now right|].
    exfalso. rewrite (chat_valid w request s Hs Hq) in Hd. cbv zeta in Hd.
    destruct (get_query_embedding w (question_of request));
      [discriminate|].
    destruct (_load_vector_store (vector_store w)) as [[]|documents];
      try discriminate.
    destruct (retrieve_top_k _ documents _ _) as [e|[|it its]];
      try discriminate.
    destruct (_build_prompt _ (it :: its) _) as [e|p]; [discriminate|].
    destruct (_call_gemini_llm w p); discriminate.
  - intros Hb. now destruct (chat_invalid w request s Hb) as (_ & _ & ?).
  - intros Hs. unfold chat. fold (session_of request). rewrite Hs.
    repeat split.
  - intros Hs Hq. unfold chat.
    fold (session_of request) (question_of request). rewrite Hq.
    destruct (session_of request); [congruence|]. repeat split.
Qed.

Lemma chat_rejects_blank_witness :
  session_of {| sessionId := None; message := Some "hi" |} = EmptyString
  /\ response (chat Examples.world_near
                 {| sessionId := None; message := Some "hi" |} empty_memory)
     = inl (HTTP 400 "sessionId is required.").
Proof.
  assert (H : session_of {| sessionId := None; message := Some "hi" |}
              = EmptyString) by reflexivity.
  split; [exact H|].
  destruct (chat_rejects_blank Examples.world_near
              {| sessionId := None; message := Some "hi" |} empty_memory)
    as (_ & Hsid & _).
  apply (Hsid H).
Defined.

(** X2.  A valid request that fails, with an HTTP error (502, 500 or 504)
    or with an exception that nothing catches, has still appended the
    question: the log of the session is its old log followed by the
    question, cut to the last five, and no assistant message was added. *)
Theorem chat_error_keeps_question `{R : Runtime} (w : world)
        (request : ChatRequest) (s : memory) (e : failure) :
  wf s ->
  session_of request <> EmptyString -> question_of request <> EmptyString ->
  response (chat w request s) = inl e ->
  log (memory_after (chat w request s)) (session_of request)
  = Some (history_with (default [] (log s (session_of request)))
            (question_of request))
  /\ last (history_with (default [] (log s (session_of request)))
             (question_of request))
     = Some (session_message "user" (question_of request)).
Proof.
  intros Hwf Hs Hq He.
  destruct (chat_prelude_frame (session_of request) (question_of request) s
              Hwf Hq (question_of_stripped request)) as (_ & _ & Hlog3 & _).
  split; [|apply history_with_shape].
  destruct (chat_memory_after w request s Hs Hq)
    as [[-> _]|(text & _ & r & Hr)]; [exact Hlog3|].
  rewrite Hr in He. discriminate.
Qed.

Lemma chat_error_keeps_question_witness :
  wf empty_memory
  /\ (map (fun d => (d !! "role", d !! "content"))
        <$> log (memory_after
                   (chat {| get_query_embedding := fun _ => [1]%float;
                            vector_store := NoFile;
                            _call_gemini_llm := fun _ => Generated "x" |}
                      Examples.request_hello empty_memory))
              (session_of Examples.request_hello))
     = Some [(Some "user", Some "hello")].
Proof.
  split; [exact wf_empty|].
  set (w := {| get_query_embedding := fun _ => [1]%float;
               vector_store := NoFile;
               _call_gemini_llm := fun _ => Generated "x" |}).
  destruct (chat_error_keeps_question w Examples.request_hello empty_memory
              (HTTP 500 "Vector store is unavailable.") wf_empty)
    as [Hlog _].
  - vm_compute. discriminate.
  - vm_compute. discriminate.
  - reflexivity.
  - rewrite Hlog. vm_compute. reflexivity.
Defined.

(** X3.  When a valid request finds no context, the handler appends the
    question and then the fallback reply as an assistant message: the log
    of the session is its old log followed by these two, cut to the last
    five. *)
Theorem chat_fallback_log `{R : Runtime} (w : world) (request : ChatRequest)
        (s : memory) (documents : list document) :
  wf s ->
  session_of request <> EmptyString -> question_of request <> EmptyString ->
  get_query_embedding w (question_of request) <> [] ->
  vector_store w = Entries documents ->
  retrieve_top_k (Floats (get_query_embedding w (question_of request)))
    documents RETRIEVAL_TOP_K SIMILARITY_THRESHOLD = inr [] ->
  log (memory_after (chat w request s)) (session_of request)
  = Some (last_n 5
            (default [] (log s (session_of request))
             ++ [session_message "user" (question_of request);
                 session_message "assistant" NO_CONTEXT_FALLBACK])).
Proof.
  intros Hwf Hs Hq Hqv Hstore Hret.
  destruct (chat_prelude_frame (session_of request) (question_of request) s
              Hwf Hq (question_of_stripped request))
    as (Hwf3 & _ & Hlog3 & _).
  rewrite (chat_valid w request s Hs Hq). cbv zeta.
  destruct (get_query_embedding w (question_of request)) as [|x qv];
    [congruence|].
  rewrite Hstore. cbn [_load_vector_store]. rewrite Hret.
  cbn [memory_after].
  apply (log_after_reply _ _ NO_CONTEXT_FALLBACK s); try assumption.
  vm_compute. discriminate.
Qed.

Lemma chat_fallback_log_witness :
  wf Examples.memory_at_cap
  /\ (map (fun d => (d !! "role", d !! "content"))
        <$> log (memory_after
                   (chat Examples.world_far Examples.request_hello
                      Examples.memory_at_cap))
              (session_of Examples.request_hello))
     = Some [(Some "user", Some "3"); (Some "assistant", Some "4");
             (Some "user", Some "5"); (Some "user", Some "hello");
             (Some "assistant", Some "I don't know")].
Proof.
  assert (Hwf : wf Examples.memory_at_cap)
    by apply (add_messages_effect "s1" Examples.five empty_memory wf_empty
                five_accepted).
  split; [exact Hwf|].
  rewrite (chat_fallback_log Examples.world_far Examples.request_hello
             Examples.memory_at_cap
             [float_doc "z" [0; 1; 0; 0; 0]%float] Hwf).
  - vm_compute. reflexivity.
  - vm_compute. discriminate.
  - vm_compute. discriminate.
  - vm_compute. discriminate.
  - reflexivity.
  - vm_compute. reflexivity.
Defined.



End HandlerOutcomes.

(** ** The generator call *)

Section Reply.
Import PyStr PyText Similarity Chat Llm.

Lemma append_cons (c : ascii) (a x : string) :
  String c a +:+ x = String c (a +:+ x).
Proof. reflexivity. Qed.

Lemma append_nonempty (a : string) (c : ascii) (r : string) :
  a +:+ String c r <> EmptyString.
Proof. destruct a; discriminate. Qed.

(** [rstrip] only looks at the end of a text. *)
Lemma rstrip_app (a x : string) :
  rstrip x <> EmptyString -> rstrip (a +:+ x) = a +:+ rstrip x.
Proof.
  intros Hx. induction a as [|c a IH]; [reflexivity|].
  rewrite append_cons, rstrip_cons, IH.
  destruct (rstrip x) as [|c' r'] eqn:E; [congruence|].
  destruct (a +:+ String c' r') eqn:E';
    [now apply append_nonempty in E'|].
  now rewrite append_cons, E'.
Qed.

Lemma trimmed_strip (s : string) : trimmed s -> strip s = s.
Proof.
  intros [(c & r & -> & Hc) Hr]. unfold strip. cbn [lstrip].
  rewrite Hc. exact Hr.
Qed.

Lemma strip_trimmed (t : string) :
  strip t <> EmptyString -> trimmed (strip t).
Proof.
  intros Hne. split; [|unfold strip; apply rstrip_idempotent].
  unfold strip in *.
  destruct (lstrip_head t) as [E|(c & r & E & Hc)]; rewrite E in *.
  - now cbn in Hne.
  - destruct (rstrip_head c r Hc) as [r' Hr]. rewrite Hr. eauto.
Qed.

Lemma trimmed_app (a sep b : string) :
  trimmed a -> trimmed b -> trimmed (a +:+ sep +:+ b).
Proof.
  intros [(c & r & -> & Hc) _] [(c' & r' & -> & Hc') Hb]. split.
  - rewrite append_cons. eauto.
  - assert (H : rstrip (sep +:+ String c' r') = sep +:+ String c' r').
    { rewrite rstrip_app; rewrite Hb; [reflexivity | discriminate]. }
    rewrite rstrip_app; rewrite H; [reflexivity | apply append_nonempty].
Qed.

Lemma join_trimmed (sep : string) (ws : list string) :
  ws <> [] -> Forall trimmed ws -> trimmed (join sep ws).
Proof.
  induction ws as [|w ws IH]; [congruence|]. intros _ H.
  inversion H as [|? ? Hw Hws]; subst.
  destruct ws as [|w' ws]; [assumption|].
  change (join sep (w :: w' :: ws))
    with (w +:+ sep +:+ join sep (w' :: ws)).
  apply trimmed_app; [assumption|]. apply IH; [discriminate | assumption].
Qed.

Lemma stripped_text_Some (piece : option string) (t : string) :
  stripped_text piece = Some t ->
  trimmed t /\ exists p, piece = Some p /\ strip p = t.
Proof.
  destruct piece as [p|]; [|discriminate]. unfold stripped_text.
  destruct (strip p) as [|c r] eqn:E; [discriminate|]. intros [= <-].
  split; [|eauto]. rewrite <- E. apply strip_trimmed. now rewrite E.
Qed.

Lemma stripped_text_None (piece : option string) :
  stripped_text piece = None
  <-> forall t, piece = Some t -> strip t = EmptyString.
Proof.
  destruct piece as [p|]; unfold stripped_text.
  - destruct (strip p) as [|c r] eqn:E; split.
    + now intros _ t [= <-].
    + reflexivity.
    + discriminate.
    + intros H. specialize (H p eq_refl). congruence.
  - split; [discriminate | reflexivity].
Qed.

Lemma text_segments_trimmed
      (candidates : list (option (list (option string)))) :
  Forall trimmed (text_segments candidates).
Proof.
  apply Forall_forall. intros t Hin. unfold text_segments in Hin.
  apply list_elem_of_In, in_flat_map in Hin.
  destruct Hin as ([parts|] & _ & Hin); [|destruct Hin].
  apply list_elem_of_In, list_elem_of_omap in Hin.
  destruct Hin as (piece & _ & Hp). now apply stripped_text_Some in Hp.
Qed.

Lemma extract_reply_stripped (response : sdk_response) :
  strip (_extract_reply response) = _extract_reply response.
Proof.
  unfold _extract_reply.
  destruct (stripped_text (response_text response)) as [t|] eqn:E.
  - apply trimmed_strip. now apply stripped_text_Some in E.
  - destruct (response_candidates response); [|reflexivity].
    apply strip_idempotent.
Qed.

(** X6.  [_extract_reply] returns the stripped [text] of the response when
    that is a text that is not blank.  Otherwise it returns the usable parts
    of the candidates, each stripped, joined by newlines exactly (the final
    [strip] removes nothing), and the empty text when [candidates] is not a
    list.  Its result is empty exactly when no usable text exists. *)
Theorem extract_reply_shape (response : sdk_response) :
  (forall t, response_text response = Some t -> strip t <> EmptyString ->
             _extract_reply response = strip t)
  /\ ((forall t, response_text response = Some t -> strip t = EmptyString) ->
      _extract_reply response
      = match response_candidates response with
        | Some candidates => join LF (text_segments candidates)
        | None => EmptyString
        end)
  /\ (_extract_reply response = EmptyString
      <-> (forall t, response_text response = Some t ->
                     strip t = EmptyString)
          /\ forall candidates,
               response_candidates response = Some candidates ->
               text_segments candidates = [])
  /\ strip (_extract_reply response) = _extract_reply response.
Proof.
  assert (Hjoin : forall candidates,
             strip (join LF (text_segments candidates))
             = join LF (text_segments candidates)).
  { intros cs. destruct (text_segments cs) as [|w ws] eqn:E; [reflexivity|].
    apply trimmed_strip, join_trimmed; [discriminate|].
    rewrite <- E. apply text_segments_trimmed. }
  split; [|split; [|split]].
  - intros t Ht Hne. unfold _extract_reply, stripped_text. rewrite Ht.
    destruct (strip t); [congruence | reflexivity].
  - intros Hblank. apply stripped_text_None in Hblank.
    unfold _extract_reply. rewrite Hblank.
    destruct (response_candidates response); [apply Hjoin | reflexivity].
  - unfold _extract_reply.
    destruct (stripped_text (response_text response)) as [t|] eqn:E.
    + destruct (stripped_text_Some _ _ E)
        as [[(c & r & -> & _) _] (p & Hp & Hs)].
      split; [discriminate|]. intros [Hblank _].
      specialize (Hblank p Hp). congruence.
    + pose proof (proj1 (stripped_text_None _) E) as Hblank. clear E.
      rename Hblank into E.
      destruct (response_candidates response) as [cs|].
      * rewrite Hjoin. split.
        -- intros Hj. split; [exact E|]. intros cs' [= <-].
           destruct (text_segments cs) as [|w ws] eqn:Ets; [reflexivity|].
           exfalso. revert Hj. apply join_nonempty.
           pose proof (text_segments_trimmed cs) as Ht. rewrite Ets in Ht.
           inversion Ht as [|? ? [(c & r & -> & _) _] _]. discriminate.
        -- intros [_ Hcs]. now rewrite (Hcs cs eq_refl).
      * split; [|reflexivity]. intros _. split; [exact E | discriminate].
  - apply extract_reply_stripped.
Qed.

(** The test [status in (408, 504)]. *)
Lemma status_other {A} (z : Z) (a b : A) :
  z <> 408 -> z <> 504 ->
  match Some z with Some 408 | Some 504 => a | _ => b end = b.
Proof.
  intros H1 H2. destruct z as [|p|p]; try reflexivity.
  do 10 (try destruct p as [p|p|]; try reflexivity); congruence.
Qed.

(** What [_call_gemini_llm] makes of an exception of the SDK. *)
Lemma raised_cases (exc : sdk_error) :
  let result :=
    if is_api_error exc then
      match status exc with
      | Some 408 | Some 504 =>
          GeminiTimeoutError "Gemini API request timed out."
      | _ => GeminiAPIError ("Gemini API failure: " +:+ error_text exc)
      end
    else if mentions "timeout" (lower (error_text exc))
            || mentions "deadline" (lower (error_text exc)) then
      GeminiTimeoutError "Gemini API request timed out."
    else GeminiAPIError ("Gemini API failure: " +:+ error_text exc) in
  (result = GeminiTimeoutError "Gemini API request timed out."
   /\ (if is_api_error exc
       then status exc = Some 408 \/ status exc = Some 504
       else mentions "timeout" (lower (error_text exc))
            || mentions "deadline" (lower (error_text exc)) = true))
  \/ (result = GeminiAPIError ("Gemini API failure: " +:+ error_text exc)
      /\ ~ (if is_api_error exc
            then status exc = Some 408 \/ status exc = Some 504
            else mentions "timeout" (lower (error_text exc))
                 || mentions "deadline" (lower (error_text exc)) = true)).
Proof.
  cbv zeta. destruct (is_api_error exc).
  - destruct (status exc) as [z|];
      [|right; split; [reflexivity | intros [?|?]; discriminate]].
    destruct (Z.eq_dec z 408) as [->|H1]; [left; auto|].
    destruct (Z.eq_dec z 504) as [->|H2]; [left; auto|].
    right. rewrite (status_other z _ _ H1 H2). split; [reflexivity|].
    intros [?|?]; congruence.
  - destruct (_ || _); [left | right]; split; auto; discriminate.
Qed.

(** What the handler returns and stores, by whether it called the
    generator. *)
Lemma chat_called `{R : Runtime} (w : world) (request : ChatRequest)
      (s : memory) :
  let sid := session_of request in
  let s2 := add_message sid "user" (question_of request)
              (snd (setdefault sid s)) in
  let s3 := snd (get_recent_messages sid MAX_SESSION_MESSAGES s2) in
  (llm_calls (chat w request s) = []
   /\ (forall d, response (chat w request s) <> inl (HTTP 504 d))
   /\ (forall r, response (chat w request s) = inr r ->
                 reply r = NO_CONTEXT_FALLBACK
                 /\ memory_after (chat w request s)
                    = add_message sid "assistant" (reply r) s3
                 /\ sid <> EmptyString
                 /\ question_of request <> EmptyString))
  \/ (exists prompt,
         llm_calls (chat w request s) = [prompt]
         /\ sid <> EmptyString /\ question_of request <> EmptyString
         /\ match _call_gemini_llm w prompt with
            | Generated t =>
                memory_after (chat w request s)
                = add_message sid "assistant" t s3
                /\ exists n, response (chat w request s)
                             = inr {| reply := t; retrievedChunks := n |}
            | GeminiTimeoutError d =>
                response (chat w request s) = inl (HTTP 504 d)
            | GeminiAPIError d =>
                response (chat w request s) = inl (HTTP 502 d)
            end).
Proof.
  cbv zeta.
  destruct (string_dec (session_of request) EmptyString) as [Hs|Hs].
  { destruct (chat_invalid w request s (or_introl Hs)) as (Hc & _ & d & Hd).
    left. rewrite Hd. split; [exact Hc|]. split; intros; discriminate. }
  destruct (string_dec (question_of request) EmptyString) as [Hq|Hq].
  { destruct (chat_invalid w request s (or_intror Hq)) as (Hc & _ & d & Hd).
    left. rewrite Hd. split; [exact Hc|]. split; intros; discriminate. }
  rewrite (chat_valid w request s Hs Hq). cbv zeta.
  destruct (get_query_embedding w (question_of request)) as [|x qv].
  { left. split; [reflexivity|]. split; intros; discriminate. }
  destruct (_load_vector_store (vector_store w)) as [[]|documents].
  1-4: left; (split; [reflexivity|]); split; intros; discriminate.
  destruct (retrieve_top_k _ documents _ _) as [e|[|it its]].
  { left. split; [reflexivity|]. split; intros; discriminate. }
  { left. split; [reflexivity|]. split; [intros; discriminate|].
    intros r [= <-]. repeat apply conj; try assumption; reflexivity. }
  destruct (_build_prompt _ (it :: its) _) as [e|p].
  { left. split; [reflexivity|]. split; intros; discriminate. }
  right. exists p. split; [|split; [exact Hs|split; [exact Hq|]]].
  - destruct (_call_gemini_llm w p); reflexivity.
  - destruct (_call_gemini_llm w p); cbn; eauto.
Qed.

(** X7.  With the generator of the code, the handler never answers with a
    blank reply: the reply of a success is not empty, has no whitespace at
    either end, and is stored as it is: the log of the session is its old
    log followed by the question and the reply, cut to the last five. *)
Theorem chat_sdk_reply_stored `{R : Runtime}
        (get_query_embedding : string -> list float)
        (vector_store : store_file) (client_failure : option string)
        (generate_content : string -> sdk_outcome)
        (request : ChatRequest) (s : memory) (r : ChatResponse) :
  wf s ->
  response (chat (world_with_sdk get_query_embedding vector_store
                    client_failure generate_content) request s) = inr r ->
  reply r <> EmptyString
  /\ strip (reply r) = reply r
  /\ log (memory_after
            (chat (world_with_sdk get_query_embedding vector_store
                     client_failure generate_content) request s))
       (session_of request)
     = Some (last_n 5
               (default [] (log s (session_of request))
                ++ [session_message "user" (question_of request);
                    session_message "assistant" (reply r)])).
Proof.
  intros Hwf Hr.
  set (w := world_with_sdk _ _ _ _) in *.
  assert (Hreply : reply r <> EmptyString /\ strip (reply r) = reply r
                   /\ session_of request <> EmptyString
                   /\ question_of request <> EmptyString
                   /\ memory_after (chat w request s)
                      = add_message (session_of request) "assistant"
                          (reply r)
                          (snd (get_recent_messages (session_of request)
                                  MAX_SESSION_MESSAGES
                                  (add_message (session_of request) "user"
                                     (question_of request)
                                     (snd (setdefault (session_of request)
                                             s)))))).
  { destruct (chat_called w request s)
      as [(_ & _ & Hok)|(prompt & _ & Hs & Hq & Hcall)].
    - destruct (Hok r Hr) as (Hrep & Hmem & Hs & Hq).
      rewrite Hrep in *. repeat apply conj; try assumption;
        [discriminate | reflexivity].
    - change (_call_gemini_llm w prompt)
        with (call_gemini_llm client_failure generate_content prompt)
        in Hcall.
      unfold call_gemini_llm in Hcall.
      destruct client_failure as [failure|]; [congruence|].
      destruct (generate_content prompt) as [resp|exc].
      + pose proof (extract_reply_stripped resp) as Hstrip.
        destruct (_extract_reply resp) as [|c t]; [congruence|].
        destruct Hcall as [Hmem [n Hn]]. rewrite Hn in Hr.
        injection Hr as <-. cbn [reply].
        repeat apply conj; try assumption. discriminate.
      + cbv zeta in Hcall.
        destruct (raised_cases exc) as [[E _]|[E _]]; cbv zeta in E;
          rewrite E in Hcall; congruence. }
  destruct Hreply as (Hne & Hstrip & Hs & Hq & Hmem).
  split; [exact Hne|]. split; [exact Hstrip|].
  destruct (chat_prelude_frame (session_of request) (question_of request) s
              Hwf Hq (question_of_stripped request))
    as (Hwf3 & _ & Hlog3 & _).
  rewrite Hmem.
  rewrite (log_after_reply _ _ (reply r) s _ _ Hwf3 Hlog3)
    by (rewrite Hstrip; exact Hne).
  rewrite Hstrip. reflexivity.
Qed.

Lemma chat_sdk_reply_stored_witness :
  wf empty_memory
  /\ response (chat SdkExamples.world_sdk Examples.request_hello
                 empty_memory)
     = inr {| reply := "first" +:+ LF +:+ "second"; retrievedChunks := 2 |}
  /\ log (memory_after (chat SdkExamples.world_sdk Examples.request_hello
                          empty_memory))
       (session_of Examples.request_hello)
     = Some [session_message "user" "hello";
             session_message "assistant" ("first" +:+ LF +:+ "second")].
Proof.
  assert (Hr : response (chat SdkExamples.world_sdk Examples.request_hello
                           empty_memory)
               = inr {| reply := "first" +:+ LF +:+ "second";
                        retrievedChunks := 2 |})
    by (vm_compute; reflexivity).
  split; [exact wf_empty|]. split; [exact Hr|].
  destruct (chat_sdk_reply_stored _ _ _ _ _ _ _ wf_empty Hr)
    as (_ & _ & Hlog).
  exact Hlog.
Defined.

(** X8.  With the generator of the code, the handler answers 504 exactly
    when it called the SDK and the SDK raised either an [APIError] whose
    status is 408 or 504, or another exception whose message, in lower
    case, contains "timeout" or "deadline". *)
Theorem chat_sdk_timeout `{R : Runtime}
        (get_query_embedding : string -> list float)
        (vector_store : store_file) (client_failure : option string)
        (generate_content : string -> sdk_outcome)
        (request : ChatRequest) (s : memory) :
  (exists detail,
      response (chat (world_with_sdk get_query_embedding vector_store
                        client_failure generate_content) request s)
      = inl (HTTP 504 detail))
  <-> exists prompt exc,
      llm_calls (chat (world_with_sdk get_query_embedding vector_store
                         client_failure generate_content) request s)
      = [prompt]
      /\ client_failure = None
      /\ generate_content prompt = Raised exc
      /\ (if is_api_error exc
          then status exc = Some 408 \/ status exc = Some 504
          else mentions "timeout" (lower (error_text exc))
               || mentions "deadline" (lower (error_text exc)) = true).
Proof.
  set (w := world_with_sdk _ _ _ _).
  destruct (chat_called w request s)
    as [(Hc & Hno & _)|(prompt & Hc & _ & _ & Hcall)].
  { split.
    - intros [d Hd]. now apply Hno in Hd.
    - intros (prompt & exc & Hp & _). rewrite Hc in Hp. discriminate. }
  change (_call_gemini_llm w prompt)
    with (call_gemini_llm client_failure generate_content prompt) in Hcall.
  unfold call_gemini_llm in Hcall. split.
  - intros [d Hd]. exists prompt.
    destruct client_failure as [failure|]; [congruence|].
    destruct (generate_content prompt) as [resp|exc].
    { destruct (_extract_reply resp); [congruence|].
      destruct Hcall as [_ [n Hn]]. congruence. }
    exists exc. split; [exact Hc|]. split; [reflexivity|].
    split; [reflexivity|]. cbv zeta in Hcall.
    destruct (raised_cases exc) as [[_ Hcond]|[E _]]; [exact Hcond|].
    cbv zeta in E. rewrite E in Hcall. congruence.
  - intros (prompt' & exc & Hp & -> & Hgc & Hcond).
    rewrite Hc in Hp. injection Hp as <-. rewrite Hgc in Hcall.
    cbv zeta in Hcall.
    destruct (raised_cases exc) as [[E _]|[_ Hno]]; [|contradiction].
    cbv zeta in E. rewrite E in Hcall. eauto.
Qed.

(** [lower] and [mentions] on concatenations. *)
Lemma lower_app (a b : string) : lower (a +:+ b) = lower a +:+ lower b.
Proof.
  induction a as [|c a IH]; [reflexivity|].
  rewrite !append_cons. cbn [lower]. now rewrite IH.
Qed.

Lemma prefix_app (name rest : string) :
  String.prefix name (name +:+ rest) = true.
Proof.
  induction name as [|c name IH]; [now destruct rest|].
  rewrite append_cons. cbn [String.prefix].
  destruct (ascii_dec c c); [exact IH | congruence].
Qed.

Lemma mentions_app (name a b : string) :
  mentions name (a +:+ name +:+ b) = true.
Proof.
  induction a as [|c a IH].
  - change (EmptyString +:+ name +:+ b) with (name +:+ b).
    destruct (name +:+ b) eqn:E;
      cbn [mentions]; rewrite <- ?E, prefix_app; reflexivity.
  - rewrite append_cons. cbn [mentions]. rewrite IH. apply orb_true_r.
Qed.

(** X9.  An exception of the SDK that is not an [APIError] and whose
    message contains "timeout" or "deadline" in any mix of cases is
    reported as a timeout. *)
Theorem call_gemini_llm_timeout_any_case
        (generate_content : string -> sdk_outcome) (prompt : string)
        (exc : sdk_error) (before word after : string) :
  generate_content prompt = Raised exc ->
  is_api_error exc = false ->
  error_text exc = before +:+ word +:+ after ->
  lower word = "timeout" \/ lower word = "deadline" ->
  call_gemini_llm None generate_content prompt
  = GeminiTimeoutError "Gemini API request timed out.".
Proof.
  intros Hgc Hapi Htext Hword. unfold call_gemini_llm.
  rewrite Hgc, Hapi. cbv zeta. rewrite Htext, !lower_app.
  destruct Hword as [-> | ->]; rewrite mentions_app;
    rewrite ?orb_true_r; reflexivity.
Qed.

Lemma call_gemini_llm_timeout_any_case_witness :
  call_gemini_llm None (fun _ => Raised SdkExamples.deadline_error) "p"
  = GeminiTimeoutError "Gemini API request timed out.".
Proof.
  apply (call_gemini_llm_timeout_any_case _ "p" SdkExamples.deadline_error
           "504 " "Deadline" " Exceeded"); try reflexivity.
  now right.
Defined.

(** X10.  [_normalize_model_name] accepts both forms of a model name: for a
    name without whitespace at either end that does not itself start with
    "models/", the bare name and the name after "models/" give the name. *)
Theorem normalize_model_name_forms (name : string) :
  strip name = name -> String.prefix "models/" name = false ->
  _normalize_model_name name = name
  /\ _normalize_model_name ("models/" +:+ name) = name.
Proof.
  intros Hstrip Hprefix. unfold _normalize_model_name. rewrite Hstrip, Hprefix.
  split; [reflexivity|].
  assert (Hr : rstrip name = name).
  { rewrite <- Hstrip. unfold strip. apply rstrip_idempotent. }
  assert (Hs : strip ("models/" +:+ name) = "models/" +:+ name).
  { destruct name as [|c name]; [reflexivity|].
    unfold strip. change (lstrip ("models/" +:+ String c name))
      with ("models/" +:+ String c name).
    rewrite rstrip_app; rewrite Hr; [reflexivity | discriminate]. }
  rewrite Hs. rewrite prefix_app. reflexivity.
Qed.

Lemma normalize_model_name_forms_witness :
  _normalize_model_name "gemini-1.5-flash" = "gemini-1.5-flash"
  /\ _normalize_model_name "models/gemini-1.5-flash" = "gemini-1.5-flash".
Proof.
  apply (normalize_model_name_forms "gemini-1.5-flash"); reflexivity.
Defined.

End Reply.

(** ** Requests of different sessions *)

Section Independence.
Import PyStr Similarity Chat.

(** An append changes the log of its session by that log alone. *)
Lemma add_message_own_log (sid role content : string) (s s' : memory) :
  wf s -> wf s' -> log s sid = log s' sid ->
  log (add_message sid role content s) sid
  = log (add_message sid role content s') sid.
Proof.
  intros Hwf Hwf' Hlog.
  destruct (valid_role_dec role) as [Hr|Hr];
    [destruct (string_dec (strip content) EmptyString) as [Hc|Hc]|].
  - rewrite !add_message_noop by now right. exact Hlog.
  - destruct (add_message_effect sid role content s Hwf Hr Hc)
      as (_ & _ & ->).
    destruct (add_message_effect sid role content s' Hwf' Hr Hc)
      as (_ & _ & ->).
    now rewrite Hlog.
  - rewrite !add_message_noop by now left. exact Hlog.
Qed.

(** The handler reads the memory through the log of its session only. *)
Lemma chat_own_log `{R : Runtime} (w : world) (request : ChatRequest)
      (s s' : memory) :
  wf s -> wf s' ->
  log s (session_of request) = log s' (session_of request) ->
  response (chat w request s) = response (chat w request s')
  /\ llm_calls (chat w request s) = llm_calls (chat w request s')
  /\ log (memory_after (chat w request s)) (session_of request)
     = log (memory_after (chat w request s')) (session_of request).
Proof.
  intros Hwf Hwf' Hlog.
  destruct (string_dec (session_of request) EmptyString) as [Hs|Hs].
  { destruct (chat_invalid w request s (or_introl Hs)) as (-> & -> & _).
    destruct (chat_invalid w request s' (or_introl Hs)) as (-> & -> & _).
    split; [|auto]. unfold chat. fold (session_of request).
    now rewrite Hs. }
  destruct (string_dec (question_of request) EmptyString) as [Hq|Hq].
  { destruct (chat_invalid w request s (or_intror Hq)) as (-> & -> & _).
    destruct (chat_invalid w request s' (or_intror Hq)) as (-> & -> & _).
    split; [|auto]. unfold chat.
    fold (session_of request) (question_of request). rewrite Hq.
    now destruct (session_of request). }
  destruct (chat_prelude (session_of request) (question_of request) s
              Hwf Hq (question_of_stripped request))
    as (Hwf3 & Hread & Hlog3).
  destruct (chat_prelude (session_of request) (question_of request) s'
              Hwf' Hq (question_of_stripped request))
    as (Hwf3' & Hread' & Hlog3').
  cbv zeta in Hread, Hread', Hlog3, Hlog3', Hwf3, Hwf3'.
  rewrite <- Hlog in Hread', Hlog3'.
  assert (Hsame := eq_trans Hlog3 (eq_sym Hlog3')).
  rewrite (chat_valid w request s Hs Hq), (chat_valid w request s' Hs Hq).
  cbv zeta. rewrite Hread, Hread'.
  destruct (get_query_embedding w (question_of request)) as [|x qv];
    [now cbn|].
  destruct (_load_vector_store (vector_store w)) as [[]|documents];
    try (now cbn).
  destruct (retrieve_top_k _ documents _ _) as [e|[|it its]]; [now cbn| |].
  { cbn [response llm_calls memory_after]. split; [reflexivity|].
    split; [reflexivity|]. now apply add_message_own_log. }
  destruct (_build_prompt _ (it :: its) _) as [e|p]; [now cbn|].
  destruct (_call_gemini_llm w p); cbn [response llm_calls memory_after];
    (split; [reflexivity|]); (split; [reflexivity|]);
    [now apply add_message_own_log | assumption | assumption].
Qed.

(** X11.  The handler reads the session memory through the log of the
    request's session alone: on two memories that agree on that log it
    gives the same response, sends the same prompt and leaves the same log
    for the session. *)
Theorem chat_reads_own_log `{R : Runtime} (w : world) (request : ChatRequest)
        (s s' : memory) :
  wf s -> wf s' ->
  log s (session_of request) = log s' (session_of request) ->
  response (chat w request s) = response (chat w request s')
  /\ llm_calls (chat w request s) = llm_calls (chat w request s')
  /\ log (memory_after (chat w request s)) (session_of request)
     = log (memory_after (chat w request s')) (session_of request).
Proof. apply chat_own_log. Qed.

Lemma chat_reads_own_log_witness :
  wf empty_memory /\ wf (add_message "other" "user" "x" empty_memory)
  /\ response (chat Examples.world_near Examples.request_hello empty_memory)
     = response (chat Examples.world_near Examples.request_hello
                   (add_message "other" "user" "x" empty_memory)).
Proof.
  assert (Hwf : wf (add_message "other" "user" "x" empty_memory))
    by apply (add_message_wf_frame "other" "user" "x" empty_memory wf_empty).
  split; [exact wf_empty|]. split; [exact Hwf|].
  apply (chat_reads_own_log Examples.world_near Examples.request_hello
           empty_memory _ wf_empty Hwf).
  vm_compute. reflexivity.
Defined.

(** X12.  Requests of two different sessions do not see each other: the
    second gets the response it would get without the first and sends the
    same prompt, and handling the two in either order leaves the same
    logs. *)
Theorem chat_sessions_independent `{R : Runtime} (w : world)
        (r1 r2 : ChatRequest) (s : memory) :
  wf s -> session_of r1 <> session_of r2 ->
  response (chat w r2 (memory_after (chat w r1 s)))
  = response (chat w r2 s)
  /\ llm_calls (chat w r2 (memory_after (chat w r1 s)))
     = llm_calls (chat w r2 s)
  /\ forall sid,
      log (memory_after (chat w r2 (memory_after (chat w r1 s)))) sid
      = log (memory_after (chat w r1 (memory_after (chat w r2 s)))) sid.
Proof.
  intros Hwf Hne.
  destruct (chat_memory_effect w r1 s Hwf) as (Hwf1 & _ & Ho1).
  destruct (chat_memory_effect w r2 s Hwf) as (Hwf2 & _ & Ho2).
  destruct (chat_memory_effect w r2 _ Hwf1) as (_ & _ & Ho12).
  destruct (chat_memory_effect w r1 _ Hwf2) as (_ & _ & Ho21).
  destruct (chat_own_log w r2 _ s Hwf1 Hwf) as (Hr & Hc & Hl);
    [apply Ho1; congruence|].
  destruct (chat_own_log w r1 _ s Hwf2 Hwf) as (_ & _ & Hl');
    [apply Ho2; congruence|].
  split; [exact Hr|]. split; [exact Hc|]. intros sid.
  destruct (string_dec sid (session_of r2)) as [->|H2].
  { rewrite Hl. symmetry. apply Ho21. congruence. }
  destruct (string_dec sid (session_of r1)) as [->|H1].
  { rewrite Hl'. apply Ho12. congruence. }
  rewrite Ho12, Ho1, Ho21, Ho2 by assumption. reflexivity.
Qed.

Lemma chat_sessions_independent_witness :
  wf empty_memory
  /\ response (chat Examples.world_near Examples.request_hello
                 (memory_after
                    (chat Examples.world_near
                       {| sessionId := Some "s2"; message := Some "hi" |}
                       empty_memory)))
     = response (chat Examples.world_near Examples.request_hello
                   empty_memory).
Proof.
  split; [exact wf_empty|].
  apply (chat_sessions_independent Examples.world_near
           {| sessionId := Some "s2"; message := Some "hi" |}
           Examples.request_hello empty_memory wf_empty).
  vm_compute. discriminate.
Defined.

End Independence.

(** ** Retrieval and similarity *)

Section Retrieval.
Import Similarity.
Local Open Scope float_scope.

(** An entry of floats does not end the call when the query converts. *)
Lemma float_doc_goes_on `{R : Runtime} (q : pylist) (a : list float)
      (t : float) (c : string) (v : list float) :
  np_asarray q = inr a -> goes_on q t (float_doc c v).
Proof.
  intros Hq. unfold goes_on.
  destruct (visit q t (float_doc c v)) as [ex|o] eqn:Hv; [|eauto].
  exfalso. apply visit_inl in Hv as (e & v' & [= <-] & Hvec & _ & Hc & Hx).
  injection Hvec as <-.
  destruct (cosine_similarity_inl _ _ _ Hc)
    as [Hq'|[(a' & _ & Hv')|(a' & b & _ & _ & _ & _ & _ & ->)]];
    [congruence | discriminate | discriminate].
Qed.



(** X15.  Every returned item comes from a dict entry of the store: its
    vector is the list of the entry, which is not the empty list, its
    content is the content of the entry, text or not, or the empty text
    when the entry has none, and its similarity is what [cosine_similarity]
    returns for the query and that vector, which is not below the
    threshold.  The query and the vector are lists that the conversion
    accepts, lists of floats or not, the similarity is that of the two
    arrays, and the arrays have the same length unless one is empty. *)
Theorem retrieve_top_k_provenance `{R : Runtime} (Hsort : sort_contract)
        (q : pylist) (docs : list document) (k : Z) (t : float)
        (r : list item) (it : item) :
  retrieve_top_k q docs k t = inr r -> it ∈ r ->
  (0 < k)%Z
  /\ (exists e, Dict e ∈ docs
                /\ entry_vector e = Some (AList (vector it))
                /\ content it = default (Text "") (entry_content e))
  /\ is_empty (vector it) = false
  /\ cosine_similarity q (vector it) = inr (similarity it)
  /\ (similarity it <? t) = false
  /\ (exists a b, np_asarray q = inr a /\ np_asarray (vector it) = inr b
                  /\ cosine_similarity (Floats a) (Floats b)
                     = inr (similarity it)
                  /\ (a = [] \/ b = [] \/ length a = length b)).
Proof.
  intros Hr Hin. split.
  { destruct (Z.leb_spec k 0) as [H0|H0]; [|exact H0].
    rewrite retrieve_top_k_unfold, (proj2 (Z.leb_le k 0) H0) in Hr.
    injection Hr as <-. inversion Hin. }
  apply (retrieve_top_k_subseteq Hsort _ _ _ _ _ Hr) in Hin.
  apply list_elem_of_omap in Hin as (d & Hd & Hv).
  apply kept_Some, visit_Some in Hv
    as (Hlt & e & -> & Hvec & Hne & Hcos & Hcont).
  split; [eauto|]. split; [exact Hne|]. split; [exact Hcos|].
  split; [exact Hlt|].
  destruct (np_asarray q) as [ex|a] eqn:Hq;
    [unfold cosine_similarity in Hcos; rewrite Hq in Hcos; discriminate|].
  destruct (np_asarray (vector it)) as [ex|b] eqn:Hb;
    [unfold cosine_similarity in Hcos; rewrite Hq, Hb in Hcos;
     discriminate|].
  exists a, b. split; [reflexivity|]. split; [reflexivity|].
  rewrite (cosine_similarity_arrays q (vector it) a b Hq Hb) in Hcos.
  split; [exact Hcos|].
  destruct a as [|x a]; [now left|]. right.
  destruct b as [|y b]; [now left|]. right.
  destruct (Nat.eq_dec (length (x :: a)) (length (y :: b))) as [E|E];
    [exact E|].
  exfalso.
  assert (Hex : exists ex, cosine_similarity (Floats (x :: a))
                             (Floats (y :: b)) = inl ex)
    by (apply cosine_similarity_raises_iff; repeat split; congruence).
  destruct Hex as [ex Hex]. congruence.
Qed.

Lemma retrieve_top_k_provenance_witness :
  (exists e, Dict e ∈ [Examples.numeric_texts]
             /\ entry_vector e = Some (AList (Converted 1 [0])))
  /\ exists e, Dict e ∈ [Examples.no_text]
               /\ entry_content e = Some NotText.
Proof.
  assert (Ha : exists a,
             retrieve_top_k (Floats [1; 0]) [Examples.numeric_texts] 3 0.7
             = inr [a] /\ vector a = Converted 1 [0]).
  { eexists. vm_compute. split; reflexivity. }
  assert (Hb : exists b,
             retrieve_top_k (Floats [1; 0; 0; 0; 0]) [Examples.no_text] 3 0.7
             = inr [b] /\ content b = NotText).
  { eexists. vm_compute. split; reflexivity. }
  destruct Ha as (a & Hra & Ha), Hb as (b & Hrb & Hb). split.
  - destruct (retrieve_top_k_provenance reference_sort_contract _ _ _ _ _ a
                Hra) as (_ & (e & He & Hv & _) & _); [left|].
    exists e. split; [exact He|]. now rewrite Hv, Ha.
  - destruct (retrieve_top_k_provenance reference_sort_contract _ _ _ _ _ b
                Hrb) as (_ & (e & He & _ & Hc) & _); [left|].
    exists e. split; [exact He|].
    apply list_elem_of_In in He. simpl in He.
    destruct He as [He|[]]. injection He as <-. reflexivity.
Defined.

End Retrieval.

(** ** Chunking: the words of the chunks *)

Section ChunkCover.
Import PyStr Chunking.

(** The chunks as windows, with what the loop guarantees of their number. *)
Lemma chunk_text_chunks (text : string) (chunk_size overlap : Z) :
  0 < chunk_size -> 0 <= overlap < chunk_size ->
  let words := split text in
  let cs := Z.to_nat chunk_size in
  let step := Z.to_nat (chunk_size - overlap) in
  exists m,
    chunk_text text chunk_size overlap
    = inr (map (fun i => join " " (window words cs step i)) (seq 0 m))
    /\ (words = [] -> m = 0%nat)
    /\ (words <> [] ->
        (0 < m)%nat
        /\ (length words <= (m - 1) * step + cs)%nat
        /\ (forall i, (i + 1 < m)%nat -> (i * step + cs < length words)%nat)
        /\ (forall i, (i < m)%nat -> (i * step < length words)%nat)).
Proof.
  intros Hc Ho words cs step.
  assert (Hstep : (0 < step <= cs)%nat) by (subst step cs; lia).
  rewrite chunk_text_valid by assumption. fold words cs step.
  destruct (list_eq_dec words []) as [Hnil|Hne].
  { exists 0%nat. rewrite Hnil. split; [reflexivity|]. split; congruence. }
  destruct (chunk_loop_range words cs step Hstep Hne)
    as (m & Heq & Hm & Hlast & Hbefore).
  exists m. split; [destruct words; [congruence | now rewrite Heq]|].
  split; [congruence|]. intros _.
  split; [exact Hm|]. split; [exact Hlast|]. split; [exact Hbefore|].
  intros i Hi. destruct (Nat.eq_dec i 0%nat) as [->|Hi0].
  - destruct words; simpl; [congruence | lia].
  - specialize (Hbefore (i - 1)%nat ltac:(lia)).
    replace (i * step)%nat with ((i - 1) * step + step)%nat by nia. lia.
Qed.

(** The first [m * step + cs] words, from the windows [0 .. m]. *)
Lemma take_windows (words : list string) (cs step m : nat) :
  (step <= cs)%nat ->
  take (m * step + cs) words
  = (window words cs step 0
     ++ concat (map (fun i => drop (cs - step) (window words cs step i))
                    (seq 1 m)))%list.
Proof.
  intros Hs. induction m as [|m IH].
  - unfold window. simpl. now rewrite app_nil_r.
  - rewrite seq_S, map_app, concat_app, app_assoc, <- IH.
    cbn [map concat]. rewrite app_nil_r. unfold window.
    rewrite skipn_firstn_comm, drop_drop.
    replace ((1 + m) * step + (cs - step))%nat with (m * step + cs)%nat
      by lia.
    replace (cs - (cs - step))%nat with step by lia.
    rewrite take_take_drop. f_equal. lia.
Qed.

(** No chunk is blank. *)
Lemma chunk_text_not_blank (text : string) (chunk_size overlap : Z)
      (chunks : list string) :
  0 < chunk_size -> 0 <= overlap < chunk_size ->
  chunk_text text chunk_size overlap = inr chunks ->
  Forall (fun chunk => split chunk <> []) chunks.
Proof.
  intros Hc Ho Hchunks.
  destruct (chunk_text_chunks text chunk_size overlap Hc Ho)
    as (m & Heq & Hnil & Hne).
  cbv zeta in *. rewrite Heq in Hchunks. injection Hchunks as <-.
  apply Forall_forall. intros c Hin.
  apply list_elem_of_fmap in Hin as (i & -> & Hi). apply elem_of_seq in Hi.
  rewrite split_join by apply window_words, split_words.
  destruct (list_eq_dec (split text) []) as [E|E];
    [specialize (Hnil E); lia|].
  destruct (Hne E) as (_ & _ & _ & Hstart).
  apply window_nonempty; [lia | apply Hstart; lia].
Qed.

(** X16.  The words of the text can be read back from the chunks: they are
    the words of the first chunk followed by the words of every later chunk
    without its first [overlap] words.  So no word is lost, and the only
    repeated words are the overlaps. *)
Theorem chunk_text_reconstructs (text : string) (chunk_size overlap : Z) :
  0 < chunk_size -> 0 <= overlap < chunk_size ->
  exists chunks,
    chunk_text text chunk_size overlap = inr chunks
    /\ split text
       = match map split chunks with
         | [] => []
         | first :: later =>
             (first ++ concat (map (drop (Z.to_nat overlap)) later))%list
         end.
Proof.
  intros Hc Ho.
  destruct (chunk_text_chunks text chunk_size overlap Hc Ho)
    as (m & Heq & Hnil & Hne).
  cbv zeta in *. eexists. split; [exact Heq|].
  set (words := split text) in *. set (cs := Z.to_nat chunk_size) in *.
  set (step := Z.to_nat (chunk_size - overlap)) in *.
  rewrite map_map.
  rewrite (map_ext (fun i => split (join " " (window words cs step i)))
                   (window words cs step))
    by (intros i; apply split_join, window_words, split_words).
  destruct (list_eq_dec words []) as [E|E].
  { rewrite (Hnil E). simpl. exact E. }
  destruct (Hne E) as (Hm & Hlast & _).
  destruct m as [|m]; [lia|].
  change (seq 0 (S m)) with (0%nat :: seq 1 m). cbn [map].
  rewrite map_map.
  replace (Z.to_nat overlap) with (cs - step)%nat by (subst cs step; lia).
  rewrite <- take_windows by (subst cs step; lia).
  symmetry. apply take_ge. simpl in Hlast. lia.
Qed.

Lemma chunk_text_reconstructs_witness :
  0 < 3 /\ 0 <= 1 < 3
  /\ exists chunks,
      chunk_text "a b c d e" 3 1 = inr chunks
      /\ ["a"; "b"; "c"; "d"; "e"]
         = match map split chunks with
           | [] => []
           | first :: later => (first ++ concat (map (drop 1) later))%list
           end.
Proof.
  assert (H1 : 0 < 3) by lia. assert (H2 : 0 <= 1 < 3) by lia.
  split; [exact H1|]. split; [exact H2|].
  exact (chunk_text_reconstructs "a b c d e" 3 1 H1 H2).
Defined.

(** X17.  The number of chunks: a text of at most [chunk_size] words gives
    one chunk, its words joined by single spaces (none for a text without
    words); a longer text of [n] words gives
    [(n - overlap - 1) / (chunk_size - overlap) + 1] chunks.  There are
    never more chunks than words. *)
Theorem chunk_text_count (text : string) (chunk_size overlap : Z) :
  0 < chunk_size -> 0 <= overlap < chunk_size ->
  exists chunks,
    chunk_text text chunk_size overlap = inr chunks
    /\ (split text = [] -> chunks = [])
    /\ (split text <> [] ->
        Z.of_nat (length (split text)) <= chunk_size ->
        chunks = [join " " (split text)])
    /\ (chunk_size < Z.of_nat (length (split text)) ->
        Z.of_nat (length chunks)
        = (Z.of_nat (length (split text)) - overlap - 1)
          / (chunk_size - overlap) + 1)
    /\ (length chunks <= length (split text))%nat.
Proof.
  intros Hc Ho.
  destruct (chunk_text_chunks text chunk_size overlap Hc Ho)
    as (m & Heq & Hnil & Hne).
  cbv zeta in *. eexists. split; [exact Heq|].
  rewrite length_map, length_seq.
  set (words := split text) in *. set (cs := Z.to_nat chunk_size) in *.
  set (step := Z.to_nat (chunk_size - overlap)) in *.
  assert (Hcs : chunk_size = Z.of_nat cs) by (subst cs; lia).
  assert (Hst : chunk_size - overlap = Z.of_nat step) by (subst step; lia).
  split; [|split; [|split]].
  - intros E. now rewrite (Hnil E).
  - intros E Hshort. destruct (Hne E) as (Hm & _ & Hbefore & _).
    assert (m = 1%nat) as ->.
    { destruct m as [|[|m]]; [lia | reflexivity |].
      specialize (Hbefore 0%nat ltac:(lia)). lia. }
    simpl. unfold window. change (drop (0 * step) words) with words.
    rewrite take_ge by lia. reflexivity.
  - intros Hlong.
    assert (E : words <> []) by (destruct words; simpl in Hlong; [lia|congruence]).
    destruct (Hne E) as (Hm & Hlast & Hbefore & _).
    assert (H2 : (2 <= m)%nat).
    { destruct m as [|[|m]]; [lia | simpl in Hlast; lia | lia]. }
    specialize (Hbefore (m - 2)%nat ltac:(lia)).
    replace (Z.of_nat (length words) - overlap - 1)
      with (Z.of_nat (length words) - (Z.of_nat cs - Z.of_nat step) - 1)
      by lia.
    rewrite Hst.
    assert (Hq : Z.of_nat m - 1
                 = (Z.of_nat (length words)
                    - (Z.of_nat cs - Z.of_nat step) - 1) / Z.of_nat step).
    { apply Z.div_unique
        with (r := Z.of_nat (length words)
                   - (Z.of_nat cs - Z.of_nat step) - 1
                   - Z.of_nat step * (Z.of_nat m - 1)); [|lia].
      left. nia. }
    lia.
  - destruct (list_eq_dec words []) as [E|E]; [rewrite (Hnil E); lia|].
    destruct (Hne E) as (Hm & _ & _ & Hstart).
    specialize (Hstart (m - 1)%nat ltac:(lia)). nia.
Qed.

Lemma chunk_text_count_witness :
  0 < 100 /\ 0 <= 10 < 100
  /\ chunk_text "  one   two  " 100 10 = inr ["one two"].
Proof.
  assert (H1 : 0 < 100) by lia. assert (H2 : 0 <= 10 < 100) by lia.
  split; [exact H1|]. split; [exact H2|].
  destruct (chunk_text_count "  one   two  " 100 10 H1 H2)
    as (chunks & Heq & _ & Hshort & _).
  rewrite Heq. f_equal. apply Hshort; [discriminate | vm_compute; discriminate].
Defined.

End ChunkCover.

(** ** Ingestion *)

Section Ingestion.
Import PyStr Chunking Similarity Ingest.

Lemma embed_chunks_closed (get_embedding : nat -> string -> list float)
      (chunks : list string) (vector_store : list document) :
  embed_chunks get_embedding chunks vector_store
  = (vector_store
     ++ imap (fun i chunk =>
                float_doc chunk
                  (get_embedding (length vector_store + i)%nat chunk))
             chunks)%list.
Proof.
  revert vector_store.
  induction chunks as [|c chunks IH]; intros vs; cbn [embed_chunks].
  - simpl. now rewrite app_nil_r.
  - rewrite IH, <- app_assoc, imap_cons. cbn [app]. rewrite Nat.add_0_r.
    do 2 f_equal. apply imap_ext. intros i x _. cbn.
    rewrite length_app. cbn [length]. do 2 f_equal. lia.
Qed.

Lemma embed_chunks_app (get_embedding : nat -> string -> list float)
      (a b : list string) (vector_store : list document) :
  embed_chunks get_embedding (a ++ b) vector_store
  = embed_chunks get_embedding b (embed_chunks get_embedding a vector_store).
Proof.
  revert vector_store. induction a as [|c a IH]; intros vs; [reflexivity|].
  cbn [app embed_chunks]. apply IH.
Qed.

Lemma build_loop_valid (get_embedding : nat -> string -> list float)
      (chunk_size overlap : Z) (docs : list input_doc)
      (vector_store : list document) :
  0 < chunk_size -> 0 <= overlap < chunk_size ->
  build_loop get_embedding chunk_size overlap docs vector_store
  = inr (embed_chunks get_embedding (all_chunks docs chunk_size overlap)
           vector_store).
Proof.
  intros Hc Ho. revert vector_store.
  induction docs as [|doc docs IH]; intros vs; [reflexivity|].
  cbn [build_loop all_chunks flat_map].
  destruct (usable_content doc) as [content|]; [|apply IH].
  rewrite embed_chunks_app, (chunk_text_valid content) by assumption.
  apply IH.
Qed.

Lemma build_loop_unusable (get_embedding : nat -> string -> list float)
      (chunk_size overlap : Z) (docs : list input_doc)
      (vector_store : list document) :
  (forall doc, doc ∈ docs -> usable_content doc = None) ->
  build_loop get_embedding chunk_size overlap docs vector_store
  = inr vector_store.
Proof.
  induction docs as [|doc docs IH]; intros Hall; [reflexivity|].
  cbn [build_loop]. rewrite (Hall doc) by left.
  apply IH. intros d Hd. apply Hall. now right.
Qed.

Lemma all_chunks_chunk_of (docs : list input_doc) (chunk_size overlap : Z)
      (chunk : string) :
  chunk ∈ all_chunks docs chunk_size overlap
  <-> chunk_of docs chunk_size overlap chunk.
Proof.
  unfold all_chunks, chunk_of. rewrite list_elem_of_In, in_flat_map. split.
  - intros (doc & Hdoc & Hin). exists doc.
    destruct (usable_content doc) as [content|]; [|destruct Hin].
    destruct (chunk_text content chunk_size overlap) as [e|chunks] eqn:E;
      [destruct Hin|].
    exists content, chunks. rewrite !list_elem_of_In. auto.
  - intros (doc & content & chunks & Hdoc & Hu & Hc & Hin). exists doc.
    rewrite Hu, Hc, <- !list_elem_of_In. auto.
Qed.

Lemma all_chunks_not_blank (docs : list input_doc) (chunk_size overlap : Z) :
  0 < chunk_size -> 0 <= overlap < chunk_size ->
  Forall (fun chunk => split chunk <> [])
         (all_chunks docs chunk_size overlap).
Proof.
  intros Hc Ho. apply Forall_forall. intros chunk Hin.
  apply all_chunks_chunk_of in Hin
    as (doc & content & chunks & _ & _ & Hchunks & Hin).
  pose proof (chunk_text_not_blank content chunk_size overlap chunks Hc Ho
                Hchunks) as Hall.
  rewrite Forall_forall in Hall. now apply Hall.
Qed.

(** X18.  For parameters that [chunk_text] accepts, [build_vector_store]
    returns one entry per chunk of the documents with usable content, in the
    order of the documents and of their chunks: entry number [i] holds chunk
    number [i] and the answer of the embedding call number [i] made on it.
    Documents that are not objects, or whose content is absent, not a text
    or blank, contribute nothing; no stored content is blank. *)
Theorem build_vector_store_entries
        (get_embedding : nat -> string -> list float)
        (docs : list input_doc) (chunk_size overlap : Z) :
  0 < chunk_size -> 0 <= overlap < chunk_size ->
  build_vector_store get_embedding docs chunk_size overlap
  = inr (imap (fun i chunk => float_doc chunk (get_embedding i chunk))
              (all_chunks docs chunk_size overlap))
  /\ (forall chunk, chunk ∈ all_chunks docs chunk_size overlap
                    <-> chunk_of docs chunk_size overlap chunk)
  /\ Forall (fun chunk => split chunk <> [])
            (all_chunks docs chunk_size overlap).
Proof.
  intros Hc Ho. split; [|split].
  - unfold build_vector_store.
    rewrite build_loop_valid, embed_chunks_closed by assumption.
    reflexivity.
  - apply all_chunks_chunk_of.
  - now apply all_chunks_not_blank.
Qed.

Lemma build_vector_store_entries_witness :
  0 < 300 /\ 0 <= 50 < 300
  /\ build_vector_store IngestExamples.get_embedding IngestExamples.docs
       300 50
     = inr [float_doc "x" []; float_doc "y z" [1; 0]%float].
Proof.
  assert (H1 : 0 < 300) by lia. assert (H2 : 0 <= 50 < 300) by lia.
  split; [exact H1|]. split; [exact H2|].
  destruct (build_vector_store_entries IngestExamples.get_embedding
              IngestExamples.docs 300 50 H1 H2) as (-> & _).
  vm_compute. reflexivity.
Defined.

(** X19.  [build_vector_store] checks its parameters only through
    [chunk_text]: with a chunk size that is not positive, or an overlap that
    is negative or not below the chunk size, it raises [ValueError] when
    some document has usable content, and returns the empty store when none
    has.  Whatever the parameters, documents without usable content give
    the empty store. *)
Theorem build_vector_store_validation
        (get_embedding : nat -> string -> list float)
        (docs : list input_doc) (chunk_size overlap : Z) :
  ((forall doc, doc ∈ docs -> usable_content doc = None) ->
   build_vector_store get_embedding docs chunk_size overlap = inr [])
  /\ (chunk_size <= 0 \/ overlap < 0 \/ overlap >= chunk_size ->
      (exists doc, doc ∈ docs /\ usable_content doc <> None) ->
      exists msg,
        build_vector_store get_embedding docs chunk_size overlap
        = inl (ValueError msg)).
Proof.
  split; [apply build_loop_unusable|].
  intros Hbad (doc & Hin & Husable). unfold build_vector_store.
  generalize (@nil document).
  induction docs as [|d docs IH]; intros vs; [inversion Hin|].
  cbn [build_loop].
  destruct (usable_content d) as [content|] eqn:Hd.
  - destruct (Z_le_gt_dec chunk_size 0) as [H0|H0].
    { rewrite chunk_text_bad_size by assumption. eauto. }
    destruct (Z_lt_ge_dec overlap 0) as [H1|H1].
    { rewrite chunk_text_negative_overlap by lia. eauto. }
    rewrite chunk_text_large_overlap by lia. eauto.
  - apply IH. apply elem_of_cons in Hin as [->|Hin]; [congruence | exact Hin].
Qed.

Lemma build_vector_store_validation_witness :
  exists msg,
    build_vector_store IngestExamples.get_embedding IngestExamples.docs 50 50
    = inl (ValueError msg).
Proof.
  destruct (build_vector_store_validation IngestExamples.get_embedding
              IngestExamples.docs 50 50) as [_ H].
  apply H.
  - right. right. lia.
  - exists (Object (Some (Str "x"))). split; [|discriminate].
    unfold IngestExamples.docs. do 4 right. left.
Defined.

(** X20.  On a store that [build_vector_store] returns, [retrieve_top_k]
    returns for every query that the conversion accepts, and it returns
    only entries whose embedding call gave a vector that is not empty: an
    item is chunk number [i] of the usable documents, for some [i], with
    the answer of embedding call number [i] as its vector, and its content
    is a text that is not blank. *)
Theorem ingest_then_retrieve `{R : Runtime} (Hsort : sort_contract)
        (get_embedding : nat -> string -> list float)
        (docs : list input_doc) (chunk_size overlap : Z)
        (vector_store : list document)
        (q : pylist) (k : Z) (t : float) :
  0 < chunk_size -> 0 <= overlap < chunk_size ->
  build_vector_store get_embedding docs chunk_size overlap
  = inr vector_store ->
  (forall a, np_asarray q = inr a ->
             exists r, retrieve_top_k q vector_store k t = inr r)
  /\ forall r it,
      retrieve_top_k q vector_store k t = inr r -> it ∈ r ->
      exists i c,
        content it = Text c
        /\ all_chunks docs chunk_size overlap !! i = Some c
        /\ vector it = Floats (get_embedding i c)
        /\ get_embedding i c <> []
        /\ split c <> []
        /\ chunk_of docs chunk_size overlap c.
Proof.
  intros Hc Ho Hbuild.
  unfold build_vector_store in Hbuild.
  rewrite build_loop_valid, embed_chunks_closed in Hbuild by assumption.
  injection Hbuild as <-. cbn [app length Nat.add]. split.
  - intros a Hq. eexists. apply (retrieve_top_k_total Hsort).
    apply Forall_forall. intros d Hd.
    apply elem_of_lookup_imap in Hd as (i & chunk & -> & _).
    now apply (float_doc_goes_on q a).
  - intros r it Hr Hin.
    apply (retrieve_top_k_subseteq Hsort _ _ _ _ _ Hr) in Hin.
    apply list_elem_of_omap in Hin as (d & Hd & Hv).
    apply kept_Some, visit_Some in Hv
      as (_ & e & -> & Hvec & Hne & _ & Hcont).
    apply elem_of_lookup_imap in Hd as (i & chunk & Hd & Hi).
    unfold float_doc in Hd. injection Hd as ->. cbn in Hvec, Hcont.
    injection Hvec as Hvec. exists i, chunk.
    split; [exact Hcont|]. split; [exact Hi|]. split; [now symmetry|].
    split.
    + intros E. rewrite <- Hvec, E in Hne. discriminate.
    + assert (Hin : chunk ∈ all_chunks docs chunk_size overlap)
        by (eapply list_elem_of_lookup_2; eassumption).
      split; [|now apply all_chunks_chunk_of].
      pose proof (all_chunks_not_blank docs chunk_size overlap Hc Ho)
        as Hall.
      rewrite Forall_forall in Hall. now apply Hall.
Qed.

Lemma ingest_then_retrieve_witness :
  retrieve_top_k (Floats [1; 0]%float)
    [float_doc "x" []; float_doc "y z" [1; 0]%float] 3 0.7%float
  = inr [ {| content := Text "y z"; vector := Floats [1; 0]%float;
             similarity := 1%float |} ]
  /\ exists i,
      all_chunks IngestExamples.docs 300 50 !! i = Some "y z"
      /\ IngestExamples.get_embedding i "y z" <> [].
Proof.
  assert (H1 : 0 < 300) by lia. assert (H2 : 0 <= 50 < 300) by lia.
  assert (Hret : retrieve_top_k (Floats [1; 0]%float)
                   [float_doc "x" []; float_doc "y z" [1; 0]%float]
                   3 0.7%float
                 = inr [ {| content := Text "y z";
                            vector := Floats [1; 0]%float;
                            similarity := 1%float |} ])
    by (vm_compute; reflexivity).
  split; [exact Hret|].
  destruct (ingest_then_retrieve reference_sort_contract
              IngestExamples.get_embedding IngestExamples.docs 300 50
              [float_doc "x" []; float_doc "y z" [1; 0]%float]
              (Floats [1; 0]%float) 3 0.7%float H1 H2)
    as (_ & Hitems); [vm_compute; reflexivity|].
  destruct (Hitems _ _ Hret ltac:(left)) as (i & c & Hc & Hi & _ & Hne & _).
  injection Hc as <-. exists i. split; assumption.
Defined.

End Ingestion.

(** ** Settings and the validation handler *)

Section Settings.
Import PyStr PyText Config Main.

Lemma free_of_empty (sep : ascii) : free_of sep EmptyString.
Proof. intros c []. Qed.

Lemma free_of_cons (sep c : ascii) (s : string) :
  free_of sep (String c s) <-> c <> sep /\ free_of sep s.
Proof.
  unfold free_of. cbn [list_ascii_of_string]. split.
  - intros H. split; [apply H; now left|]. intros x Hx. apply H. now right.
  - intros [Hc Hs] x [<-|Hx]; auto.
Qed.

Lemma lstrip_free (sep : ascii) (s : string) :
  free_of sep s -> free_of sep (lstrip s).
Proof.
  induction s as [|c s IH]; [auto|]. intros H. cbn [lstrip].
  destruct (is_space c); [|exact H]. apply IH.
  now apply free_of_cons in H.
Qed.

Lemma rstrip_free (sep : ascii) (s : string) :
  free_of sep s -> free_of sep (rstrip s).
Proof.
  induction s as [|c s IH]; [auto|]. intros H.
  apply free_of_cons in H as [Hc Hs]. specialize (IH Hs).
  rewrite rstrip_cons. destruct (rstrip s) as [|c' r].
  - destruct (is_space c); [apply free_of_empty|].
    apply free_of_cons. split; [exact Hc | apply free_of_empty].
  - apply free_of_cons. split; assumption.
Qed.

Lemma split_on_pieces (sep : ascii) (s : string) :
  Forall (free_of sep) (split_on sep s).
Proof.
  induction s as [|c s IH]; cbn [split_on].
  - constructor; [apply free_of_empty | constructor].
  - destruct (Ascii.eqb_spec c sep) as [->|Hc].
    + constructor; [apply free_of_empty | exact IH].
    + destruct (split_on sep s) as [|w ws].
      * constructor; [|constructor].
        apply free_of_cons. split; [exact Hc | apply free_of_empty].
      * inversion IH as [|? ? Hw Hws]; subst.
        constructor; [|exact Hws]. apply free_of_cons. now split.
Qed.

Lemma split_on_free (sep : ascii) (s : string) :
  free_of sep s -> split_on sep s = [s].
Proof.
  induction s as [|c s IH]; [reflexivity|]. intros H.
  apply free_of_cons in H as [Hc Hs]. cbn [split_on].
  destruct (Ascii.eqb_spec c sep) as [->|_]; [congruence|].
  now rewrite (IH Hs).
Qed.

Lemma split_on_app (sep : ascii) (a b : string) :
  free_of sep a ->
  split_on sep (a +:+ String sep b) = a :: split_on sep b.
Proof.
  induction a as [|c a IH]; intros H.
  - change (EmptyString +:+ String sep b) with (String sep b).
    cbn [split_on]. now rewrite Ascii.eqb_refl.
  - apply free_of_cons in H as [Hc Ha]. rewrite append_cons.
    cbn [split_on]. destruct (Ascii.eqb_spec c sep) as [->|_]; [congruence|].
    now rewrite (IH Ha).
Qed.

Lemma split_on_join (sep : ascii) (ws : list string) :
  ws <> [] -> Forall (free_of sep) ws ->
  split_on sep (join (String sep EmptyString) ws) = ws.
Proof.
  induction ws as [|w ws IH]; [congruence|]. intros _ H.
  inversion H as [|? ? Hw Hws]; subst.
  destruct ws as [|w' ws]; [now apply split_on_free|].
  change (join (String sep EmptyString) (w :: w' :: ws))
    with (w +:+ String sep (join (String sep EmptyString) (w' :: ws))).
  rewrite split_on_app by assumption. f_equal.
  apply IH; [discriminate | assumption].
Qed.

(** X21.  Every origin of [Settings.cors_origins] is not empty, has no
    whitespace at either end and holds no comma.  Conversely, origins of
    that kind joined by commas are read back as they are, so the setting
    can express exactly the lists of such origins; without the variable the
    list is the one local origin. *)
Theorem cors_origins_clean (CORS_ORIGINS : option string) :
  Forall (clean ",") (cors_origins CORS_ORIGINS)
  /\ (forall origins, Forall (clean ",") origins ->
                      cors_origins (Some (join "," origins)) = origins)
  /\ cors_origins None = ["http://localhost:5173"].
Proof.
  split; [|split; [|reflexivity]].
  - unfold cors_origins. apply Forall_forall. intros o Hin.
    apply list_elem_of_In, in_map_iff in Hin as (p & <- & Hp).
    apply filter_In in Hp as [Hp Hne].
    split.
    + apply strip_trimmed. destruct (strip p); [discriminate | discriminate].
    + apply rstrip_free, lstrip_free.
      pose proof (split_on_pieces "," (default "http://localhost:5173"
                                         CORS_ORIGINS)) as Hall.
      rewrite Forall_forall in Hall. apply Hall. now apply list_elem_of_In.
  - intros origins Hclean. unfold cors_origins. cbn [from_option id].
    destruct origins as [|o origins]; [reflexivity|].
    rewrite split_on_join;
      [|discriminate
       |eapply Forall_impl; [exact Hclean | intros x [_ Hx]; exact Hx]].
    assert (Hstrip : Forall (fun x => strip x = x) (o :: origins)).
    { eapply Forall_impl; [exact Hclean|].
      intros x [Hx _]. now apply trimmed_strip. }
    assert (Hkeep : Forall (fun x => match strip x with
                                     | EmptyString => false
                                     | String _ _ => true
                                     end = true) (o :: origins)).
    { eapply Forall_impl; [exact Hclean|].
      intros x [Hx _]. rewrite (trimmed_strip x Hx).
      destruct Hx as [(c & r & -> & _) _]. reflexivity. }
    generalize dependent (o :: origins). intros l _ Hstrip Hkeep.
    induction l as [|x l IH]; [reflexivity|].
    inversion Hstrip as [|? ? Hx Hl]; subst.
    inversion Hkeep as [|? ? Hx' Hl']; subst.
    cbn [List.filter]. rewrite Hx'. cbn [map]. rewrite Hx. f_equal.
    now apply IH.
Qed.

(** X22.  The validation handler answers 400 exactly when some error names
    [sessionId] or [message] in its location, and 422 with the message of an
    invalid payload otherwise.  The first such error decides the message,
    and [sessionId] goes before [message] within one error. *)
Theorem validation_exception_handler_status
        (errors : list validation_error) :
  (fst (validation_exception_handler errors) = 400
   <-> Exists (fun error => names_field error = true) errors)
  /\ (Forall (fun error => names_field error = false) errors ->
      validation_exception_handler errors
      = (422, "Invalid request payload."))
  /\ (forall pre error post,
        Forall (fun error => names_field error = false) pre ->
        names_field error = true ->
        validation_exception_handler (pre ++ error :: post)
        = if names "sessionId" (default [] (loc error))
          then (400, "sessionId is required.")
          else (400, "message is required.")).
Proof.
  split; [|split].
  - induction errors as [|e errors IH]; cbn [validation_exception_handler].
    + split; [discriminate | intros H; inversion H].
    + rewrite Exists_cons. unfold names_field at 1. cbv zeta.
      destruct (names "sessionId" (default [] (loc e))); [simpl; tauto|].
      destruct (names "message" (default [] (loc e))); [simpl; tauto|].
      rewrite IH. simpl. intuition discriminate.
  - induction 1 as [|e errors He _ IH]; [reflexivity|].
    cbn [validation_exception_handler]. unfold names_field in He.
    apply orb_false_iff in He as [-> ->]. exact IH.
  - intros pre e post Hpre He.
    induction Hpre as [|x pre Hx _ IH]; cbn [app validation_exception_handler].
    + unfold names_field in He.
      destruct (names "sessionId" (default [] (loc e))); [reflexivity|].
      simpl in He. now rewrite He.
    + unfold names_field in Hx. apply orb_false_iff in Hx as [-> ->].
      exact IH.
Qed.

End Settings.
